(** * OrgOnboarder: the roster reconciliation core, verified against its spec

    A shallow embedding of the TypeScript sources of the normalizer
    (status.ts, normalize.ts, finalize.ts, handlers/ingestDeltas.ts,
    handlers/ingestUpserts.ts, handlers/email.ts,
    utils/firestoreOptimizer.ts) and of the Kafka bridge (http.ts,
    batching.ts, consumerUpserts.ts, consumerDeltas.ts), followed by the
    theorems that settle the specification's claims against them and by
    further properties of the code.

    Conventions of the embedding:
    - a JavaScript string is a [string] of 8-bit code units; [toLowerCase]
      and [trim] act on the ASCII range (letters A-Z, white space 9-13 and 32);
    - a JavaScript number that holds a count, an epoch or a time stamp is a
      [Z] or an [N]; a number produced by [/] or by [*] with a fractional
      literal is an IEEE-754 binary64 value, a [spec_float] with precision 53;
    - [Date.now()] and [Timestamp.now()] are read from an explicit argument;
    - a Firestore collection is a finite map from document ids to records,
      a JavaScript [Map] whose iteration order matters is an association
      list in insertion order;
    - the failures of store and HTTP calls are modelled where a claim
      depends on them: the bulk queries and batch commits of the optimizer,
      the page commits of the finalizer and the requests of the bridge fail
      when an oracle of the environment says so; elsewhere a call succeeds,
      except that an [update] of a missing document always fails;
    - a loop that the source leaves by [break] takes fuel, and theorems
      say how much fuel lets it finish. *)

From Stdlib Require Import ZArith NArith List String Ascii Bool Lia SpecFloat.
From Stdlib Require Import DecimalString.
From stdpp Require Import gmap strings list fin_maps sorting.

Local Open Scope string_scope.

(** ** JavaScript strings *)

Module JsString.

(** White space as [String.prototype.trim] and the regular expression
    class [\s] see it, within ASCII: TAB, LF, VT, FF, CR and SPACE. *)
Definition isWhiteSpace (c : ascii) : bool :=
  let n := nat_of_ascii c in
  ((9 <=? n)%nat && (n <=? 13)%nat) || (n =? 32)%nat.

Definition lowerChar (c : ascii) : ascii :=
  let n := nat_of_ascii c in
  if ((65 <=? n)%nat && (n <=? 90)%nat) then ascii_of_nat (n + 32) else c.

Fixpoint toLowerCase (s : string) : string :=
  match s with
  | EmptyString => EmptyString
  | String c s' => String (lowerChar c) (toLowerCase s')
  end.

Fixpoint trimStart (s : string) : string :=
  match s with
  | EmptyString => EmptyString
  | String c s' => if isWhiteSpace c then trimStart s' else s
  end.

Definition reverse (s : string) : string :=
  string_of_list_ascii (rev (list_ascii_of_string s)).

Definition trimEnd (s : string) : string := reverse (trimStart (reverse s)).

Definition trim (s : string) : string := trimEnd (trimStart s).

(** [s.includes(key)]: [key] occurs in [s] as a substring. *)
Fixpoint includes (s key : string) : bool :=
  String.prefix key s ||
  match s with
  | EmptyString => false
  | String _ s' => includes s' key
  end.

(** A string is falsy exactly when it is empty. *)
Definition truthy (s : string) : bool := negb (String.eqb s "").

(** An [eventId] is declared [string | number]. *)
Inductive EventId :=
| EventIdString (s : string)
| EventIdNumber (n : Z).

Definition eventIdTruthy (e : EventId) : bool :=
  match e with
  | EventIdString s => truthy s
  | EventIdNumber n => negb (n =? 0)%Z
  end.

(** [String(eventId)] *)
Definition eventIdToString (e : EventId) : string :=
  match e with
  | EventIdString s => s
  | EventIdNumber n => NilEmpty.string_of_int (Z.to_int n)
  end.

(** [eventId && String(eventId)], as an optional field. *)
Definition lastEventIdOf (e : option EventId) : option string :=
  match e with
  | Some ev => if eventIdTruthy ev then Some (eventIdToString ev) else None
  | None => None
  end.

End JsString.

(** ** status.ts and normalize.ts *)

Module Status.
Import JsString.

(** The values that flow through [normalizeStatus]. Its parameter is
    declared [string | undefined | null]; its result is whatever the
    property read [statusMap[normalized]] yields, which for a key that
    [statusMap] does not own is looked up in [Object.prototype]. *)
Inductive jsval :=
| VUndefined
| VNull
| VString (s : string)
| VInherited (name : string).  (* the value of [Object.prototype[name]] *)

Inductive outcome :=
| Returns (v : jsval)
| ThrowsTypeError.

(** The own properties of the [statusMap] literal, in source order. *)
Definition statusMap : list (string * string) :=
  [ ("active", "active"); ("employed", "active"); ("current", "active");
    ("working", "active"); ("full-time", "active"); ("fulltime", "active");
    ("part-time", "active"); ("parttime", "active");
    ("contractor", "active"); ("consultant", "active"); ("intern", "active");
    ("inactive", "inactive"); ("on leave", "inactive");
    ("onleave", "inactive"); ("leave", "inactive");
    ("sabbatical", "inactive"); ("maternity", "inactive");
    ("paternity", "inactive"); ("medical", "inactive");
    ("suspended", "inactive");
    ("left", "left"); ("terminated", "left"); ("former", "left");
    ("resigned", "left"); ("retired", "left"); ("departed", "left");
    ("exited", "left"); ("quit", "left"); ("fired", "left");
    ("removed", "left") ].

(** The properties every object literal inherits from [Object.prototype];
    each of them is a function or an object, hence truthy. *)
Definition objectPrototypeKeys : list string :=
  [ "constructor"; "__proto__"; "hasOwnProperty"; "isPrototypeOf";
    "propertyIsEnumerable"; "toLocaleString"; "toString"; "valueOf";
    "__defineGetter__"; "__defineSetter__"; "__lookupGetter__";
    "__lookupSetter__" ].

Fixpoint ownProperty (m : list (string * string)) (k : string) : option string :=
  match m with
  | [] => None
  | (k', v) :: m' => if String.eqb k' k then Some v else ownProperty m' k
  end.

(** [statusMap[k]]: own property first, then the prototype chain. *)
Definition getProperty (m : list (string * string)) (k : string) : jsval :=
  match ownProperty m k with
  | Some v => VString v
  | None =>
      if existsb (String.eqb k) objectPrototypeKeys then VInherited k
      else VUndefined
  end.

Definition isTruthy (v : jsval) : bool :=
  match v with
  | VUndefined | VNull => false
  | VString s => truthy s
  | VInherited _ => true
  end.

(** The loop over [Object.entries(statusMap)]: the first own key that
    occurs in [normalized] decides. *)
Fixpoint partialMatch (m : list (string * string)) (normalized : string)
  : option string :=
  match m with
  | [] => None
  | (k, v) :: m' =>
      if includes normalized k then Some v else partialMatch m' normalized
  end.

(** The store's canonical statuses. *)
Definition canonicalStatus (s : string) : Prop :=
  s = "active" ∨ s = "inactive" ∨ s = "left".

Definition normalizeStatus (status : jsval) : outcome :=
  if negb (isTruthy status) then Returns (VString "active")
  else
    match status with
    | VString s =>
        let normalized := trim (toLowerCase s) in
        let exact := getProperty statusMap normalized in
        if isTruthy exact then Returns exact
        else
          match partialMatch statusMap normalized with
          | Some v => Returns (VString v)
          | None => Returns (VString "inactive")
          end
    | _ => ThrowsTypeError  (* [status.toLowerCase] is not a function *)
    end.

(** [/^[^\s@]+@[^\s@]+\.[^\s@]+$/]: the three bracket classes exclude
    white space and [@], so a match is a local part, one [@], and a domain
    with a dot that is neither its first nor its last character. *)
Definition isAtomChar (c : ascii) : bool :=
  negb (isWhiteSpace c) && negb (Ascii.eqb c "@").

Fixpoint allAtom (s : string) : bool :=
  match s with
  | EmptyString => true
  | String c s' => isAtomChar c && allAtom s'
  end.

(** [[^\s@]+\.[^\s@]+$] matched from the start of [s]. *)
Fixpoint matchDomain (s : string) : bool :=
  match s with
  | EmptyString => false
  | String c s' =>
      isAtomChar c &&
      (matchDomain s' ||
       match s' with
       | String "." (String d s'') => isAtomChar d && allAtom s''
       | _ => false
       end)
  end.

(** [[^\s@]+@] followed by the domain part; [seen] records that the local
    part is not empty. *)
Fixpoint matchLocal (seen : bool) (s : string) : bool :=
  match s with
  | EmptyString => false
  | String c s' =>
      if Ascii.eqb c "@" then seen && matchDomain s'
      else isAtomChar c && matchLocal true s'
  end.

Definition emailRegex_test (s : string) : bool := matchLocal false s.

Definition isValidEmail (email : option string) : bool :=
  match email with
  | None => false
  | Some e => truthy e && emailRegex_test (trim e)
  end.

(** A raw row: the fields the core reads from a parsed record. *)
Record RawEmployee := {
  raw_email : option string;
  raw_statusInOrg : jsval;
  raw_eventId : option EventId;
  (* [row.deltaType || row.delta_type] *)
  raw_deltaType : option string;
  (* [row.orgName || row.org_name || row.organizationName
      || row.organization_name] *)
  raw_orgName : option string;
}.

Record NormalizedEmployee := {
  email : string;
  statusInOrg : jsval;
}.

(** [normalizeRow]: [None] is the source's [null]. *)
Definition normalizeRow (row : RawEmployee) : option (option NormalizedEmployee) :=
  let email := option_map (fun e => trim (toLowerCase e)) (raw_email row) in
  match email with
  | None => Some None
  | Some e =>
      if negb (truthy e) || negb (isValidEmail (Some e)) then Some None
      else
        match normalizeStatus (raw_statusInOrg row) with
        | Returns st => Some (Some {| email := e; statusInOrg := st |})
        | ThrowsTypeError => None
        end
  end.

End Status.

(** ** IEEE-754 binary64 arithmetic, as far as the optimizer uses it *)

Module Double.

Definition prec : Z := 53.
Definition emax : Z := 1024.

Definition ofZ (z : Z) : spec_float := binary_normalize prec emax z 0 false.
Definition ofN (n : N) : spec_float := ofZ (Z.of_N n).

Definition div : spec_float -> spec_float -> spec_float := SFdiv prec emax.
Definition mul : spec_float -> spec_float -> spec_float := SFmul prec emax.
Definition ltb : spec_float -> spec_float -> bool := SFltb.
Definition gtb (x y : spec_float) : bool := SFltb y x.

(** A decimal literal [num/den] denotes the double nearest to it, which
    is what the correctly rounded quotient of the two integers gives. *)
Definition literal (num den : Z) : spec_float := div (ofZ num) (ofZ den).

(** [Math.floor] of a finite double, as an integer. The optimizer applies
    it to products of a batch size, which are finite; a NaN or an infinity
    has no integer value and is mapped to 0 here. *)
Definition floor (x : spec_float) : Z :=
  match x with
  | S754_finite s m e =>
      let v := if s then Z.neg m else Z.pos m in
      if (0 <=? e)%Z then (v * 2 ^ e)%Z else (v / 2 ^ (- e))%Z
  | _ => 0%Z
  end.

End Double.

(** ** The document store (firestore.ts and the primitives the core uses) *)

Module Firestore.

(** Document ids are opaque, totally ordered names. *)
Abbreviation DocId := positive.

Record Employee := {
  email : string;
  statusInOrg : string;
  presentInLatest : bool;
  lastSeenEpoch : Z;
  updatedAt : Z;
  source : string;
  lastEventId : option string;
}.

Record Organization := {
  currentEpoch : option Z;
  lastFinalizedEpoch : option Z;
  name : option string;
  org_updatedAt : Z;
}.

(** [organizations/{orgId}] and [organizations/{orgId}/employees/{id}]. *)
Record Store := {
  organizations : gmap string Organization;
  employees : string -> gmap DocId Employee;
}.

Definition employeesRef (db : Store) (orgId : string) : gmap DocId Employee :=
  employees db orgId.

Definition withEmployees (db : Store) (orgId : string)
  (c : gmap DocId Employee) : Store :=
  {| organizations := organizations db;
     employees := fun o => if decide (o = orgId) then c else employees db o |}.

Definition withOrganization (db : Store) (orgId : string)
  (d : Organization) : Store :=
  {| organizations := <[orgId := d]> (organizations db);
     employees := employees db |}.

(** The documents of a collection in document-name order, the order of
    a query without [orderBy]. *)
Definition byName (a b : DocId * Employee) : Prop := (a.1 <= b.1)%positive.

#[global] Instance byName_dec : RelDecision byName.
Proof. intros a b. unfold byName. apply _. Defined.

Definition docs (c : gmap DocId Employee) : list (DocId * Employee) :=
  merge_sort byName (map_to_list c).

(** [where('email', '==', e).limit(1).get()] *)
Definition whereEmailEq (c : gmap DocId Employee) (e : string)
  : option (DocId * Employee) :=
  head (filter (fun d => email d.2 = e) (docs c)).

(** [where('email', 'in', chunk).get()] *)
Definition whereEmailIn (c : gmap DocId Employee) (chunk : list string)
  : list (DocId * Employee) :=
  filter (fun d => email d.2 ∈ chunk) (docs c).

(** [ref.set(data)] on a new reference and [ref.set(data, {merge: true})]:
    the upsert payload carries every field except, possibly,
    [lastEventId], which a merge then keeps from the old document. *)
Definition mergeData (old : option Employee) (data : Employee) : Employee :=
  match old, lastEventId data with
  | Some o, None =>
      {| email := email data; statusInOrg := statusInOrg data;
         presentInLatest := presentInLatest data;
         lastSeenEpoch := lastSeenEpoch data; updatedAt := updatedAt data;
         source := source data; lastEventId := lastEventId o |}
  | _, _ => data
  end.

Definition setMerge (c : gmap DocId Employee) (ref : DocId) (data : Employee)
  : gmap DocId Employee :=
  <[ref := mergeData (c !! ref) data]> c.

(** [collection.doc()] followed by [set]: a document under a new id. *)
Definition addDoc (c : gmap DocId Employee) (data : Employee)
  : gmap DocId Employee :=
  <[fresh (dom c) := data]> c.

End Firestore.

(** ** utils/firestoreOptimizer.ts *)

Module Optimizer.
Import JsString Firestore.

Module CONFIG.
Definition FIRESTORE_BATCH_SIZE : Z := 500.
Definition FIRESTORE_IN_LIMIT : nat := 10.
Definition MAX_PARALLEL_BATCHES : nat := 5.
Definition QUERY_CHUNK_SIZE : nat := 10.
Definition ADAPTIVE_BATCH_THRESHOLD : spec_float := Double.literal 8 10.
Definition CACHE_TTL_MS : Z := 5 * 60 * 1000.
Definition MAX_CACHE_SIZE_MB : Z := 100.
Definition ERROR_THRESHOLD : spec_float := Double.literal 3 10.
Definition CIRCUIT_RESET_MS : Z := 60 * 1000.
End CONFIG.

Record Metrics := {
  totalProcessed : N;
  totalErrors : N;
  totalQueries : N;
  totalWrites : N;
  cacheHits : N;
  cacheMisses : N;
}.

Inductive CircuitState := CLOSED | OPEN | HALF_OPEN.

Record CacheEntry := {
  data : gmap string DocId;
  timestamp : Z;
  sizeBytes : Z;
}.

(** The instance state. [cache] is a [Map]: its entries in insertion
    order, each key once. *)
Record Instance := {
  cache : list (string * CacheEntry);
  metrics : Metrics;
  circuitState : CircuitState;
  circuitOpenTime : Z;
  currentBatchSize : Z;
}.

Definition constructor : Instance :=
  {| cache := [];
     metrics := {| totalProcessed := 0; totalErrors := 0; totalQueries := 0;
                   totalWrites := 0; cacheHits := 0; cacheMisses := 0 |};
     circuitState := CLOSED;
     circuitOpenTime := 0;
     currentBatchSize := CONFIG.FIRESTORE_BATCH_SIZE |}.

(** *** [Map] operations on the cache *)

Fixpoint mapGet {V} (m : list (string * V)) (k : string) : option V :=
  match m with
  | [] => None
  | (k', v) :: m' => if String.eqb k' k then Some v else mapGet m' k
  end.

(** [Map.prototype.set]: an existing key keeps its position. *)
Fixpoint mapSet {V} (m : list (string * V)) (k : string) (v : V)
  : list (string * V) :=
  match m with
  | [] => [(k, v)]
  | (k', v') :: m' =>
      if String.eqb k' k then (k', v) :: m' else (k', v') :: mapSet m' k v
  end.

Fixpoint mapDelete {V} (m : list (string * V)) (k : string)
  : list (string * V) :=
  match m with
  | [] => []
  | (k', v') :: m' =>
      if String.eqb k' k then m' else (k', v') :: mapDelete m' k
  end.

(** *** Cache management *)

Definition getFromCache (now : Z) (key : string)
  (c : list (string * CacheEntry))
  : option (gmap string DocId) * list (string * CacheEntry) :=
  match mapGet c key with
  | None => (None, c)
  | Some entry =>
      if (now - timestamp entry >? CONFIG.CACHE_TTL_MS)%Z
      then (None, mapDelete c key)
      else (Some (data entry), c)
  end.

(** The scan of [evictOldestCache]: [oldestTime] starts at [Infinity]
    ([None]) and an entry replaces the candidate only when strictly
    older. *)
Definition olderThan (t : Z) (oldestTime : option Z) : bool :=
  match oldestTime with
  | None => true
  | Some t0 => (t <? t0)%Z
  end.

Fixpoint scanOldest (c : list (string * CacheEntry))
  (oldestKey : option string) (oldestTime : option Z) : option string :=
  match c with
  | [] => oldestKey
  | (k, entry) :: c' =>
      if olderThan (timestamp entry) oldestTime
      then scanOldest c' (Some k) (Some (timestamp entry))
      else scanOldest c' oldestKey oldestTime
  end.

Definition evictOldestCache (c : list (string * CacheEntry))
  : list (string * CacheEntry) :=
  match scanOldest c None None with
  | Some k => if truthy k then mapDelete c k else c
  | None => c
  end.

Definition totalSizeBytes (c : list (string * CacheEntry)) : Z :=
  fold_left (fun sum kv => (sum + sizeBytes kv.2)%Z) c 0%Z.

Definition maxCacheBytes : Z := (CONFIG.MAX_CACHE_SIZE_MB * 1024 * 1024)%Z.

Definition addToCache (now : Z) (key : string) (d : gmap string DocId)
  (c : list (string * CacheEntry)) : list (string * CacheEntry) :=
  let size := (Z.of_nat (size d) * 200)%Z in
  let totalSize := totalSizeBytes c in
  let c' := if (totalSize + size >? maxCacheBytes)%Z
            then evictOldestCache c else c in
  mapSet c' key {| data := d; timestamp := now; sizeBytes := size |}.

(** *** Adaptive batch sizing *)

Definition adaptBatchSize (errors processed : N) (current : Z) : Z :=
  let total := (errors + processed)%N in
  if (total =? 0)%N then current
  else
    let errorRate := Double.div (Double.ofN errors) (Double.ofN total) in
    if Double.gtb errorRate CONFIG.ADAPTIVE_BATCH_THRESHOLD then
      let newSize :=
        Z.max 100 (Double.floor
                     (Double.mul (Double.ofZ current) (Double.literal 7 10))) in
      if negb (newSize =? current)%Z then newSize else current
    else if Double.ltb errorRate (Double.literal 5 100)
            && (current <? CONFIG.FIRESTORE_BATCH_SIZE)%Z then
      let newSize :=
        Z.min CONFIG.FIRESTORE_BATCH_SIZE
          (Double.floor
             (Double.mul (Double.ofZ current) (Double.literal 12 10))) in
      if negb (newSize =? current)%Z then newSize else current
    else current.

(** *** Circuit breaker *)

Definition withCircuit (o : Instance) (st : CircuitState) (openTime : Z)
  : Instance :=
  {| cache := cache o; metrics := metrics o; circuitState := st;
     circuitOpenTime := openTime; currentBatchSize := currentBatchSize o |}.

Definition canProceed (now : Z) (o : Instance) : bool * Instance :=
  match circuitState o with
  | OPEN =>
      if (now - circuitOpenTime o >? CONFIG.CIRCUIT_RESET_MS)%Z
      then (true, withCircuit o HALF_OPEN (circuitOpenTime o))
      else (false, o)
  | _ => (true, o)
  end.

Record BatchResult := {
  processed : N;
  skipped : N;
  errors : N;
}.

Definition addCounts (m : Metrics) (r : BatchResult) : Metrics :=
  {| totalProcessed := totalProcessed m + processed r;
     totalErrors := totalErrors m + errors r;
     totalQueries := totalQueries m; totalWrites := totalWrites m;
     cacheHits := cacheHits m; cacheMisses := cacheMisses m |}.

Definition withMetrics (o : Instance) (m : Metrics) : Instance :=
  {| cache := cache o; metrics := m; circuitState := circuitState o;
     circuitOpenTime := circuitOpenTime o;
     currentBatchSize := currentBatchSize o |}.

(** The comparison [errorRate > CONFIG.ERROR_THRESHOLD] of
    [updateMetrics], on the cumulative counters. *)
Definition errorRateExceeds (m : Metrics) : bool :=
  Double.gtb
    (Double.div (Double.ofN (totalErrors m))
                (Double.ofN (totalProcessed m + totalErrors m)))
    CONFIG.ERROR_THRESHOLD.

Definition isOpen (st : CircuitState) : bool :=
  match st with OPEN => true | _ => false end.

Definition updateMetrics (now : Z) (r : BatchResult) (o : Instance)
  : Instance :=
  let o1 := withMetrics o (addCounts (metrics o) r) in
  let total := (totalProcessed (metrics o1) + totalErrors (metrics o1))%N in
  if (total =? 0)%N then o1
  else if errorRateExceeds (metrics o1) then
    if negb (isOpen (circuitState o1)) then withCircuit o1 OPEN now else o1
  else
    match circuitState o1 with
    | HALF_OPEN => withCircuit o1 CLOSED (circuitOpenTime o1)
    | _ => o1
    end.

(** *** The reconciliation pipeline *)

Record UpsertMessage := {
  msg_email : option string;
  msg_statusInOrg : option string;
  msg_eventId : option EventId;
}.

(** [message.email?.toLowerCase().trim()] *)
Definition normalizedEmail (m : UpsertMessage) : option string :=
  option_map (fun e => trim (toLowerCase e)) (msg_email m).

Definition mapHas {V} (m : list (string * V)) (k : string) : bool :=
  match mapGet m k with Some _ => true | None => false end.

(** One iteration of the loop of [deduplicateEmails]. *)
Definition dedupStep (emailMap : list (string * bool)) (m : UpsertMessage)
  : list (string * bool) :=
  match normalizedEmail m with
  | Some e =>
      if truthy e && negb (mapHas emailMap e) then mapSet emailMap e true
      else emailMap
  | None => emailMap
  end.

(** The loop runs from the last message to the first. *)
Definition deduplicateEmails (messages : list UpsertMessage) : list string :=
  map fst (fold_left dedupStep (rev messages) []).

Record PreparedItem := {
  item_email : string;
  item_data : Employee;
  item_ref : option DocId;
  item_isNew : bool;
}.

(** [message.statusInOrg || 'active'] *)
Definition statusOrActive (st : option string) : string :=
  match st with
  | Some s => if truthy s then s else "active"
  | None => "active"
  end.

Definition prepareStep (existingEmployees : gmap string DocId)
  (epochNumber now : Z) (st : list PreparedItem * gset string)
  (message : UpsertMessage) : list PreparedItem * gset string :=
  let '(dataList, processedEmails) := st in
  match normalizedEmail message with
  | None => st
  | Some e =>
      if negb (truthy e) || bool_decide (e ∈ processedEmails) then st
      else
        let employeeData :=
          {| email := e;
             statusInOrg := statusOrActive (msg_statusInOrg message);
             presentInLatest := true;
             lastSeenEpoch := epochNumber;
             updatedAt := now;
             source := "kafka:upsert";
             lastEventId := lastEventIdOf (msg_eventId message) |} in
        let existingRef := existingEmployees !! e in
        ((dataList ++
            [ {| item_email := e; item_data := employeeData;
                 item_ref := existingRef;
                 item_isNew := match existingRef with
                               | Some _ => false | None => true end |} ])%list,
         {[ e ]} ∪ processedEmails)
  end.

Definition prepareEmployeeData (messages : list UpsertMessage)
  (existingEmployees : gmap string DocId) (epochNumber now : Z)
  : list PreparedItem :=
  (fold_left (prepareStep existingEmployees epochNumber now)
     (rev messages) ([], ∅)).1.

(** [for (i = 0; i < l.length; i += size) out.push(l.slice(i, i + size))],
    for a positive [size]. *)
Fixpoint chunksOf {A} (fuel size : nat) (l : list A) : list (list A) :=
  match fuel, l with
  | S fuel', _ :: _ => take size l :: chunksOf fuel' size (drop size l)
  | _, _ => []
  end.

Definition chunk {A} (size : nat) (l : list A) : list (list A) :=
  chunksOf (length l) size l.

(** What the environment decides in one invocation: the clock, and which
    store calls fail (by index of the query chunk and of the write batch). *)
Record Env := {
  now : Z;
  queryFails : nat -> bool;
  commitFails : nat -> bool;
}.

(** One [where('email', 'in', chunk)] query, turned into a map. *)
Definition chunkMap (collection : gmap DocId Employee) (ch : list string)
  : gmap string DocId :=
  fold_left
    (fun m d => if truthy (email d.2) then <[email d.2 := d.1]> m else m)
    (whereEmailIn collection ch) ∅.

Definition bumpQueries (m : Metrics) : Metrics :=
  {| totalProcessed := totalProcessed m; totalErrors := totalErrors m;
     totalQueries := totalQueries m + 1; totalWrites := totalWrites m;
     cacheHits := cacheHits m; cacheMisses := cacheMisses m |}.

Definition bumpErrors (m : Metrics) : Metrics :=
  {| totalProcessed := totalProcessed m; totalErrors := totalErrors m + 1;
     totalQueries := totalQueries m; totalWrites := totalWrites m;
     cacheHits := cacheHits m; cacheMisses := cacheMisses m |}.

Definition bumpCacheHits (m : Metrics) : Metrics :=
  {| totalProcessed := totalProcessed m; totalErrors := totalErrors m;
     totalQueries := totalQueries m; totalWrites := totalWrites m;
     cacheHits := cacheHits m + 1; cacheMisses := cacheMisses m |}.

Definition bumpCacheMisses (m : Metrics) : Metrics :=
  {| totalProcessed := totalProcessed m; totalErrors := totalErrors m;
     totalQueries := totalQueries m; totalWrites := totalWrites m;
     cacheHits := cacheHits m; cacheMisses := cacheMisses m + 1 |}.

Definition addWrites (m : Metrics) (n : N) : Metrics :=
  {| totalProcessed := totalProcessed m; totalErrors := totalErrors m;
     totalQueries := totalQueries m; totalWrites := totalWrites m + n;
     cacheHits := cacheHits m; cacheMisses := cacheMisses m |}.

(** The chunk queries of [bulkQueryEmployees], in chunk order; a failed
    query counts an error and contributes an empty map. Later results
    overwrite earlier ones on merge. *)
Fixpoint runQueries (env : Env) (collection : gmap DocId Employee)
  (idx : nat) (chunks : list (list string))
  (acc : gmap string DocId * Metrics) : gmap string DocId * Metrics :=
  match chunks with
  | [] => acc
  | ch :: rest =>
      let '(emailMap, m) := acc in
      if queryFails env idx
      then runQueries env collection (S idx) rest (emailMap, bumpErrors m)
      else runQueries env collection (S idx) rest
             (chunkMap collection ch ∪ emailMap, bumpQueries m)
  end.

Definition bulkQueryEmployees (env : Env)
  (collection : gmap DocId Employee) (emails : list string) (m : Metrics)
  : gmap string DocId * Metrics :=
  runQueries env collection 0 (chunk CONFIG.QUERY_CHUNK_SIZE emails) (∅, m).

Definition withCache (o : Instance) (c : list (string * CacheEntry))
  : Instance :=
  {| cache := c; metrics := metrics o; circuitState := circuitState o;
     circuitOpenTime := circuitOpenTime o;
     currentBatchSize := currentBatchSize o |}.

Definition withBatchSize (o : Instance) (n : Z) : Instance :=
  {| cache := cache o; metrics := metrics o;
     circuitState := circuitState o;
     circuitOpenTime := circuitOpenTime o; currentBatchSize := n |}.

Definition loadExistingEmployees (env : Env) (orgId : string)
  (collection : gmap DocId Employee) (emails : list string) (o : Instance)
  : gmap string DocId * Instance :=
  let cacheKey := "org:" ++ orgId in
  let '(cached, c1) := getFromCache (now env) cacheKey (cache o) in
  match cached with
  | Some cachedMap =>
      let filtered :=
        fold_left
          (fun (acc : gmap string DocId) e =>
             match cachedMap !! e with
             | Some ref => <[e := ref]> acc
             | None => acc
             end) emails ∅ in
      (filtered, withMetrics (withCache o c1) (bumpCacheHits (metrics o)))
  | None =>
      let '(employeeMap, m) :=
        bulkQueryEmployees env collection emails
          (bumpCacheMisses (metrics o)) in
      (employeeMap,
       withMetrics (withCache o (addToCache (now env) cacheKey employeeMap c1)) m)
  end.

(** [commitBatch]: the operations of one write batch, applied together. *)
Definition applyItem (c : gmap DocId Employee) (item : PreparedItem)
  : gmap DocId Employee :=
  match item_ref item with
  | Some ref => setMerge c ref (item_data item)
  | None => addDoc c (item_data item)
  end.

Definition commitBatch (c : gmap DocId Employee) (batch : list PreparedItem)
  : gmap DocId Employee * N :=
  (fold_left applyItem batch c, N.of_nat (length batch)).

(** One wave of [Promise.allSettled]: a rejected commit changes nothing
    and counts one error. *)
Fixpoint runWave (env : Env) (idx : nat) (wave : list (list PreparedItem))
  (st : gmap DocId Employee * N * N) : gmap DocId Employee * N * N :=
  match wave with
  | [] => st
  | batch :: rest =>
      let '(c, nProcessed, nErrors) := st in
      if commitFails env idx
      then runWave env (S idx) rest (c, nProcessed, (nErrors + 1)%N)
      else
        let '(c', count) := commitBatch c batch in
        runWave env (S idx) rest (c', (nProcessed + count)%N, nErrors)
  end.

Fixpoint runWaves (env : Env) (idx : nat)
  (waves : list (list (list PreparedItem)))
  (st : gmap DocId Employee * N * N) (batchSize : Z)
  : gmap DocId Employee * N * N * Z :=
  match waves with
  | [] => (st, batchSize)
  | wave :: rest =>
      let st' := runWave env idx wave st in
      let '(_, nProcessed, nErrors) := st' in
      runWaves env (idx + length wave) rest st'
        (adaptBatchSize nErrors nProcessed batchSize)
  end.

Definition writeBatches (env : Env) (collection : gmap DocId Employee)
  (employeeDataList : list PreparedItem) (o : Instance)
  : BatchResult * gmap DocId Employee * Instance :=
  let batches := chunk (Z.to_nat (currentBatchSize o)) employeeDataList in
  let waves := chunk CONFIG.MAX_PARALLEL_BATCHES batches in
  let '(c', nProcessed, nErrors, batchSize') :=
    runWaves env 0 waves (collection, 0%N, 0%N) (currentBatchSize o) in
  ({| processed := nProcessed; skipped := 0; errors := nErrors |}, c',
   withMetrics (withBatchSize o batchSize')
     (addWrites (metrics o) (N.of_nat (length batches)))).

Inductive Outcome :=
| Resolved (r : BatchResult)
| Rejected (message : string).

Definition processUpserts (env : Env) (orgId : string)
  (messages : list UpsertMessage) (epochNumber : Z)
  (o : Instance) (db : Store) : Outcome * Instance * Store :=
  let '(ok, o0) := canProceed (now env) o in
  if negb ok then
    (Rejected "Circuit breaker is OPEN. System is recovering from errors.",
     o0, db)
  else
    let employeesCollection := employeesRef db orgId in
    let uniqueEmails := deduplicateEmails messages in
    let '(existingEmployees, o1) :=
      loadExistingEmployees env orgId employeesCollection uniqueEmails o0 in
    let employeeDataList :=
      prepareEmployeeData messages existingEmployees epochNumber (now env) in
    let '(result, c', o2) :=
      writeBatches env employeesCollection employeeDataList o1 in
    (Resolved result, updateMetrics (now env) result o2,
     withEmployees db orgId c').

End Optimizer.

(** ** finalize.ts *)

Module Finalize.
Import JsString Firestore.

(** [x || 0] on an optional number. *)
Definition orZero (x : option Z) : Z :=
  match x with
  | Some n => if (n =? 0)%Z then 0%Z else n
  | None => 0%Z
  end.

Definition beginRun (now : Z) (orgId : string) (orgName : option string)
  (db : Store) : Z * Store :=
  let doc := organizations db !! orgId in
  let current := match doc with
                 | Some d => orZero (currentEpoch d)
                 | None => 0%Z
                 end in
  let newEpoch := (current + 1)%Z in
  let named := match orgName with
               | Some n => truthy n
               | None => false
               end in
  (newEpoch,
   withOrganization db orgId
     {| currentEpoch := Some newEpoch;
        lastFinalizedEpoch := doc ≫= lastFinalizedEpoch;
        name := if named then orgName else doc ≫= name;
        org_updatedAt := now |}).

(** The predicate of the sweep query:
    [presentInLatest == true] and [lastSeenEpoch < epochNumber]. *)
Definition stale (epochNumber : Z) (d : Employee) : bool :=
  presentInLatest d && (lastSeenEpoch d <? epochNumber)%Z.

(** [orderBy('lastSeenEpoch')], ties broken by document name. *)
Definition byEpoch (a b : DocId * Employee) : Prop :=
  (lastSeenEpoch a.2 < lastSeenEpoch b.2)%Z ∨
  (lastSeenEpoch a.2 = lastSeenEpoch b.2 ∧ (a.1 <= b.1)%positive).

#[global] Instance byEpoch_dec : RelDecision byEpoch.
Proof. intros a b. unfold byEpoch. apply _. Defined.

(** [startAfter(cursor)]: the documents strictly after the cursor. *)
Definition afterCursor (cursor : option (DocId * Employee))
  (d : DocId * Employee) : bool :=
  match cursor with
  | None => true
  | Some cur => negb (bool_decide (byEpoch d cur))
  end.

(** The documents that satisfy the two [where] clauses. *)
Definition matching (c : gmap DocId Employee) (epochNumber : Z)
  : list (DocId * Employee) :=
  filter (fun d => stale epochNumber d.2 = true) (map_to_list c).

Definition sweepQuery (c : gmap DocId Employee) (epochNumber : Z)
  (cursor : option (DocId * Employee)) (pageSize : nat)
  : list (DocId * Employee) :=
  take pageSize
    (filter (fun d => afterCursor cursor d = true)
       (merge_sort byEpoch (matching c epochNumber))).

(** [batch.update(doc.ref, {presentInLatest: false, updatedAt})] *)
Definition markAbsent (now : Z) (d : Employee) : Employee :=
  {| email := email d; statusInOrg := statusInOrg d;
     presentInLatest := false; lastSeenEpoch := lastSeenEpoch d;
     updatedAt := now; source := source d; lastEventId := lastEventId d |}.

Definition commitPage (now : Z) (page : list (DocId * Employee))
  (c : gmap DocId Employee) : gmap DocId Employee :=
  fold_left (fun c d => alter (markAbsent now) d.1 c) page c.

(** How the loop ends: it is left normally, or a page commit throws. *)
Inductive SweepResult :=
| Swept (c : gmap DocId Employee) (totalUpdated : nat)
| CommitThrew (c : gmap DocId Employee).

(** The [while (true)] loop; [fuel] bounds the number of pages read and
    [None] means it ran out. [commitFails k] tells whether the store rejects
    the batch of page [k]; a rejected batch changes nothing. *)
Fixpoint sweep (commitFails : nat -> bool) (fuel pageSize : nat)
  (now epochNumber : Z) (lastDocSnapshot : option (DocId * Employee))
  (c : gmap DocId Employee) (totalUpdated pageIndex : nat)
  : option SweepResult :=
  match fuel with
  | O => None
  | S fuel' =>
      let snapshot := sweepQuery c epochNumber lastDocSnapshot pageSize in
      match snapshot with
      | [] => Some (Swept c totalUpdated)
      | _ :: _ =>
          if commitFails pageIndex then Some (CommitThrew c)
          else
            let c' := commitPage now snapshot c in
            let totalUpdated' := (totalUpdated + length snapshot)%nat in
            if (length snapshot <? pageSize)%nat
            then Some (Swept c' totalUpdated')
            else sweep commitFails fuel' pageSize now epochNumber
                   (last snapshot) c' totalUpdated' (S pageIndex)
      end
  end.

(** [finalizeRun] resolves, or rejects: because a page commit failed, or
    because [update] found no organization document. The employees swept
    before that stay swept. *)
Inductive Result :=
| Returned (db : Store)
| Threw (db : Store).

Definition finalizeRunWith (pageSize : nat) (commitFails : nat -> bool)
  (fuel : nat) (now : Z) (orgId : string) (epochNumber : Z) (db : Store)
  : option Result :=
  match sweep commitFails fuel pageSize now epochNumber None
          (employeesRef db orgId) 0 0 with
  | None => None
  | Some (CommitThrew c') => Some (Threw (withEmployees db orgId c'))
  | Some (Swept c' _) =>
      let db1 := withEmployees db orgId c' in
      match organizations db1 !! orgId with
      | None => Some (Threw db1)
      | Some d =>
          Some (Returned
                  (withOrganization db1 orgId
                     {| currentEpoch := Some epochNumber;
                        lastFinalizedEpoch := Some epochNumber;
                        name := name d;
                        org_updatedAt := now |}))
      end
  end.

Definition pageSize : nat := 1000.

Definition finalizeRun
  : (nat -> bool) -> nat -> Z -> string -> Z -> Store -> option Result :=
  finalizeRunWith pageSize.

End Finalize.

(** ** handlers/ingestDeltas.ts *)

Module IngestDeltas.
Import JsString Firestore.

Record KafkaDeltaMessage := {
  msg_email : option string;
  msg_deltaType : string;
  msg_eventId : option EventId;
}.

Record KafkaDeltaPayload := {
  orgId : option string;
  messages : option (list KafkaDeltaMessage);
}.

Inductive Response :=
| Json200 (processed skipped : N)
| Json400 (error : string).

(** The [switch] on [message.deltaType]; [None] is the default branch. *)
Definition statusOfDelta (deltaType : string) : option string :=
  if String.eqb deltaType "left" then Some "left"
  else if String.eqb deltaType "inactive" then Some "inactive"
  else if String.eqb deltaType "reactivated" then Some "active"
  else None.

Record UpdateData := {
  upd_statusInOrg : string;
  upd_updatedAt : Z;
  upd_source : string;
  upd_presentInLatest : bool;
  upd_lastEventId : option string;
}.

(** [docRef.update(updateData)]: the listed fields, and only them. *)
Definition update (u : UpdateData) (d : Employee) : Employee :=
  {| email := email d;
     statusInOrg := upd_statusInOrg u;
     presentInLatest := upd_presentInLatest u;
     lastSeenEpoch := lastSeenEpoch d;
     updatedAt := upd_updatedAt u;
     source := upd_source u;
     lastEventId := match upd_lastEventId u with
                    | Some e => Some e
                    | None => lastEventId d
                    end |}.

(** The body of the loop over [messages]. *)
Definition applyDelta (now : Z) (st : gmap DocId Employee * N * N)
  (message : KafkaDeltaMessage) : gmap DocId Employee * N * N :=
  let '(c, processed, skipped) := st in
  match msg_email message with
  | None => (c, processed, (skipped + 1)%N)
  | Some rawEmail =>
      if negb (truthy rawEmail) || negb (Status.isValidEmail (Some rawEmail))
      then (c, processed, (skipped + 1)%N)
      else
        let e := trim (toLowerCase rawEmail) in
        match whereEmailEq c e with
        | None => (c, processed, (skipped + 1)%N)
        | Some (ref, _) =>
            match statusOfDelta (msg_deltaType message) with
            | None => (c, processed, (skipped + 1)%N)
            | Some st' =>
                let updateData :=
                  {| upd_statusInOrg := st';
                     upd_updatedAt := now;
                     upd_source := "kafka:delta";
                     upd_presentInLatest :=
                       String.eqb (msg_deltaType message) "reactivated";
                     upd_lastEventId := lastEventIdOf (msg_eventId message) |} in
                (alter (update updateData) ref c, (processed + 1)%N, skipped)
            end
        end
  end.

Definition handleIngestDeltas (now : Z) (payload : KafkaDeltaPayload)
  (db : Store) : Response * Store :=
  match orgId payload with
  | None => (Json400 "orgId is required", db)
  | Some org =>
      if negb (truthy org) then (Json400 "orgId is required", db)
      else
        match messages payload with
        | None => (Json400 "messages array is required", db)
        | Some msgs =>
            let '(c, processed, skipped) :=
              fold_left (applyDelta now) msgs (employeesRef db org, 0%N, 0%N) in
            (Json200 processed skipped, withEmployees db org c)
        end
  end.

End IngestDeltas.

(** ** handlers/email.ts *)

Module Email.
Import JsString Firestore.

(** The request after its body (JSON, or an uploaded file decoded by the
    CSV/XLSX/JSON parsers) has been read: [rows] are the parsed records. *)
Record EmailPayload := {
  orgId : option string;
  orgName : option string;
  kind : option string;
  rows : list Status.RawEmployee;
}.

Inductive Response :=
| Json200 (processed : nat) (kind : string)
| Json400 (error : string)
| Json500.

(** The state of a row loop: the collection, the two counters the
    handler logs, and whether a call has thrown (the loop is then left
    with the writes made so far in place). *)
Record Loop := {
  coll : gmap DocId Employee;
  processed : nat;
  skipped : nat;
  threw : bool;
}.

Definition skip (st : Loop) : Loop :=
  {| coll := coll st; processed := processed st;
     skipped := S (skipped st); threw := false |}.

Definition wrote (st : Loop) (c : gmap DocId Employee) : Loop :=
  {| coll := c; processed := S (processed st);
     skipped := skipped st; threw := false |}.

Definition raise (st : Loop) : Loop :=
  {| coll := coll st; processed := processed st;
     skipped := skipped st; threw := true |}.

(** The body of the loop of [handleUpserts]. *)
Definition upsertRow (now epochNumber : Z) (st : Loop)
  (row : Status.RawEmployee) : Loop :=
  if threw st then st
  else
    match Status.normalizeRow row with
    | None => raise st
    | Some None => skip st
    | Some (Some normalized) =>
        match Status.statusInOrg normalized with
        | Status.VString st' =>
            let employeeData :=
              {| email := Status.email normalized;
                 statusInOrg := st';
                 presentInLatest := true;
                 lastSeenEpoch := epochNumber;
                 updatedAt := now;
                 source := "email:upsert";
                 lastEventId := None |} in
            match whereEmailEq (coll st) (Status.email normalized) with
            | Some (ref, _) => wrote st (setMerge (coll st) ref employeeData)
            | None => wrote st (addDoc (coll st) employeeData)
            end
        | _ => raise st  (* the store refuses what is not plain data *)
        end
    end.

(** A handler's [Promise<void>]: the store it leaves, its logged
    counters, and whether it rejected. *)
Record Handled := {
  db_after : Store;
  counted : Loop;
  rejected : bool;
}.

(** [None]: the sweep of [finalizeRun] ran out of fuel. *)
Definition handleUpserts (commitFails : nat -> bool) (fuel : nat) (now : Z)
  (org : string) (rs : list Status.RawEmployee) (orgName : option string)
  (db : Store) : option Handled :=
  let '(epochNumber, db1) := Finalize.beginRun now org orgName db in
  let st := fold_left (upsertRow now epochNumber) rs
              {| coll := employeesRef db1 org; processed := 0;
                 skipped := 0; threw := false |} in
  let db2 := withEmployees db1 org (coll st) in
  if threw st
  then Some {| db_after := db2; counted := st; rejected := true |}
  else
    match Finalize.finalizeRun commitFails fuel now org epochNumber db2 with
    | None => None
    | Some (Finalize.Returned db3) =>
        Some {| db_after := db3; counted := st; rejected := false |}
    | Some (Finalize.Threw db3) =>
        Some {| db_after := db3; counted := st; rejected := true |}
    end.

(** The [switch] on [deltaType.toLowerCase()]. *)
Definition transitionOfDelta (deltaType : string) : option (string * bool) :=
  let t := toLowerCase deltaType in
  if String.eqb t "left" || String.eqb t "terminated"
  then Some ("left", false)
  else if String.eqb t "inactive" || String.eqb t "on_leave"
  then Some ("inactive", false)
  else if String.eqb t "reactivated" || String.eqb t "active"
  then Some ("active", true)
  else None.

Definition applyTransition (now : Z) (t : string * bool) (d : Employee)
  : Employee :=
  {| email := email d; statusInOrg := t.1; presentInLatest := t.2;
     lastSeenEpoch := lastSeenEpoch d; updatedAt := now;
     source := "email:delta"; lastEventId := lastEventId d |}.

Definition deltaRow (now : Z) (st : Loop) (row : Status.RawEmployee) : Loop :=
  if threw st then st
  else
    match Status.raw_deltaType row with
    | None => skip st
    | Some deltaType =>
        if negb (truthy deltaType) then skip st
        else
          match Status.normalizeRow row with
          | None => raise st
          | Some None => skip st
          | Some (Some normalized) =>
              match whereEmailEq (coll st) (Status.email normalized) with
              | None => skip st
              | Some (ref, _) =>
                  match transitionOfDelta deltaType with
                  | None => skip st
                  | Some t =>
                      wrote st (alter (applyTransition now t) ref (coll st))
                  end
              end
          end
    end.

Definition handleDeltas (now : Z) (org : string)
  (rs : list Status.RawEmployee) (db : Store) : Handled :=
  let st := fold_left (deltaRow now) rs
              {| coll := employeesRef db org; processed := 0;
                 skipped := 0; threw := false |} in
  {| db_after := withEmployees db org (coll st); counted := st;
     rejected := threw st |}.

(** [a || b] on optional strings. *)
Definition orElse (a b : option string) : option string :=
  match a with
  | Some s => if truthy s then a else b
  | None => b
  end.

(** [handleEmail], from the validation of the required fields on. The
    response reports [rows.length]; the handlers' own counters are only
    logged. *)
(** [payload.kind || 'upserts'] *)
Definition requestedKind (payload : EmailPayload) : string :=
  match orElse (kind payload) None with
  | Some k => k
  | None => "upserts"
  end.

Definition handleEmail (commitFails : nat -> bool) (fuel : nat) (now : Z)
  (payload : EmailPayload) (db : Store) : option (Response * Store) :=
  match orElse (orgId payload) None with
  | None => Some (Json400 "orgId is required", db)
  | Some org =>
      match rows payload with
      | [] => Some (Json400 "No data rows found", db)
      | firstRow :: _ =>
          let k := requestedKind payload in
          let oName := orElse (orgName payload) (Status.raw_orgName firstRow) in
          let handled :=
            if String.eqb k "upserts"
            then handleUpserts commitFails fuel now org (rows payload) oName db
            else Some (handleDeltas now org (rows payload) db) in
          match handled with
          | None => None
          | Some h =>
              if rejected h then Some (Json500, db_after h)
              else Some (Json200 (length (rows payload)) k, db_after h)
          end
      end
  end.

End Email.

(** ** kafka-bridge/src/http.ts *)

Module Http.

(** What one [request] call ends in: a response, or a thrown network or
    timeout error. *)
Inductive Reply :=
| Response (status : Z) (text : string)
| NetworkError (message : string).

Record HttpResponse := {
  status : Z;
  text : string;
}.

Inductive Result :=
| Return (r : HttpResponse)
| Throw (message : string).

Inductive Event :=
| Request (attempt : nat)
| Backoff (attempt : nat).

Definition isRetryable (status : Z) : bool :=
  (500 <=? status)%Z || (status =? 429)%Z.

(** The [for] loop of [postJson]: [remaining] iterations are left, the
    next one is number [attempt]; [server k] answers request number [k].
    The result comes with the requests sent and the back-offs slept. *)
Fixpoint retryLoop (maxRetries : Z) (server : nat -> Reply)
  (remaining attempt : nat) (lastError : option string)
  : Result * list Event :=
  match remaining with
  | O =>
      (Throw (match lastError with
              | Some e => e
              | None => "Unexpected retry loop exit"
              end), [])
  | S remaining' =>
      let continue (e : option string) :=
        let '(r, tr) :=
          retryLoop maxRetries server remaining' (S attempt) e in
        (r, Request attempt :: Backoff attempt :: tr) in
      match server attempt with
      | Response st txt =>
          if (st =? 409)%Z
          then (Return {| status := 200; text := txt |}, [Request attempt])
          else if (200 <=? st)%Z && (st <? 300)%Z
          then (Return {| status := st; text := txt |}, [Request attempt])
          else if negb (isRetryable st)
          then (Return {| status := st; text := txt |}, [Request attempt])
          else if (Z.of_nat attempt <? maxRetries)%Z
          then continue lastError
          else (Return {| status := st; text := txt |}, [Request attempt])
      | NetworkError e =>
          if (Z.of_nat attempt <? maxRetries)%Z
          then continue (Some e)
          else (Throw e, [Request attempt])
      end
  end.

Definition postJson (maxRetries : Z) (server : nat -> Reply)
  : Result * list Event :=
  retryLoop maxRetries server (Z.to_nat (maxRetries + 1)) 0 None.

End Http.

(** ** kafka-bridge/src/batching.ts *)

Module Batching.

Record UpsertRow := {
  email : string;
  statusInOrg : string;
}.

Record BatchKey := {
  orgId : string;
  eventId : string;
}.

Record Batch := {
  key : BatchKey;
  rows : list UpsertRow;
  createdAt : Z;
}.

Record UpsertBatchPayload := {
  payload_orgId : string;
  messages : list UpsertRow;
}.

Record Flushed := {
  flushed_key : BatchKey;
  payload : UpsertBatchPayload;
}.

(** The [batches] map of a [Batcher]: its entries in insertion order. *)
Definition getBatchId (o e : string) : string := o ++ "::" ++ e.

Definition payloadOf (b : Batch) : UpsertBatchPayload :=
  {| payload_orgId := orgId (key b); messages := rows b |}.

Definition flushedOf (b : Batch) : Flushed :=
  {| flushed_key := key b; payload := payloadOf b |}.

(** [add]: the batch object is created on first use and the row is pushed
    onto the object the map holds. *)
Definition add (batchMaxRows now : Z) (o e : string) (row : UpsertRow)
  (batches : list (string * Batch)) : bool * list (string * Batch) :=
  let batchId := getBatchId o e in
  let batch :=
    match Optimizer.mapGet batches batchId with
    | Some b => b
    | None => {| key := {| orgId := o; eventId := e |}; rows := [];
                 createdAt := now |}
    end in
  let batch' := {| key := key batch; rows := (rows batch ++ [row])%list;
                   createdAt := createdAt batch |} in
  ((batchMaxRows <=? Z.of_nat (length (rows batch')))%Z,
   Optimizer.mapSet batches batchId batch').

Definition isDue (batchMaxRows batchMaxMs now : Z) (b : Batch) : bool :=
  (batchMaxRows <=? Z.of_nat (length (rows b)))%Z
  || (batchMaxMs <=? now - createdAt b)%Z.

(** One step of the loop over [this.batches.entries()], which deletes
    the entry it stands on. *)
Definition dueStep (batchMaxRows batchMaxMs now : Z)
  (st : list Flushed * list (string * Batch)) (entry : string * Batch)
  : list Flushed * list (string * Batch) :=
  if isDue batchMaxRows batchMaxMs now entry.2
  then ((st.1 ++ [flushedOf entry.2])%list, Optimizer.mapDelete st.2 entry.1)
  else st.

Definition getDueBatches (batchMaxRows batchMaxMs now : Z)
  (batches : list (string * Batch)) : list Flushed * list (string * Batch) :=
  fold_left (dueStep batchMaxRows batchMaxMs now) batches ([], batches).

(** [flush]: [None] is the source's [null]. *)
Definition flush (o e : string) (batches : list (string * Batch))
  : option UpsertBatchPayload * list (string * Batch) :=
  let batchId := getBatchId o e in
  match Optimizer.mapGet batches batchId with
  | None => (None, batches)
  | Some batch => (Some (payloadOf batch), Optimizer.mapDelete batches batchId)
  end.

Definition flushAllStep (st : list Flushed * list (string * Batch))
  (entry : string * Batch) : list Flushed * list (string * Batch) :=
  ((st.1 ++ [flushedOf entry.2])%list, Optimizer.mapDelete st.2 entry.1).

Definition flushAll (batches : list (string * Batch))
  : list Flushed * list (string * Batch) :=
  fold_left flushAllStep batches ([], batches).

Definition size (batches : list (string * Batch)) : nat := length batches.

Definition totalRows (batches : list (string * Batch)) : nat :=
  fold_left (fun total entry => (total + length (rows entry.2))%nat) batches 0%nat.

End Batching.

(** ** kafka-bridge/src/consumerUpserts.ts and consumerDeltas.ts *)

Module UpsertsConsumer.
Import JsString.

(** A consumed value after [JSON.parse]: an object whose fields may be
    missing; [rows] is present when [Array.isArray] holds, and then holds
    objects. A missing value or malformed JSON is [None] at the call. *)
Record RawRow := {
  raw_email : option string;
  raw_statusInOrg : option string;
}.

Record UpsertMessage := {
  orgId : option string;
  eventId : option string;
  rows : option (list RawRow);
}.

(** A call of [postJson('/ingest/kafka/upserts', {orgId, eventId}, payload)]. *)
Record Post := {
  query_orgId : string;
  query_eventId : string;
  body : Batching.UpsertBatchPayload;
}.

Definition orEmpty (s : option string) : string :=
  match s with
  | Some x => x
  | None => ""
  end.

Definition normalizeRowsOf (rs : list RawRow) : list Batching.UpsertRow :=
  map (fun row =>
         {| Batching.email := orEmpty (option_map (fun e => trim (toLowerCase e))
                                         (raw_email row));
            Batching.statusInOrg := orEmpty (raw_statusInOrg row) |}) rs.

(** [flushBatch]: the batch leaves the batcher before the request is made;
    whatever the request ends in, it is only logged. *)
Definition flushBatch (o e : string) (batches : list (string * Batching.Batch))
  : list Post * list (string * Batching.Batch) :=
  match Batching.flush o e batches with
  | (None, batches') => ([], batches')
  | (Some p, batches') =>
      match Batching.messages p with
      | [] => ([], batches')
      | _ :: _ => ([ {| query_orgId := o; query_eventId := e; body := p |} ],
                   batches')
      end
  end.

Definition addRow (batchMaxRows now : Z) (o e : string)
  (st : list Post * list (string * Batching.Batch)) (row : Batching.UpsertRow)
  : list Post * list (string * Batching.Batch) :=
  let '(shouldFlush, batches1) := Batching.add batchMaxRows now o e row st.2 in
  if shouldFlush
  then let '(posts, batches2) := flushBatch o e batches1 in
       ((st.1 ++ posts)%list, batches2)
  else (st.1, batches1).

Definition truthyField (s : option string) : option string :=
  match s with
  | Some x => if truthy x then Some x else None
  | None => None
  end.

(** The loop over [normalizedRows]; [clock i] is what [Date.now()] gives
    in the [add] of row [i]. *)
Fixpoint addRows (batchMaxRows : Z) (clock : nat -> Z) (o e : string)
  (i : nat) (rs : list Batching.UpsertRow)
  (st : list Post * list (string * Batching.Batch))
  : list Post * list (string * Batching.Batch) :=
  match rs with
  | [] => st
  | row :: rest =>
      addRows batchMaxRows clock o e (S i) rest
        (addRow batchMaxRows (clock i) o e st row)
  end.

(** [handleMessage]: the requests made, in order, and the batcher left. *)
Definition handleMessage (batchMaxRows : Z) (clock : nat -> Z)
  (value : option UpsertMessage) (batches : list (string * Batching.Batch))
  : list Post * list (string * Batching.Batch) :=
  match value with
  | None => ([], batches)
  | Some m =>
      match truthyField (orgId m), truthyField (eventId m), rows m with
      | Some o, Some e, Some rs =>
          addRows batchMaxRows clock o e 0 (normalizeRowsOf rs) ([], batches)
      | _, _, _ => ([], batches)
      end
  end.

Definition postOf (f : Batching.Flushed) : Post :=
  {| query_orgId := Batching.orgId (Batching.flushed_key f);
     query_eventId := Batching.eventId (Batching.flushed_key f);
     body := Batching.payload f |}.

(** One tick of the flush timer. *)
Definition flushTick (batchMaxRows batchMaxMs now : Z)
  (batches : list (string * Batching.Batch))
  : list Post * list (string * Batching.Batch) :=
  let '(due, batches') :=
    Batching.getDueBatches batchMaxRows batchMaxMs now batches in
  (map postOf due, batches').

(** [stop]: every pending batch is posted. *)
Definition stop (batches : list (string * Batching.Batch))
  : list Post * list (string * Batching.Batch) :=
  let '(all, batches') := Batching.flushAll batches in
  (map postOf all, batches').

End UpsertsConsumer.

Module DeltasConsumer.
Import JsString.

Record DeltaMessage := {
  orgId : option string;
  email : option string;
  deltaType : option string;
  eventId : option string;
}.

Record DeltaPayload := {
  payload_orgId : string;
  payload_email : string;
  payload_deltaType : string;
}.

(** A call of [postJson('/ingest/kafka/deltas', {orgId, eventId}, payload)]. *)
Record Post := {
  query_orgId : string;
  query_eventId : string;
  body : DeltaPayload;
}.

Definition validTypes : list string := ["left"; "inactive"; "reactivated"].

(** [handleMessage]: the request it makes, if any. *)
Definition handleMessage (value : option DeltaMessage) : option Post :=
  match value with
  | None => None
  | Some m =>
      match UpsertsConsumer.truthyField (orgId m),
            UpsertsConsumer.truthyField (email m),
            UpsertsConsumer.truthyField (deltaType m),
            UpsertsConsumer.truthyField (eventId m) with
      | Some o, Some em, Some t, Some ev =>
          if existsb (String.eqb t) validTypes
          then Some {| query_orgId := o; query_eventId := ev;
                       body := {| payload_orgId := o;
                                  payload_email := trim (toLowerCase em);
                                  payload_deltaType := t |} |}
          else None
      | _, _, _, _ => None
      end
  end.

(** The JSON body of such a request as [handleIngestDeltas] reads it
    ([req.body as KafkaDeltaPayload]): it has an [orgId] and no [messages]
    field. *)
Definition asRequestBody (p : DeltaPayload) : IngestDeltas.KafkaDeltaPayload :=
  {| IngestDeltas.orgId := Some (payload_orgId p);
     IngestDeltas.messages := None |}.

(** The normalizer behind [postJson]: the status of its response to the
    request, and the store after it. *)
Definition normalizerAnswer (now : Z) (p : Post) (db : Firestore.Store)
  : Z * Firestore.Store :=
  match IngestDeltas.handleIngestDeltas now (asRequestBody (body p)) db with
  | (IngestDeltas.Json200 _ _, db') => (200%Z, db')
  | (IngestDeltas.Json400 _, db') => (400%Z, db')
  end.

End DeltasConsumer.

(** ** handlers/ingestUpserts.ts *)

Module IngestUpserts.
Import JsString Firestore.

(** The request body. [closeAfter] is read for its truthiness only, and
    defaults to [false]. *)
Record KafkaUpsertPayload := {
  orgId : option string;
  messages : option (list Status.RawEmployee);
  closeAfter : bool;
}.

(** The response, without its [durationMs]. *)
Inductive Response :=
| Json200 (processed skipped errors : N) (epoch : Z) (finalized : bool)
| Json400 (error : string)
| Json500.

(** The loop that normalizes the messages. It ends with the messages for
    the optimizer and the number skipped, or [normalizeRow] throws. A
    status that normalizes to a property inherited from [Object.prototype]
    would reach the store client as a function or an object; what the
    client does with it is not modelled, and the loop reports it as
    [Inherited]. *)
Inductive Normalized :=
| Messages (normalizedMessages : list Optimizer.UpsertMessage) (skipped : N)
| Throws
| Inherited.

Fixpoint normalizeMessages (messages : list Status.RawEmployee)
  (normalizedMessages : list Optimizer.UpsertMessage) (skipped : N)
  : Normalized :=
  match messages with
  | [] => Messages normalizedMessages skipped
  | message :: rest =>
      match Status.normalizeRow message with
      | None => Throws
      | Some None => normalizeMessages rest normalizedMessages (skipped + 1)%N
      | Some (Some normalized) =>
          match Status.statusInOrg normalized with
          | Status.VString st =>
              normalizeMessages rest
                (normalizedMessages ++
                   [ {| Optimizer.msg_email := Some (Status.email normalized);
                        Optimizer.msg_statusInOrg := Some st;
                        Optimizer.msg_eventId := Status.raw_eventId message |} ])%list
                skipped
          | _ => Inherited
          end
      end
  end.

(** How an invocation ends: with a response, the optimizer instance and
    the store it leaves; or the sweep of [finalizeRun] ran out of fuel; or a
    status was outside the model. *)
Inductive Run :=
| Answered (r : Response) (o : Optimizer.Instance) (db : Store)
| OutOfFuel
| Unmodelled.

(** [handleIngestUpserts]. [env] is the environment of [processUpserts];
    [sweepFails] tells which page commits of [finalizeRun] the store
    rejects. Whatever is thrown after the validation is answered with 500;
    the writes made before stay. *)
Definition handleIngestUpserts (env : Optimizer.Env) (sweepFails : nat -> bool)
  (fuel : nat) (payload : KafkaUpsertPayload) (o : Optimizer.Instance)
  (db : Store) : Run :=
  match orgId payload with
  | None => Answered (Json400 "orgId is required") o db
  | Some org =>
      if negb (truthy org) then Answered (Json400 "orgId is required") o db
      else
        match messages payload with
        | None => Answered (Json400 "messages array is required") o db
        | Some msgs =>
            let '(epochNumber, db1) :=
              Finalize.beginRun (Optimizer.now env) org None db in
            match normalizeMessages msgs [] 0%N with
            | Throws => Answered Json500 o db1
            | Inherited => Unmodelled
            | Messages normalizedMessages skipped =>
                match Optimizer.processUpserts env org normalizedMessages
                        epochNumber o db1 with
                | (Optimizer.Rejected _, o', db2) => Answered Json500 o' db2
                | (Optimizer.Resolved result, o', db2) =>
                    let response finalized :=
                      Json200 (Optimizer.processed result)
                        (skipped + Optimizer.skipped result)%N
                        (Optimizer.errors result) epochNumber finalized in
                    if closeAfter payload then
                      match Finalize.finalizeRun sweepFails fuel
                              (Optimizer.now env) org epochNumber db2 with
                      | None => OutOfFuel
                      | Some (Finalize.Threw db3) => Answered Json500 o' db3
                      | Some (Finalize.Returned db3) =>
                          Answered (response true) o' db3
                      end
                    else Answered (response false) o' db2
                end
            end
        end
  end.

(** The JSON body of a request of the upserts consumer, as
    [handleIngestUpserts] reads it: rows with an [email] and a
    [statusInOrg], both strings, and nothing else. *)
Definition asRequestBody (p : Batching.UpsertBatchPayload)
  : KafkaUpsertPayload :=
  {| orgId := Some (Batching.payload_orgId p);
     messages :=
       Some (map (fun row =>
                    {| Status.raw_email := Some (Batching.email row);
                       Status.raw_statusInOrg :=
                         Status.VString (Batching.statusInOrg row);
                       Status.raw_eventId := None;
                       Status.raw_deltaType := None;
                       Status.raw_orgName := None |})
               (Batching.messages p));
     closeAfter := false |}.

End IngestUpserts.

(** ** Notions of the specification, and sample inputs for the examples *)

Module Notions.
Import JsString Firestore Optimizer.

Definition sampleEntry : CacheEntry :=
  {| data := {[ "alice@x.com" := 7%positive ]};
     timestamp := 1000; sizeBytes := 200 |}.


(** The batch sizes after each of a sequence of [adaptBatchSize] calls, each
call given as its [(errors, processed)] arguments. *)
Fixpoint batchSizes (calls : list (N * N)) (current : Z) : list Z :=
  match calls with
  | [] => []
  | (e, p) :: rest =>
      let next := adaptBatchSize e p current in
      next :: batchSizes rest next
  end.

(** Both products of [adaptBatchSize] stay on the right side of the clamp,
checked for one batch size. *)
Definition productsWithinClamp (n : nat) : bool :=
  let c := Z.of_nat n in
  (Double.floor (Double.mul (Double.ofZ c) (Double.literal 7 10)) <=? 500)%Z
  && (100 <=? Double.floor (Double.mul (Double.ofZ c) (Double.literal 12 10)))%Z.


Definition emptyStore : Store :=
  {| organizations := ∅; employees := fun _ => ∅ |}.

Definition upsert (e st : string) : UpsertMessage :=
  {| msg_email := Some e; msg_statusInOrg := Some st; msg_eventId := None |}.

(** A store whose commits all fail, and a healthy one, at a given time. *)
Definition failingEnv (t : Z) : Env :=
  {| now := t; queryFails := fun _ => false; commitFails := fun _ => true |}.

Definition healthyEnv (t : Z) : Env :=
  {| now := t; queryFails := fun _ => false; commitFails := fun _ => false |}.

(** The instance after one invocation at time 1000 whose only batch
failed: one error, nothing processed. *)
Definition trippedInstance : Instance :=
  (processUpserts (failingEnv 1000) "acme" [upsert "bob@x.com" "active"] 1
     constructor emptyStore).1.2.

Definition circuitOpenMessage : string :=
  "Circuit breaker is OPEN. System is recovering from errors.".


(** The requests and back-offs of [k] failed attempts in a row. *)
Fixpoint retriedAttempts (from k : nat) : list Http.Event :=
  match k with
  | O => []
  | S k' => Http.Request from :: Http.Backoff from :: retriedAttempts (S from) k'
  end.

(** A reply that the retry policy treats as transient: a network or
timeout error, HTTP 429, or HTTP 5xx. *)
Definition transient (r : Http.Reply) : Prop :=
  match r with
  | Http.NetworkError _ => True
  | Http.Response st _ => (500 <= st <= 599)%Z ∨ st = 429%Z
  end.

Definition requestsOf (tr : list Http.Event) : list nat :=
  omap (fun ev => match ev with
                  | Http.Request k => Some k
                  | Http.Backoff _ => None
                  end) tr.

(** A server that answers 503, then times out, then answers [st]. *)
Definition flakyServer (st : Z) (k : nat) : Http.Reply :=
  match k with
  | 0%nat => Http.Response 503 "unavailable"
  | 1%nat => Http.NetworkError "timeout"
  | _ => Http.Response st "body"
  end.


(** The transition table of the delta processor, as the spec gives it:
delta type, resulting [statusInOrg], resulting [presentInLatest]. *)
Definition transitionTable : list (string * string * bool) :=
  [ ("left", "left", false);
    ("inactive", "inactive", false);
    ("reactivated", "active", true) ].

Definition charlie : Employee :=
  {| email := "charlie@x.com"; statusInOrg := "left"; presentInLatest := true;
     lastSeenEpoch := 1; updatedAt := 10; source := "kafka:upsert";
     lastEventId := None |}.

Definition alice : Employee :=
  {| email := "alice@x.com"; statusInOrg := "active"; presentInLatest := true;
     lastSeenEpoch := 1; updatedAt := 10; source := "kafka:upsert";
     lastEventId := Some "ev-1" |}.

Definition roster : gmap DocId Employee :=
  {[ 3%positive := alice; 5%positive := charlie ]}.

Definition reactivateCharlie : IngestDeltas.KafkaDeltaMessage :=
  {| IngestDeltas.msg_email := Some " Charlie@X.com ";
     IngestDeltas.msg_deltaType := "reactivated";
     IngestDeltas.msg_eventId := Some (EventIdNumber 42) |}.

Definition leftDave : IngestDeltas.KafkaDeltaMessage :=
  {| IngestDeltas.msg_email := Some "dave@x.com";
     IngestDeltas.msg_deltaType := "left";
     IngestDeltas.msg_eventId := None |}.


(** A row that [normalizeRow] rejects (missing or malformed email). *)
Definition isRejectedRow (row : Status.RawEmployee) : bool :=
  match Status.normalizeRow row with
  | Some None => true
  | _ => false
  end.

Definition rawRow (e st : string) : Status.RawEmployee :=
  {| Status.raw_email := Some e; Status.raw_statusInOrg := Status.VString st;
     Status.raw_eventId := None; Status.raw_deltaType := None;
     Status.raw_orgName := None |}.

(** A JSON body with two rows, the first with a malformed email. *)
Definition mixedPayload : Email.EmailPayload :=
  {| Email.orgId := Some "acme"; Email.orgName := None; Email.kind := None;
     Email.rows := [rawRow "not-an-email" "active";
                    rawRow "Alice@X.com" "employed"] |}.


(** The occurrence of email [e] that counts: among the messages that
normalize to [e], the one latest in the list. *)
Fixpoint lastOccurrence (e : string) (ms : list UpsertMessage)
  : option UpsertMessage :=
  match ms with
  | [] => None
  | m :: rest =>
      match lastOccurrence e rest with
      | Some m' => Some m'
      | None => if bool_decide (normalizedEmail m = Some e) then Some m else None
      end
  end.

(** S4 of the spec: bob twice in one batch, with different case and
padding. *)
Definition bobTwice : list UpsertMessage :=
  [ upsert "bob@x.com" "active"; upsert "alice@x.com" "active";
    upsert " Bob@X.com" "inactive" ].


(** What the sweep is to do to one employee document. *)
Definition swept (now epochNumber : Z) (d : Employee) : Employee :=
  if Finalize.stale epochNumber d then Finalize.markAbsent now d else d.

Definition acmeOrg : Organization :=
  {| currentEpoch := Some 2%Z; lastFinalizedEpoch := Some 1%Z;
     name := Some "Acme"; org_updatedAt := 10 |}.

Definition seenAt (epoch : Z) : Employee :=
  {| email := "e@x.com"; statusInOrg := "active"; presentInLatest := true;
     lastSeenEpoch := epoch; updatedAt := 10; source := "kafka:upsert";
     lastEventId := None |}.

(** [n] employees last seen in epoch 1, under ids 1..n. *)
Definition staleRoster (n : nat) : gmap DocId Employee :=
  list_to_map ((fun k => (Pos.of_nat k, seenAt 1)) <$> seq 1 n).

Definition acmeStore (n : nat) : Store :=
  {| organizations := {[ "acme" := acmeOrg ]};
     employees := fun o => if decide (o = "acme") then staleRoster n else ∅ |}.


(** Two invocations of one instance for the same organization, one second
apart: the first, on an empty store, brings alice as active; the second
says she is inactive. *)
Definition aliceActive : Outcome * Instance * Store :=
  processUpserts (healthyEnv 1000) "acme" [upsert "alice@x.com" "active"] 1
    constructor emptyStore.

Definition aliceInactiveWithinTtl : Outcome * Instance * Store :=
  processUpserts (healthyEnv 2000) "acme" [upsert "alice@x.com" "inactive"] 2
    aliceActive.1.2 aliceActive.2.

(** A store whose queries all fail while its commits succeed. *)
Definition blindEnv (t : Z) : Env :=
  {| now := t; queryFails := fun _ => true; commitFails := fun _ => false |}.


(** Three rows for a roster that has charlie and not dave: charlie twice,
under two spellings of his email, and dave once. *)
Definition charlieTwice : list UpsertMessage :=
  [ upsert " Charlie@X.com " "inactive";
    upsert "dave@x.com" "active";
    upsert "charlie@x.com" "left" ].

End Notions.

(** ** Invariants and measures used by the further properties *)

Module Invariants.
Import JsString Firestore.

(** The string has no colon. *)
Definition noColon (s : string) : Prop :=
  Forall (fun c => c ≠ ":"%char) (list_ascii_of_string s).

(** The rows a batcher holds under a batch id. *)
Definition rowsUnder (batches : list (string * Batching.Batch)) (id : string)
  : list Batching.UpsertRow :=
  match Optimizer.mapGet batches id with
  | Some b => Batching.rows b
  | None => []
  end.

(** The organization a batch id is held for: that of the call that created
    the batch, or [o] when the batcher has none under the id. *)
Definition ownerUnder (batches : list (string * Batching.Batch))
  (id o : string) : string :=
  match Optimizer.mapGet batches id with
  | Some b => Batching.orgId (Batching.key b)
  | None => o
  end.

(** Every batch the batcher holds has fewer than [batchMaxRows] rows. *)
Definition belowLimit (batchMaxRows : Z)
  (batches : list (string * Batching.Batch)) : Prop :=
  ∀ id b, (id, b) ∈ batches →
          (Z.of_nat (length (Batching.rows b)) < batchMaxRows)%Z.

(** The number of rows a list of requests carries. *)
Definition rowsPosted (posts : list UpsertsConsumer.Post) : nat :=
  sum_list ((fun p => length (Batching.messages (UpsertsConsumer.body p)))
              <$> posts).

(** [add] called for each of [rs] in turn, each at its own time. *)
Definition addAll (batchMaxRows : Z) (o e : string)
  (rs : list (Z * Batching.UpsertRow))
  (batches : list (string * Batching.Batch)) : list (string * Batching.Batch) :=
  fold_left (fun b r => (Batching.add batchMaxRows r.1 o e r.2 b).2) rs batches.

(** A handler that only updates documents in place: from [c] to [c'] no
    document is created or deleted, every document keeps its [email] and
    its [lastSeenEpoch], and a document that changed carries the handler's
    [source] tag and the time of the call. *)
Definition updatedInPlace (src : string) (now : Z)
  (c c' : gmap DocId Employee) : Prop :=
  dom c' = dom c
  ∧ ∀ id d, c !! id = Some d →
      ∃ d', c' !! id = Some d'
            ∧ email d' = email d
            ∧ lastSeenEpoch d' = lastSeenEpoch d
            ∧ (d' = d ∨ (source d' = src ∧ updatedAt d' = now)).

(** The emails of the rows that [normalizeRow] accepts, in row order. *)
Definition acceptedEmails (rs : list Status.RawEmployee) : list string :=
  omap (fun r => match Status.normalizeRow r with
                 | Some (Some n) => Some (Status.email n)
                 | _ => None
                 end) rs.

(** A row whose normalization does not throw and whose normalized status,
    if the row is accepted, is a string. *)
Definition plainRow (r : Status.RawEmployee) : Prop :=
  match Status.normalizeRow r with
  | None => False
  | Some None => True
  | Some (Some n) => ∃ st, Status.statusInOrg n = Status.VString st
  end.

(** The state of a collection while the rows of a snapshot of epoch [E]
    are written: a document is either from an earlier epoch, or was written
    in this run for one of the emails [seen] so far; and every email seen
    has a document written in this run. *)
Definition snapshotInv (E : Z) (c : gmap DocId Employee) (seen : list string)
  : Prop :=
  (∀ id d, c !! id = Some d →
     (lastSeenEpoch d < E)%Z
     ∨ (lastSeenEpoch d = E ∧ presentInLatest d = true
        ∧ source d = "email:upsert" ∧ email d ∈ seen))
  ∧ (∀ e, e ∈ seen →
       ∃ id d, c !! id = Some d ∧ email d = e ∧ lastSeenEpoch d = E).

(** The store a [finalizeRun] returned with, or [db] when it did not. *)
Definition returnedOr (r : option Finalize.Result) (db : Store) : Store :=
  match r with
  | Some (Finalize.Returned db') => db'
  | _ => db
  end.

(** What an upsert run of epoch [E] may do to a collection: no document
    is deleted, and a document that is new or changed was written by the run,
    for one of the [emails]. *)
Definition upsertedInto (E now : Z) (emails : list string)
  (c c' : gmap DocId Employee) : Prop :=
  dom c ⊆ dom c'
  ∧ ∀ id d', c' !! id = Some d' →
      c !! id = Some d'
      ∨ (lastSeenEpoch d' = E ∧ presentInLatest d' = true
         ∧ source d' = "kafka:upsert" ∧ updatedAt d' = now
         ∧ email d' ∈ emails).

(** A sweep that stopped part of the way: from [c] to [c'] a document is
    either as it was, or was stale and has been marked absent. *)
Definition partiallySwept (now E : Z) (c c' : gmap DocId Employee) : Prop :=
  ∀ id, c' !! id = c !! id
        ∨ ∃ d, c !! id = Some d ∧ Finalize.stale E d = true
               ∧ c' !! id = Some (Finalize.markAbsent now d).

(** The store a [finalizeRun] threw with, or [db] when it did not throw. *)
Definition thrownOr (r : option Finalize.Result) (db : Store) : Store :=
  match r with
  | Some (Finalize.Threw db') => db'
  | _ => db
  end.

(** The number of rows that [normalizeRow] does not accept. *)
Definition rejectedCount (rs : list Status.RawEmployee) : nat :=
  length rs - length (acceptedEmails rs).

(** The rows of a request of the upserts consumer, as the normalizer reads
    them. *)
Definition requestRows (p : Batching.UpsertBatchPayload)
  : list Status.RawEmployee :=
  match IngestUpserts.messages (IngestUpserts.asRequestBody p) with
  | Some rows => rows
  | None => []
  end.

(** No status of the payload is, lowercased and trimmed, the name of a
    property inherited from [Object.prototype]. *)
Definition ordinaryStatuses (p : Batching.UpsertBatchPayload) : Prop :=
  ∀ row, row ∈ Batching.messages p →
    existsb (String.eqb (trim (toLowerCase (Batching.statusInOrg row))))
      Status.objectPrototypeKeys = false.

(** [beginRun] called once per element of [calls] (the time of the call
    and the [orgName] passed), with no [finalizeRun] in between: the epochs
    returned, in order, and the store left. *)
Fixpoint beginRuns (calls : list (Z * option string)) (orgId : string)
  (db : Store) : list Z * Store :=
  match calls with
  | [] => ([], db)
  | call :: rest =>
      let '(epoch, db1) := Finalize.beginRun call.1 orgId call.2 db in
      let '(epochs, db2) := beginRuns rest orgId db1 in
      (epoch :: epochs, db2)
  end.



End Invariants.

(** * Theorems *)

(** Case analysis on every conditional of the goal. *)
Ltac case_ifs :=
  repeat match goal with
         | |- context [if ?b then _ else _] => destruct b
         end.

(** ** Status normalization *)

Section StatusFacts.
Import JsString Status.

Example normalizeStatus_terminated :
  normalizeStatus (VString " Terminated ") = Returns (VString "left").
Proof. reflexivity. Qed.

Example normalizeStatus_not_active :
  normalizeStatus (VString "not active") = Returns (VString "active").
Proof. reflexivity. Qed.

Example normalizeStatus_unknown :
  normalizeStatus (VString "xyz") = Returns (VString "inactive").
Proof. reflexivity. Qed.

Example isValidEmail_ok : isValidEmail (Some "alice@x.com") = true.
Proof. reflexivity. Qed.

Example isValidEmail_dots : isValidEmail (Some "a.b@x.y.com") = true.
Proof. reflexivity. Qed.

Example isValidEmail_no_at : isValidEmail (Some "not-an-email") = false.
Proof. reflexivity. Qed.

Example isValidEmail_trailing_dot : isValidEmail (Some "a@b.") = false.
Proof. reflexivity. Qed.

Example isValidEmail_two_at : isValidEmail (Some "a@b@c.d") = false.
Proof. reflexivity. Qed.

Lemma ownProperty_statusMap_canonical k v :
  ownProperty statusMap k = Some v → canonicalStatus v.
Proof.
  unfold statusMap, canonicalStatus. cbn [ownProperty].
  repeat match goal with
         | |- context [if String.eqb ?a ?b then _ else _] =>
             destruct (String.eqb a b)
         end;
    intros [= <-]; auto.
Qed.

Lemma partialMatch_statusMap_canonical n v :
  partialMatch statusMap n = Some v → canonicalStatus v.
Proof.
  unfold statusMap, canonicalStatus. cbn [partialMatch].
  repeat match goal with
         | |- context [if includes ?a ?b then _ else _] =>
             destruct (includes a b)
         end;
    intros [= <-]; auto.
Qed.

(** Whenever [normalizeStatus] returns a string, it is one of the three
    canonical statuses. *)
Lemma normalizeStatus_string_canonical v t :
  normalizeStatus v = Returns (VString t) → canonicalStatus t.
Proof.
  unfold normalizeStatus.
  destruct (negb (isTruthy v)).
  { intros [= <-]. left. reflexivity. }
  destruct v as [| |s|n]; try discriminate.
  unfold getProperty.
  destruct (ownProperty statusMap (trim (toLowerCase s))) as [w|] eqn:Hown.
  - apply ownProperty_statusMap_canonical in Hown.
    assert (isTruthy (VString w) = true) as ->
        by (destruct Hown as [->|[->| ->]]; reflexivity).
    intros [= <-]. exact Hown.
  - destruct (existsb _ objectPrototypeKeys); cbn [isTruthy].
    + discriminate.
    + destruct (partialMatch statusMap _) as [w|] eqn:Hpm.
      * intros [= <-]. eapply partialMatch_statusMap_canonical, Hpm.
      * intros [= <-]. right. left. reflexivity.
Qed.

(** The three canonical statuses are fixed points. *)
Lemma normalizeStatus_canonical_fixed t :
  canonicalStatus t → normalizeStatus (VString t) = Returns (VString t).
Proof. intros [->|[->| ->]]; reflexivity. Qed.

(** On every input for which the first call returns a string, a second
    call returns the same string. *)
Lemma normalizeStatus_idempotent_on_strings v t :
  normalizeStatus v = Returns (VString t) →
  normalizeStatus (VString t) = normalizeStatus v.
Proof.
  intros H. rewrite H.
  apply normalizeStatus_canonical_fixed.
  eapply normalizeStatus_string_canonical, H.
Qed.

(** C9, at the input on which the code departs from it: the status
    ["constructor"] is not an own key of [statusMap], the property read
    finds [Object.prototype.constructor], a truthy non-string, and returns
    it; a second call on that value throws, so
    [normalizeStatus(normalizeStatus(s))] is not [normalizeStatus(s)]. *)
Theorem normalizeStatus_constructor_not_fixed :
  normalizeStatus (VString "constructor") = Returns (VInherited "constructor")
  ∧ normalizeStatus (VInherited "constructor") = ThrowsTypeError
  ∧ normalizeStatus (VString " Constructor ")
    = Returns (VInherited "constructor").
Proof. repeat split; reflexivity. Qed.

End StatusFacts.

(** ** The lookup cache *)

Section CacheFacts.
Import Firestore Optimizer Notions.
Local Open Scope Z_scope.

Lemma getFromCache_live now key c entry :
  mapGet c key = Some entry →
  now - timestamp entry <= CONFIG.CACHE_TTL_MS →
  getFromCache now key c = (Some (data entry), c).
Proof.
  intros Hget Hage. unfold getFromCache. rewrite Hget.
  destruct (Z.gtb_spec (now - timestamp entry) CONFIG.CACHE_TTL_MS);
    [lia | reflexivity].
Qed.

Lemma getFromCache_expired now key c entry :
  mapGet c key = Some entry →
  now - timestamp entry > CONFIG.CACHE_TTL_MS →
  getFromCache now key c = (None, mapDelete c key).
Proof.
  intros Hget Hage. unfold getFromCache. rewrite Hget.
  destruct (Z.gtb_spec (now - timestamp entry) CONFIG.CACHE_TTL_MS);
    [reflexivity | lia].
Qed.

(** C7 (as amended): an entry whose age is exactly [CACHE_TTL_MS] is still
    live: [getFromCache] returns its data and keeps it in the cache. An
    entry is dropped only when its age is strictly greater. *)
Theorem getFromCache_at_ttl_is_hit now key c entry :
  mapGet c key = Some entry →
  now - timestamp entry = CONFIG.CACHE_TTL_MS →
  getFromCache now key c = (Some (data entry), c)
  ∧ getFromCache (now + 1) key c = (None, mapDelete c key).
Proof.
  intros Hget Hage. split.
  - apply (getFromCache_live _ _ _ entry); [exact Hget | lia].
  - apply (getFromCache_expired _ _ _ entry); [exact Hget | lia].
Qed.

Lemma getFromCache_at_ttl_is_hit_witness :
  getFromCache 301000 "org:acme" [("org:acme", sampleEntry)]
    = (Some (data sampleEntry), [("org:acme", sampleEntry)])
  ∧ getFromCache (301000 + 1) "org:acme" [("org:acme", sampleEntry)]
    = (None, mapDelete [("org:acme", sampleEntry)] "org:acme").
Proof.
  apply (getFromCache_at_ttl_is_hit 301000 "org:acme"
           [("org:acme", sampleEntry)] sampleEntry); reflexivity.
Defined.

(** C7 as the spec states it fails: at age exactly [CACHE_TTL_MS] the
    call is a hit, not a miss. *)
Lemma getFromCache_at_ttl_counterexample :
  301000 - timestamp sampleEntry = CONFIG.CACHE_TTL_MS
  ∧ (getFromCache 301000 "org:acme" [("org:acme", sampleEntry)]).1 ≠ None.
Proof. split; [reflexivity | discriminate]. Qed.

End CacheFacts.


(** ** Adaptive batch size *)

Section BatchSizeFacts.
Import Optimizer Notions.
Local Open Scope Z_scope.

(** The doubles behind the literals of [adaptBatchSize]. *)
Example literal_0_7 :
  Double.literal 7 10 = S754_finite false 6305039478318694 (-53).
Proof. reflexivity. Qed.

(** Double rounding is visible on a reachable size: [350 * 0.7] is
[244.99999999999997], so a reduction from 350 gives 244. *)
Example adaptBatchSize_reduce_350 : adaptBatchSize 1 0 350 = 244.
Proof. vm_compute. reflexivity. Qed.

Example adaptBatchSize_reduce_500 : adaptBatchSize 9 1 500 = 350.
Proof. vm_compute. reflexivity. Qed.

Example adaptBatchSize_floor_100 : adaptBatchSize 1 0 119 = 100.
Proof. vm_compute. reflexivity. Qed.

Example adaptBatchSize_grow_100 : adaptBatchSize 0 1 100 = 120.
Proof. vm_compute. reflexivity. Qed.

Example adaptBatchSize_cap_500 : adaptBatchSize 0 1 426 = 500.
Proof. vm_compute. reflexivity. Qed.

Example adaptBatchSize_no_calls : adaptBatchSize 0 0 350 = 350.
Proof. reflexivity. Qed.

Lemma productsWithinClamp_all :
  forallb productsWithinClamp (seq 100 401) = true.
Proof. vm_compute. reflexivity. Qed.

Lemma products_within_clamp c :
  100 <= c <= 500 →
  Double.floor (Double.mul (Double.ofZ c) (Double.literal 7 10)) <= 500
  ∧ 100 <= Double.floor (Double.mul (Double.ofZ c) (Double.literal 12 10)).
Proof.
  intros Hc.
  pose proof productsWithinClamp_all as Hall.
  rewrite forallb_forall in Hall.
  specialize (Hall (Z.to_nat c)).
  unfold productsWithinClamp in Hall.
  rewrite Z2Nat.id in Hall by lia.
  rewrite andb_true_iff, !Z.leb_le in Hall.
  apply Hall. apply in_seq. lia.
Qed.

(** One call keeps the size within the clamp. *)
Lemma adaptBatchSize_within e p c :
  100 <= c <= 500 → 100 <= adaptBatchSize e p c <= 500.
Proof.
  intros Hc.
  destruct (products_within_clamp c Hc) as [Hlow Hhigh].
  unfold adaptBatchSize, CONFIG.FIRESTORE_BATCH_SIZE.
  destruct (_ =? _)%N; [exact Hc|].
  destruct (Double.gtb _ _).
  - destruct (negb _); [lia | exact Hc].
  - destruct (_ && _); [|exact Hc].
    destruct (negb _); [lia | exact Hc].
Qed.

Lemma batchSizes_within calls : ∀ c,
  100 <= c <= 500 → Forall (fun n => 100 <= n <= 500) (batchSizes calls c).
Proof.
  induction calls as [|[e p] rest IH]; intros c Hc; cbn [batchSizes].
  - constructor.
  - constructor.
    + apply adaptBatchSize_within, Hc.
    + apply IH, adaptBatchSize_within, Hc.
Qed.

(** C8: [currentBatchSize] starts at 500 and, whatever the error and
processed counts of a sequence of [adaptBatchSize] calls are, the value after
each call is at least 100 and at most 500; a reduction sets
[max(100, floor(current * 0.7))] and an increase
[min(500, floor(current * 1.2))], both computed in doubles. *)
Theorem currentBatchSize_stays_within_100_500 (calls : list (N * N)) :
  currentBatchSize constructor = 500
  ∧ Forall (fun n => 100 <= n <= 500)
      (batchSizes calls (currentBatchSize constructor)).
Proof.
  split; [reflexivity|].
  apply batchSizes_within.
  change (currentBatchSize constructor) with 500. lia.
Qed.

Lemma runWaves_batchSize env : ∀ waves idx st size,
  100 <= size <= 500 → 100 <= (runWaves env idx waves st size).2 <= 500.
Proof.
  induction waves as [|wave waves IH]; intros idx st size Hsize;
    cbn [runWaves]; [exact Hsize|].
  destruct (runWave env idx wave st) as [[c p] e].
  apply IH, adaptBatchSize_within, Hsize.
Qed.

(** The bound is an invariant of the instance: an invocation of
[processUpserts] hands on a batch size within the clamp. *)
Lemma processUpserts_batchSize env orgId messages epochNumber o db :
  100 <= currentBatchSize o <= 500 →
  100 <= currentBatchSize
           (processUpserts env orgId messages epochNumber o db).1.2 <= 500.
Proof.
  intros Hsize. unfold processUpserts, canProceed.
  assert (∀ now r o', currentBatchSize (updateMetrics now r o')
                      = currentBatchSize o') as Hupd.
  { intros now r o'. unfold updateMetrics.
    repeat match goal with
           | |- context [if ?b then _ else _] => destruct b
           | |- context [match circuitState ?x with _ => _ end] =>
               destruct (circuitState x)
           end; reflexivity. }
  assert (∀ o0, currentBatchSize o0 = currentBatchSize o →
            100 <= currentBatchSize
              (let '(existing, o1) :=
                 loadExistingEmployees env orgId (Firestore.employeesRef db orgId)
                   (deduplicateEmails messages) o0 in
               let '(result, c', o2) :=
                 writeBatches env (Firestore.employeesRef db orgId)
                   (prepareEmployeeData messages existing epochNumber (now env))
                   o1 in
               (Resolved result, updateMetrics (now env) result o2,
                Firestore.withEmployees db orgId c')).1.2 <= 500) as Hgo.
  { intros o0 Ho0. unfold loadExistingEmployees, writeBatches.
    destruct (getFromCache _ _ _) as [[cached|] c1].
    - cbn [currentBatchSize withMetrics withCache].
      pose proof (runWaves_batchSize env
        (chunk CONFIG.MAX_PARALLEL_BATCHES
           (chunk (Z.to_nat (currentBatchSize o0))
              (prepareEmployeeData messages
                 (fold_left
                    (fun (acc : gmap string Firestore.DocId) e =>
                       match cached !! e with
                       | Some ref => <[e:=ref]> acc
                       | None => acc
                       end) (deduplicateEmails messages) ∅)
                 epochNumber (now env))))
        0%nat (Firestore.employeesRef db orgId, 0%N, 0%N) (currentBatchSize o0))
        as Hw.
      destruct (runWaves _ _ _ _ _) as [[[c' p] e] size'].
      cbn [fst snd]. rewrite Hupd. cbn [currentBatchSize withMetrics withBatchSize].
      apply Hw. lia.
    - destruct (bulkQueryEmployees _ _ _ _) as [existing m].
      cbn [currentBatchSize withMetrics withCache].
      pose proof (runWaves_batchSize env
        (chunk CONFIG.MAX_PARALLEL_BATCHES
           (chunk (Z.to_nat (currentBatchSize o0))
              (prepareEmployeeData messages existing epochNumber (now env))))
        0%nat (Firestore.employeesRef db orgId, 0%N, 0%N) (currentBatchSize o0))
        as Hw.
      destruct (runWaves _ _ _ _ _) as [[[c' p] e] size'].
      cbn [fst snd]. rewrite Hupd. cbn [currentBatchSize withMetrics withBatchSize].
      apply Hw. lia. }
  destruct (circuitState o).
  - cbn [negb]. apply Hgo. reflexivity.
  - destruct (_ >? _); cbn [negb fst snd]; [apply Hgo; reflexivity | exact Hsize].
  - cbn [negb]. apply Hgo. reflexivity.
Qed.

End BatchSizeFacts.


(** ** The cache size limit *)

Section CacheLimitFacts.
Import Firestore Optimizer Notions.
Local Open Scope Z_scope.

(** Lookup maps of every size exist (one entry per existing employee). *)
Lemma lookup_map_of_size (n : nat) : ∃ d : gmap string DocId, size d = n.
Proof.
  exists (list_to_map ((fun k => (k, 1%positive)) <$> fresh_list n (∅ : gset string))).
  rewrite map_size_list_to_map.
  - rewrite length_fmap. apply length_fresh_list.
  - rewrite <- list_fmap_compose.
    erewrite (list_fmap_ext _ id); [|intros; reflexivity].
    rewrite list_fmap_id. apply NoDup_fresh_list.
Qed.

(** C6, at an input on which the code departs from it: three organizations
whose lookup maps hold 1000, 300000 and 300000 references are cached at
times 1, 2 and 3. The first two fit (60200000 bytes). The third insertion
finds the limit exceeded, [evictOldestCache] removes the single oldest
entry, and the new entry is stored without a second look at the total: the
cache then holds 120000000 estimated bytes, above
[MAX_CACHE_SIZE_MB * 1024 * 1024 = 104857600]. *)
Theorem addToCache_exceeds_limit :
  ∃ dA dB dC : gmap string DocId,
    Z.of_nat (size dA) = 1000 ∧ Z.of_nat (size dB) = 300000
    ∧ Z.of_nat (size dC) = 300000
    ∧ totalSizeBytes
        (addToCache 2 "org:b" dB (addToCache 1 "org:a" dA [])) = 60200000
    ∧ fst <$> addToCache 3 "org:c" dC
                (addToCache 2 "org:b" dB (addToCache 1 "org:a" dA []))
      = ["org:b"; "org:c"]
    ∧ totalSizeBytes
        (addToCache 3 "org:c" dC
           (addToCache 2 "org:b" dB (addToCache 1 "org:a" dA [])))
      = 120000000
    ∧ 120000000 > maxCacheBytes.
Proof.
  destruct (lookup_map_of_size (Z.to_nat 1000)) as [dA HA].
  destruct (lookup_map_of_size (Z.to_nat 300000)) as [dB HB].
  destruct (lookup_map_of_size (Z.to_nat 300000)) as [dC HC].
  apply (f_equal Z.of_nat) in HA, HB, HC.
  rewrite Z2Nat.id in HA, HB, HC by lia.
  exists dA, dB, dC.
  split; [exact HA|]. split; [exact HB|]. split; [exact HC|].
  unfold addToCache. rewrite HA, HB, HC.
  vm_compute. repeat split; reflexivity.
Qed.

End CacheLimitFacts.


(** ** The circuit breaker *)

Section CircuitFacts.
Import Firestore Optimizer Notions.
Local Open Scope Z_scope.

Lemma loadExistingEmployees_circuit env orgId c emails o :
  circuitState (loadExistingEmployees env orgId c emails o).2 = circuitState o
  ∧ circuitOpenTime (loadExistingEmployees env orgId c emails o).2
    = circuitOpenTime o
  ∧ currentBatchSize (loadExistingEmployees env orgId c emails o).2
    = currentBatchSize o.
Proof.
  unfold loadExistingEmployees.
  destruct (getFromCache _ _ _) as [[cached|] c1].
  - repeat split; reflexivity.
  - destruct (bulkQueryEmployees _ _ _ _). repeat split; reflexivity.
Qed.

Lemma writeBatches_circuit env c items o :
  circuitState (writeBatches env c items o).2 = circuitState o
  ∧ circuitOpenTime (writeBatches env c items o).2 = circuitOpenTime o.
Proof.
  unfold writeBatches.
  destruct (runWaves _ _ _ _ _) as [[[c' p] e] b]. split; reflexivity.
Qed.

(** An invocation that is let through ends in [updateMetrics], applied to
an instance whose circuit is as [canProceed] left it. *)
Lemma processUpserts_proceeds env orgId messages epochNumber o o0 db :
  canProceed (now env) o = (true, o0) →
  ∃ r o2 db',
    processUpserts env orgId messages epochNumber o db
      = (Resolved r, updateMetrics (now env) r o2, db')
    ∧ circuitState o2 = circuitState o0
    ∧ circuitOpenTime o2 = circuitOpenTime o0.
Proof.
  intros Hcan. unfold processUpserts. rewrite Hcan. cbn [negb].
  pose proof (loadExistingEmployees_circuit env orgId (employeesRef db orgId)
                (deduplicateEmails messages) o0) as (Hst & Htime & _).
  destruct (loadExistingEmployees _ _ _ _ _) as [existing o1].
  pose proof (writeBatches_circuit env (employeesRef db orgId)
                (prepareEmployeeData messages existing epochNumber (now env))
                o1) as (Hst' & Htime').
  destruct (writeBatches _ _ _ _) as [[r c'] o2].
  exists r, o2, (withEmployees db orgId c').
  cbn [snd] in *. split; [reflexivity|]. split; congruence.
Qed.

(** C4 (as amended). (1) While the circuit is OPEN and no more than
[CIRCUIT_RESET_MS] have passed since it opened, [processUpserts] throws and
leaves instance and store as they were. (2) The first attempt later than
that enters HALF_OPEN and runs to its [updateMetrics]. (3) Whenever
[updateMetrics] finds the cumulative error rate above [ERROR_THRESHOLD], the
state is OPEN afterwards, and the opening time is the current time unless
the circuit was open already. (4) In HALF_OPEN, [updateMetrics] closes the
circuit exactly when the cumulative rate, this invocation included, is not
above the threshold; the invocation's own success or failure does not
decide. *)
Theorem circuit_breaker_transitions env orgId messages epochNumber o db r :
  (circuitState o = OPEN →
   now env - circuitOpenTime o <= CONFIG.CIRCUIT_RESET_MS →
   processUpserts env orgId messages epochNumber o db
     = (Rejected circuitOpenMessage, o, db))
  ∧ (circuitState o = OPEN →
     now env - circuitOpenTime o > CONFIG.CIRCUIT_RESET_MS →
     ∃ r' o2 db',
       processUpserts env orgId messages epochNumber o db
         = (Resolved r', updateMetrics (now env) r' o2, db')
       ∧ circuitState o2 = HALF_OPEN)
  ∧ ((totalProcessed (addCounts (metrics o) r)
      + totalErrors (addCounts (metrics o) r))%N ≠ 0%N →
     errorRateExceeds (addCounts (metrics o) r) = true →
     circuitState (updateMetrics (now env) r o) = OPEN
     ∧ (circuitState o ≠ OPEN →
        circuitOpenTime (updateMetrics (now env) r o) = now env))
  ∧ (circuitState o = HALF_OPEN →
     (totalProcessed (addCounts (metrics o) r)
      + totalErrors (addCounts (metrics o) r))%N ≠ 0%N →
     circuitState (updateMetrics (now env) r o)
     = if errorRateExceeds (addCounts (metrics o) r) then OPEN else CLOSED).
Proof.
  split; [|split; [|split]].
  - intros Hopen Hwin. unfold processUpserts, canProceed. rewrite Hopen.
    destruct (Z.gtb_spec (now env - circuitOpenTime o) CONFIG.CIRCUIT_RESET_MS);
      [lia | reflexivity].
  - intros Hopen Hwin.
    destruct (processUpserts_proceeds env orgId messages epochNumber o
                (withCircuit o HALF_OPEN (circuitOpenTime o)) db)
      as (r' & o2 & db' & Heq & Hst & _).
    + unfold canProceed. rewrite Hopen.
      destruct (Z.gtb_spec (now env - circuitOpenTime o)
                  CONFIG.CIRCUIT_RESET_MS); [reflexivity | lia].
    + exists r', o2, db'. split; [exact Heq | exact Hst].
  - intros Htot Hrate. unfold updateMetrics. cbn [metrics withMetrics].
    apply N.eqb_neq in Htot. rewrite Htot, Hrate. cbn [circuitState withMetrics].
    destruct (circuitState o) eqn:Hst; cbn [isOpen negb];
      (split; [cbn; try rewrite Hst; reflexivity|]); intros Hne;
      try reflexivity; contradiction.
  - intros Hhalf Htot. unfold updateMetrics. cbn [metrics withMetrics].
    apply N.eqb_neq in Htot. rewrite Htot. cbn [circuitState withMetrics].
    rewrite Hhalf. destruct (errorRateExceeds _); reflexivity.
Qed.

Lemma circuit_breaker_transitions_witness :
  processUpserts (healthyEnv 2000) "acme" [upsert "bob@x.com" "active"] 2
    trippedInstance emptyStore
  = (Rejected circuitOpenMessage, trippedInstance, emptyStore)
  ∧ (∃ r' o2 db',
       processUpserts (healthyEnv 61001) "acme" [upsert "bob@x.com" "active"]
         2 trippedInstance emptyStore
       = (Resolved r', updateMetrics 61001 r' o2, db')
       ∧ circuitState o2 = HALF_OPEN)
  ∧ circuitState
      (updateMetrics 61001 {| processed := 1; skipped := 0; errors := 0 |}
         (withCircuit trippedInstance HALF_OPEN 1000)) = OPEN
  ∧ circuitState
      (updateMetrics 61001 {| processed := 9; skipped := 0; errors := 0 |}
         (withCircuit trippedInstance HALF_OPEN 1000)) = CLOSED.
Proof.
  split; [|split; [|split]].
  - apply (proj1 (circuit_breaker_transitions (healthyEnv 2000) "acme"
                    [upsert "bob@x.com" "active"] 2 trippedInstance emptyStore
                    {| processed := 1; skipped := 0; errors := 0 |}));
      [reflexivity | vm_compute; discriminate].
  - apply (proj1 (proj2 (circuit_breaker_transitions (healthyEnv 61001) "acme"
                    [upsert "bob@x.com" "active"] 2 trippedInstance emptyStore
                    {| processed := 1; skipped := 0; errors := 0 |})));
      [reflexivity | vm_compute; reflexivity].
  - apply (proj1 (proj2 (proj2 (circuit_breaker_transitions (healthyEnv 61001)
                    "acme" [] 2 (withCircuit trippedInstance HALF_OPEN 1000)
                    emptyStore
                    {| processed := 1; skipped := 0; errors := 0 |}))));
      [vm_compute; discriminate | vm_compute; reflexivity].
  - apply (proj2 (proj2 (proj2 (circuit_breaker_transitions (healthyEnv 61001)
                    "acme" [] 2 (withCircuit trippedInstance HALF_OPEN 1000)
                    emptyStore
                    {| processed := 9; skipped := 0; errors := 0 |}))));
      [reflexivity | vm_compute; discriminate].
Defined.

(** C4 as the spec states it fails. One invocation at time 1000 loses its
only batch (error rate 1/1) and opens the circuit. The next attempt after the
reset window, at 61001, enters HALF_OPEN and succeeds completely (one row
processed, no error); the cumulative rate is then 1/2, still above 0.3, and
the circuit is OPEN again, not CLOSED. *)
Lemma half_open_success_counterexample :
  circuitState trippedInstance = OPEN
  ∧ circuitOpenTime trippedInstance = 1000
  ∧ canProceed 61001 trippedInstance
    = (true, withCircuit trippedInstance HALF_OPEN 1000)
  ∧ (processUpserts (healthyEnv 61001) "acme" [upsert "bob@x.com" "active"] 2
       trippedInstance emptyStore).1.1
    = Resolved {| processed := 1; skipped := 0; errors := 0 |}
  ∧ circuitState
      (processUpserts (healthyEnv 61001) "acme" [upsert "bob@x.com" "active"]
         2 trippedInstance emptyStore).1.2 = OPEN
  ∧ circuitState
      (processUpserts (healthyEnv 61001) "acme" [upsert "bob@x.com" "active"]
         2 trippedInstance emptyStore).1.2 ≠ CLOSED.
Proof. vm_compute. repeat split; try reflexivity; discriminate. Qed.

End CircuitFacts.


(** ** The bridge's retry policy *)

Section RetryFacts.
Import Http Notions.
Local Open Scope Z_scope.

Example postJson_flaky_409 :
  postJson 8 (flakyServer 409)
  = (Return {| status := 200; text := "body" |},
     [Request 0; Backoff 0; Request 1; Backoff 1; Request 2]).
Proof. reflexivity. Qed.

Example postJson_flaky_404 :
  postJson 8 (flakyServer 404)
  = (Return {| status := 404; text := "body" |},
     [Request 0; Backoff 0; Request 1; Backoff 1; Request 2]).
Proof. reflexivity. Qed.

Example postJson_exhausted :
  postJson 2 (fun _ => Response 500 "down")
  = (Return {| status := 500; text := "down" |},
     [Request 0; Backoff 0; Request 1; Backoff 1; Request 2]).
Proof. reflexivity. Qed.

Example postJson_network_exhausted :
  postJson 1 (fun _ => NetworkError "ECONNRESET")
  = (Throw "ECONNRESET", [Request 0; Backoff 0; Request 1]).
Proof. reflexivity. Qed.

(** One iteration on a transient reply, with retries left, goes round the
loop again after a back-off. *)
Lemma retryLoop_transient maxRetries server remaining attempt lastError :
  transient (server attempt) →
  Z.of_nat attempt < maxRetries →
  ∃ lastError',
    retryLoop maxRetries server (S remaining) attempt lastError
    = ((retryLoop maxRetries server remaining (S attempt) lastError').1,
       Request attempt :: Backoff attempt
         :: (retryLoop maxRetries server remaining (S attempt) lastError').2).
Proof.
  intros Htr Hlt. cbn [retryLoop].
  apply Z.ltb_lt in Hlt.
  destruct (server attempt) as [st txt|e]; cbn [transient] in Htr.
  - exists lastError.
    assert ((st =? 409) = false) as -> by (apply Z.eqb_neq; lia).
    assert ((200 <=? st) && (st <? 300) = false) as ->.
    { apply andb_false_iff. right. apply Z.ltb_ge. lia. }
    assert (isRetryable st = true) as ->.
    { unfold isRetryable. apply orb_true_iff.
      destruct Htr as [?| ->]; [left; apply Z.leb_le; lia | right; reflexivity]. }
    cbn [negb]. rewrite Hlt.
    destruct (retryLoop _ _ _ _ _). reflexivity.
  - exists (Some e). rewrite Hlt.
    destruct (retryLoop _ _ _ _ _). reflexivity.
Qed.

(** After [k] transient replies in a row the loop stands at attempt [k]. *)
Lemma retryLoop_after_transients maxRetries server : ∀ k remaining from lastError,
  (∀ j, (from <= j < from + k)%nat → transient (server j)) →
  Z.of_nat (from + k) <= maxRetries →
  ∃ lastError',
    retryLoop maxRetries server (k + remaining) from lastError
    = ((retryLoop maxRetries server remaining (from + k) lastError').1,
       (retriedAttempts from k
          ++ (retryLoop maxRetries server remaining (from + k) lastError').2)%list).
Proof.
  induction k as [|k IH]; intros remaining from lastError Hall Hle.
  - exists lastError. rewrite Nat.add_0_r. cbn [Nat.add retriedAttempts app].
    destruct (retryLoop _ _ _ _ _). reflexivity.
  - destruct (retryLoop_transient maxRetries server (k + remaining) from
                lastError) as [le1 Hstep].
    { apply Hall. lia. }
    { lia. }
    destruct (IH remaining (S from) le1) as [le2 Hrest].
    { intros j Hj. apply Hall. lia. }
    { lia. }
    exists le2. cbn [Nat.add]. rewrite Hstep, Hrest.
    replace (S from + k)%nat with (from + S k)%nat by lia.
    reflexivity.
Qed.

Lemma requestsOf_retriedAttempts : ∀ k from,
  requestsOf (retriedAttempts from k) = seq from k.
Proof.
  induction k as [|k IH]; intros from; cbn; [reflexivity|].
  f_equal. apply IH.
Qed.

(** The loop never sends more requests than it has iterations. *)
Lemma retryLoop_requests_bound maxRetries server : ∀ remaining attempt lastError,
  (length (requestsOf (retryLoop maxRetries server remaining attempt lastError).2)
   <= remaining)%nat.
Proof.
  induction remaining as [|remaining IH]; intros attempt lastError.
  - cbn. lia.
  - cbn [retryLoop].
    destruct (server attempt) as [st txt|e].
    + specialize (IH (S attempt) lastError).
      destruct (retryLoop maxRetries server remaining (S attempt) lastError)
        as [r tr].
      case_ifs; cbn in *; lia.
    + specialize (IH (S attempt) (Some e)).
      destruct (retryLoop maxRetries server remaining (S attempt) (Some e))
        as [r tr].
      destruct (_ <? _); cbn in *; lia.
Qed.

Lemma retryLoop_sends_request maxRetries server remaining attempt lastError :
  ∃ tr, (retryLoop maxRetries server (S remaining) attempt lastError).2
        = Request attempt :: tr.
Proof.
  cbn [retryLoop].
  destruct (server attempt) as [st txt|e].
  - destruct (retryLoop maxRetries server remaining (S attempt) lastError).
    case_ifs; eexists; reflexivity.
  - destruct (retryLoop maxRetries server remaining (S attempt) (Some e)).
    destruct (_ <? _); eexists; reflexivity.
Qed.

Lemma retryLoop_final maxRetries server remaining attempt lastError st txt :
  server attempt = Response st txt →
  st = 409 ∨ (400 <= st <= 499 ∧ st ≠ 429) →
  retryLoop maxRetries server (S remaining) attempt lastError
  = (Return {| status := if st =? 409 then 200 else st; text := txt |},
     [Request attempt]).
Proof.
  intros Hsrv Hst. cbn [retryLoop]. rewrite Hsrv.
  destruct (Z.eqb_spec st 409) as [->|Hne]; [reflexivity|].
  destruct Hst as [?|[Hrange H429]]; [contradiction|].
  assert ((200 <=? st) && (st <? 300) = false) as ->.
  { apply andb_false_iff. right. apply Z.ltb_ge. lia. }
  assert (isRetryable st = false) as ->.
  { unfold isRetryable. apply orb_false_iff.
    split; [apply Z.leb_gt; lia | apply Z.eqb_neq; exact H429]. }
  reflexivity.
Qed.

(** C5: let request number [k] be reached, every earlier reply having been
transient (HTTP 5xx, HTTP 429, or a network or timeout error). Then
(1) [postJson] sends at most [MAX_RETRIES + 1] requests in all;
(2) requests [0..k] were sent, one per transient reply before [k];
(3) if reply [k] is transient too and [k < MAX_RETRIES], request [k + 1] is
    sent after a back-off;
(4) if reply [k] is a 4xx other than 429 and 409, it is returned as it is
    and no further request is sent;
(5) if reply [k] is a 409, status 200 is returned on that attempt and no
    further request is sent. *)
Theorem postJson_retry_policy maxRetries server (k : nat) :
  Z.of_nat k <= maxRetries →
  (∀ j, (j < k)%nat → transient (server j)) →
  (length (requestsOf (postJson maxRetries server).2)
   <= Z.to_nat (maxRetries + 1))%nat
  ∧ (∃ rest, requestsOf (postJson maxRetries server).2
             = (seq 0 (S k) ++ rest)%list)
  ∧ (transient (server k) → Z.of_nat k < maxRetries →
     ∃ rest, (postJson maxRetries server).2
             = (retriedAttempts 0 (S k) ++ Request (S k) :: rest)%list)
  ∧ (∀ st txt, server k = Response st txt →
       400 <= st <= 499 → st ≠ 429 → st ≠ 409 →
       postJson maxRetries server
       = (Return {| status := st; text := txt |},
          (retriedAttempts 0 k ++ [Request k])%list))
  ∧ (∀ txt, server k = Response 409 txt →
       postJson maxRetries server
       = (Return {| status := 200; text := txt |},
          (retriedAttempts 0 k ++ [Request k])%list)).
Proof.
  intros Hk Hall. unfold postJson.
  split; [apply retryLoop_requests_bound|].
  set (rem := (Z.to_nat maxRetries - k)%nat).
  assert (Z.to_nat (maxRetries + 1) = (k + S rem)%nat) as -> by (unfold rem; lia).
  destruct (retryLoop_after_transients maxRetries server k (S rem) 0%nat None)
    as [le Hpre].
  { intros j Hj. apply Hall. lia. }
  { lia. }
  cbn [Nat.add] in Hpre. rewrite Hpre. cbn [fst snd].
  split; [|split; [|split]].
  - destruct (retryLoop_sends_request maxRetries server rem k le) as [tr ->].
    exists (requestsOf tr). unfold requestsOf.
    rewrite omap_app. fold (requestsOf (retriedAttempts 0 k)).
    rewrite requestsOf_retriedAttempts. cbn [omap].
    rewrite seq_S. cbn [Nat.add]. rewrite <- app_assoc. reflexivity.
  - intros Htr Hlt.
    assert (rem = S (rem - 1))%nat as Hrem by (unfold rem; lia).
    rewrite Hrem.
    destruct (retryLoop_transient maxRetries server (S (rem - 1)) k le Htr Hlt)
      as [le' ->]. cbn [snd].
    destruct (retryLoop_sends_request maxRetries server (rem - 1) (S k) le')
      as [tr ->].
    exists tr.
    assert (∀ n from tl,
              (retriedAttempts from (S n) ++ tl
               = retriedAttempts from n
                   ++ Request (from + n) :: Backoff (from + n) :: tl)%list)
      as Hsnoc.
    { induction n as [|n IHn]; intros from tl.
      - cbn. rewrite Nat.add_0_r. reflexivity.
      - cbn [retriedAttempts app]. do 2 f_equal.
        rewrite <- Nat.add_succ_comm. apply (IHn (S from)). }
    rewrite Hsnoc. reflexivity.
  - intros st txt Hsrv Hrange H429 H409.
    rewrite (retryLoop_final maxRetries server rem k le st txt Hsrv)
      by (right; split; assumption).
    apply Z.eqb_neq in H409. rewrite H409. reflexivity.
  - intros txt Hsrv.
    rewrite (retryLoop_final maxRetries server rem k le 409 txt Hsrv)
      by (left; reflexivity).
    reflexivity.
Qed.

Lemma postJson_retry_policy_witness :
  (length (requestsOf (postJson 8 (flakyServer 409)).2) <= Z.to_nat (8 + 1))%nat
  ∧ (∃ rest, requestsOf (postJson 8 (flakyServer 409)).2
             = (seq 0 3 ++ rest)%list)
  ∧ (∃ rest, (postJson 8 (flakyServer 409)).2
             = (retriedAttempts 0 2 ++ Request 2 :: rest)%list)
  ∧ postJson 8 (flakyServer 404)
    = (Return {| status := 404; text := "body" |},
       (retriedAttempts 0 2 ++ [Request 2])%list)
  ∧ postJson 8 (flakyServer 409)
    = (Return {| status := 200; text := "body" |},
       (retriedAttempts 0 2 ++ [Request 2])%list).
Proof.
  assert (∀ st j, (j < 2)%nat → transient (flakyServer st j)) as Hpre.
  { intros st [|[|j]] Hj; cbn; [left; lia | exact I | lia]. }
  split; [|split; [|split; [|split]]].
  - apply (postJson_retry_policy 8 (flakyServer 409) 2); [lia | apply Hpre].
  - apply (postJson_retry_policy 8 (flakyServer 409) 2); [lia | apply Hpre].
  - apply (postJson_retry_policy 8 (flakyServer 409) 1);
      [lia | intros j Hj; apply Hpre; lia | exact I | lia].
  - apply (postJson_retry_policy 8 (flakyServer 404) 2);
      [lia | apply Hpre | reflexivity | lia | lia | lia].
  - apply (postJson_retry_policy 8 (flakyServer 409) 2);
      [lia | apply Hpre | reflexivity].
Defined.

End RetryFacts.


(** ** Queries on a collection *)

Section StoreFacts.
Import Firestore.

Lemma elem_of_docs (c : gmap DocId Employee) id d :
  (id, d) ∈ docs c ↔ c !! id = Some d.
Proof.
  unfold docs. rewrite merge_sort_Permutation. apply elem_of_map_to_list.
Qed.

Lemma whereEmailEq_Some (c : gmap DocId Employee) e ref d :
  whereEmailEq c e = Some (ref, d) → c !! ref = Some d ∧ email d = e.
Proof.
  unfold whereEmailEq. intros H.
  apply head_Some_elem_of, list_elem_of_filter in H.
  destruct H as [He Hin]. split; [apply elem_of_docs, Hin | exact He].
Qed.

Lemma whereEmailEq_None (c : gmap DocId Employee) e :
  whereEmailEq c e = None ↔ ∀ id d, c !! id = Some d → email d ≠ e.
Proof.
  unfold whereEmailEq. rewrite head_None. split.
  - intros Hnil id d Hlook He.
    assert ((id, d) ∈ filter (fun x => email x.2 = e) (docs c)) as Hin.
    { apply list_elem_of_filter. split; [exact He | apply elem_of_docs, Hlook]. }
    rewrite Hnil in Hin. inversion Hin.
  - intros Hnone.
    destruct (filter _ (docs c)) as [|[id d] l] eqn:Hf; [reflexivity|].
    assert ((id, d) ∈ filter (fun x => email x.2 = e) (docs c)) as Hin
        by (rewrite Hf; left).
    apply list_elem_of_filter in Hin as [He Hin].
    apply elem_of_docs in Hin. exfalso. exact (Hnone id d Hin He).
Qed.

End StoreFacts.

(** ** The delta processor *)

Section DeltaFacts.
Import JsString Firestore IngestDeltas Notions.

(** S2 of the spec, with a delta for an unknown employee added: charlie is
reactivated and keeps [lastSeenEpoch = 1]; dave is skipped and not created. *)
Example handleIngestDeltas_reactivate :
  (handleIngestDeltas 99
     {| orgId := Some "acme"; messages := Some [reactivateCharlie; leftDave] |}
     (withEmployees emptyStore "acme" roster)).1 = Json200 1 1
  ∧ docs (employees
            (handleIngestDeltas 99
               {| orgId := Some "acme";
                  messages := Some [reactivateCharlie; leftDave] |}
               (withEmployees emptyStore "acme" roster)).2 "acme")
    = [ (3%positive, alice);
        (5%positive,
         {| email := "charlie@x.com"; statusInOrg := "active";
            presentInLatest := true; lastSeenEpoch := 1; updatedAt := 99;
            source := "kafka:delta"; lastEventId := Some "42" |}) ].
Proof. vm_compute. split; reflexivity. Qed.

Lemma statusOfDelta_table deltaType :
  deltaType ∈ ["left"; "inactive"; "reactivated"] →
  ∃ st present,
    (deltaType, st, present) ∈ transitionTable
    ∧ statusOfDelta deltaType = Some st
    ∧ String.eqb deltaType "reactivated" = present.
Proof.
  intros H. repeat (apply elem_of_cons in H as [->|H]).
  - exists "left", false. repeat split. left.
  - exists "inactive", false. repeat split. right. left.
  - exists "active", true. repeat split. right. right. left.
  - inversion H.
Qed.

(** One iteration of the handler's loop, on any collection and counters:
a delta with a valid email and a delta type of the table.
(1) If the collection has no employee with that email, the collection is
left as it is (no document is created) and [skipped] is incremented.
(2) If it has one, exactly one existing document [ref] is updated: its
[statusInOrg] and [presentInLatest] are set from the transition table,
[updatedAt] to the time of the call, [source] to ["kafka:delta"],
[lastEventId] only when the message carries a truthy [eventId]; [email] and
[lastSeenEpoch] keep their values, every other document is untouched, no
document is added, and [processed] is incremented. *)
Lemma applyDelta_updates_existing_only
  now (c : gmap DocId Employee) nProcessed nSkipped message rawEmail :
  msg_email message = Some rawEmail →
  Status.isValidEmail (Some rawEmail) = true →
  msg_deltaType message ∈ ["left"; "inactive"; "reactivated"] →
  ((∀ id d, c !! id = Some d → email d ≠ trim (toLowerCase rawEmail)) →
   applyDelta now (c, nProcessed, nSkipped) message
   = (c, nProcessed, (nSkipped + 1)%N))
  ∧ ((∃ id d, c !! id = Some d ∧ email d = trim (toLowerCase rawEmail)) →
     ∃ ref old st present c',
       applyDelta now (c, nProcessed, nSkipped) message
       = (c', (nProcessed + 1)%N, nSkipped)
       ∧ c !! ref = Some old
       ∧ email old = trim (toLowerCase rawEmail)
       ∧ (msg_deltaType message, st, present) ∈ transitionTable
       ∧ c' !! ref
         = Some {| email := email old;
                   statusInOrg := st;
                   presentInLatest := present;
                   lastSeenEpoch := lastSeenEpoch old;
                   updatedAt := now;
                   source := "kafka:delta";
                   lastEventId :=
                     match lastEventIdOf (msg_eventId message) with
                     | Some ev => Some ev
                     | None => lastEventId old
                     end |}
       ∧ (∀ id, id ≠ ref → c' !! id = c !! id)
       ∧ dom c' = dom c).
Proof.
  intros Hemail Hvalid Htype.
  assert (truthy rawEmail = true) as Htruthy.
  { unfold Status.isValidEmail in Hvalid.
    apply andb_true_iff in Hvalid. apply Hvalid. }
  unfold applyDelta. rewrite Hemail, Htruthy, Hvalid. cbn [negb orb].
  split.
  - intros Hnone. apply whereEmailEq_None in Hnone. rewrite Hnone. reflexivity.
  - intros (id & d & Hlook & He).
    destruct (whereEmailEq c (trim (toLowerCase rawEmail)))
      as [[ref old]|] eqn:Hq.
    2:{ exfalso. rewrite whereEmailEq_None in Hq. exact (Hq id d Hlook He). }
    apply whereEmailEq_Some in Hq as [Hold Hmail].
    destruct (statusOfDelta_table _ Htype) as (st & present & Htab & Hst & Hpres).
    rewrite Hst.
    exists ref, old, st, present. eexists.
    split; [reflexivity|].
    split; [exact Hold|]. split; [exact Hmail|]. split; [exact Htab|].
    split; [|split].
    + rewrite lookup_alter_eq, Hold. cbn [fmap option_fmap option_map update].
      rewrite Hpres. reflexivity.
    + intros id' Hne. apply lookup_alter_ne. congruence.
    + apply dom_alter_L.
Qed.

Lemma applyDelta_updates_existing_only_witness :
  applyDelta 99 (roster, 0%N, 0%N) leftDave = (roster, 0%N, (0 + 1)%N)
  ∧ ∃ ref old st present c',
      applyDelta 99 (roster, 0%N, 0%N) reactivateCharlie
      = (c', (0 + 1)%N, 0%N)
      ∧ roster !! ref = Some old
      ∧ email old = trim (toLowerCase " Charlie@X.com ")
      ∧ (msg_deltaType reactivateCharlie, st, present) ∈ transitionTable
      ∧ c' !! ref
        = Some {| email := email old;
                  statusInOrg := st;
                  presentInLatest := present;
                  lastSeenEpoch := lastSeenEpoch old;
                  updatedAt := 99;
                  source := "kafka:delta";
                  lastEventId :=
                    match lastEventIdOf (msg_eventId reactivateCharlie) with
                    | Some ev => Some ev
                    | None => lastEventId old
                    end |}
      ∧ (∀ id, id ≠ ref → c' !! id = roster !! id)
      ∧ dom c' = dom roster.
Proof.
  split.
  - apply (applyDelta_updates_existing_only 99 roster 0%N 0%N leftDave
             "dave@x.com"); [reflexivity | reflexivity | | ].
    + cbn. left.
    + intros id d Hlook.
      unfold roster in Hlook.
      apply lookup_insert_Some in Hlook as [[_ <-]|[_ Hlook]];
        [vm_compute; discriminate|].
      apply lookup_singleton_Some in Hlook as [_ <-].
      vm_compute; discriminate.
  - apply (applyDelta_updates_existing_only 99 roster 0%N 0%N reactivateCharlie
             " Charlie@X.com "); [reflexivity | reflexivity | | ].
    + cbn. right. right. left.
    + exists 5%positive, charlie. split; vm_compute; reflexivity.
Defined.

End DeltaFacts.


(** ** The /ingest/email handler *)

Section EmailFacts.
Import JsString Firestore Email Notions.

Lemma upsertRow_threw now epoch rs : ∀ st,
  threw st = true → fold_left (upsertRow now epoch) rs st = st.
Proof.
  induction rs as [|r rs IH]; intros st Hst; cbn [fold_left]; [reflexivity|].
  assert (upsertRow now epoch st r = st) as ->
      by (unfold upsertRow; rewrite Hst; reflexivity).
  apply IH, Hst.
Qed.

(** One row either is rejected and counted in [skipped], or costs one write
and is counted in [processed], or makes the handler throw. *)
Lemma upsertRow_counts now epoch st r :
  threw st = false →
  threw (upsertRow now epoch st r) = true
  ∨ (threw (upsertRow now epoch st r) = false
     ∧ processed (upsertRow now epoch st r)
       = (processed st + (if isRejectedRow r then 0 else 1))%nat
     ∧ skipped (upsertRow now epoch st r)
       = (skipped st + (if isRejectedRow r then 1 else 0))%nat).
Proof.
  intros Hst. unfold upsertRow, isRejectedRow. rewrite Hst.
  destruct (Status.normalizeRow r) as [[n|]|].
  - destruct (Status.statusInOrg n); try (left; reflexivity).
    right. destruct (whereEmailEq _ _) as [[ref d]|]; cbn; repeat split; lia.
  - right. cbn. repeat split; lia.
  - left. reflexivity.
Qed.

Lemma upsertRows_count now epoch rs : ∀ st,
  threw st = false →
  threw (fold_left (upsertRow now epoch) rs st) = false →
  processed (fold_left (upsertRow now epoch) rs st)
  = (processed st + length (filter (fun r => isRejectedRow r = false) rs))%nat
  ∧ skipped (fold_left (upsertRow now epoch) rs st)
    = (skipped st + length (filter (fun r => isRejectedRow r = true) rs))%nat.
Proof.
  induction rs as [|r rs IH]; intros st Hst Hend; cbn [fold_left] in *.
  - rewrite !filter_nil. cbn. lia.
  - destruct (upsertRow_counts now epoch st r Hst) as [Hthrew|(Hok & Hp & Hs)].
    + rewrite (upsertRow_threw _ _ _ _ Hthrew) in Hend. congruence.
    + destruct (IH _ Hok Hend) as [IHp IHs].
      rewrite IHp, IHs, Hp, Hs, !filter_cons.
      destruct (isRejectedRow r); repeat case_decide; try congruence;
        cbn [length]; lia.
Qed.

Lemma length_filter_split (rs : list Status.RawEmployee) :
  (length (filter (fun r => isRejectedRow r = false) rs)
   + length (filter (fun r => isRejectedRow r = true) rs) = length rs)%nat.
Proof.
  induction rs as [|r rs IH]; [reflexivity|].
  rewrite !filter_cons.
  destruct (isRejectedRow r); repeat case_decide; try congruence;
    cbn [length]; lia.
Qed.

(** C10: on the upsert path, when the handlers complete, the response of
[handleEmail] reports [processed = rows.length], while the rows that
[handleUpserts] wrote to the store (its own [processed] counter, one per
[set] call) are only those that [normalizeRow] accepted; with a rejected row
in the input the reported number is strictly greater. *)
Theorem handleEmail_reports_all_rows commitFails fuel now payload db org h :
  orElse (orgId payload) None = Some org →
  requestedKind payload = "upserts" →
  handleUpserts commitFails fuel now org (rows payload)
    (orElse (orgName payload)
       (match rows payload with
        | r :: _ => Status.raw_orgName r
        | [] => None
        end)) db = Some h →
  rejected h = false →
  (∃ row, row ∈ rows payload ∧ isRejectedRow row = true) →
  handleEmail commitFails fuel now payload db
  = Some (Json200 (length (rows payload)) "upserts", db_after h)
  ∧ processed (counted h)
    = length (filter (fun r => isRejectedRow r = false) (rows payload))
  ∧ (processed (counted h) + skipped (counted h) = length (rows payload))%nat
  ∧ (processed (counted h) < length (rows payload))%nat.
Proof.
  intros Horg Hkind Hup Hrej (row & Hin & Hbad).
  assert (rows payload ≠ []) as Hne by (intros E; rewrite E in Hin; inversion Hin).
  split.
  - unfold handleEmail. rewrite Horg, Hkind.
    destruct (rows payload) as [|r rs]; [contradiction|].
    change ("upserts" =? "upserts")%string with true.
    cbn iota. rewrite Hup, Hrej. reflexivity.
  - revert Hup. unfold handleUpserts.
    destruct (Finalize.beginRun _ _ _ _) as [epoch db1].
    set (st := fold_left _ _ _).
    destruct (threw st) eqn:Hthrew.
    { intros [= <-]. discriminate. }
    destruct (Finalize.finalizeRun _ _ _ _ _ _) as [[db3|db3]|];
      intros [= <-]; try discriminate.
    cbn [counted].
    destruct (upsertRows_count now epoch (rows payload)
                {| coll := employeesRef db1 org; processed := 0;
                   skipped := 0; threw := false |} eq_refl Hthrew)
      as [Hp Hs].
    fold st in Hp, Hs. cbn [processed skipped] in Hp, Hs.
    pose proof (length_filter_split (rows payload)) as Hsplit.
    assert (0 < length (filter (fun r => isRejectedRow r = true) (rows payload)))%nat.
    { assert (row ∈ filter (fun r => isRejectedRow r = true) (rows payload)) as Hf
          by (apply list_elem_of_filter; split; assumption).
      destruct (filter (fun r => isRejectedRow r = true) (rows payload));
        [inversion Hf | cbn [length]; lia]. }
    repeat split; lia.
Qed.

Lemma handleEmail_reports_all_rows_witness :
  ∃ h,
    handleUpserts (fun _ => false) 3 50 "acme" (rows mixedPayload) None
             emptyStore = Some h
    ∧ handleEmail (fun _ => false) 3 50 mixedPayload emptyStore
      = Some (Json200 2 "upserts", db_after h)
    ∧ processed (counted h) = 1%nat
    ∧ (processed (counted h) < 2)%nat.
Proof.
  destruct (handleUpserts (fun _ => false) 3 50 "acme" (rows mixedPayload) None
             emptyStore)
    as [h|] eqn:Hup; [|vm_compute in Hup; discriminate].
  assert (rejected h = false) as Hrej.
  { assert (match handleUpserts (fun _ => false) 3 50 "acme" (rows mixedPayload) None
             emptyStore
            with
            | Some h' => rejected h'
            | None => true
            end = false) as Hc by (vm_compute; reflexivity).
    rewrite Hup in Hc. exact Hc. }
  exists h. split; [reflexivity|].
  destruct (handleEmail_reports_all_rows (fun _ => false) 3 50 mixedPayload
              emptyStore "acme" h)
    as (Hresp & Hcount & _ & Hlt).
  - reflexivity.
  - reflexivity.
  - exact Hup.
  - exact Hrej.
  - exists (rawRow "not-an-email" "active"). split; [left | reflexivity].
  - split; [exact Hresp|]. split; [exact Hcount | exact Hlt].
Defined.

(** The same run, looked at in the store: the response says 2, the
organization has one employee document. *)
Example handleEmail_mixed_store :
  match handleEmail (fun _ => false) 3 50 mixedPayload emptyStore with
  | Some (Json200 n _, db') =>
      n = 2%nat
      ∧ map_to_list (employees db' "acme")
        = [(1%positive,
            {| email := "alice@x.com"; statusInOrg := "active";
               presentInLatest := true; lastSeenEpoch := 1; updatedAt := 50;
               source := "email:upsert"; lastEventId := None |})]
      ∧ organizations db' !! "acme"
        = Some {| currentEpoch := Some 1%Z; lastFinalizedEpoch := Some 1%Z;
                  name := None; org_updatedAt := 50 |}
  | _ => False
  end.
Proof. vm_compute. repeat split; reflexivity. Qed.

End EmailFacts.


(** ** Deduplication: the last occurrence wins *)

Section DedupFacts.
Import JsString Firestore Optimizer Notions.

Example deduplicateEmails_bobTwice :
  deduplicateEmails bobTwice = ["bob@x.com"; "alice@x.com"].
Proof. reflexivity. Qed.

Example prepareEmployeeData_bobTwice :
  (fun i => (item_email i, statusInOrg (item_data i), item_ref i))
    <$> prepareEmployeeData bobTwice {[ "alice@x.com" := 3%positive ]} 2 77
  = [("bob@x.com", "inactive", None); ("alice@x.com", "active", Some 3%positive)].
Proof. vm_compute. reflexivity. Qed.

Lemma mapGet_None {V} (m : list (string * V)) k :
  mapGet m k = None ↔ k ∉ m.*1.
Proof.
  induction m as [|[k' v] m IH]; cbn [mapGet fmap list_fmap fst].
  - split; [intros _ H; inversion H | reflexivity].
  - rewrite not_elem_of_cons.
    destruct (String.eqb_spec k' k) as [->|Hne].
    + split; [discriminate | intros [H _]; contradiction].
    + rewrite IH. split; [intros H; split; [congruence | exact H] | intros [_ H]; exact H].
Qed.

Lemma mapSet_fresh {V} (m : list (string * V)) k v :
  mapGet m k = None → mapSet m k v = (m ++ [(k, v)])%list.
Proof.
  induction m as [|[k' v'] m IH]; cbn [mapGet mapSet app]; [reflexivity|].
  destruct (String.eqb k' k); [discriminate|].
  intros H. rewrite (IH H). reflexivity.
Qed.

Lemma lastOccurrence_None e ms :
  lastOccurrence e ms = None ↔ ∀ m, m ∈ ms → normalizedEmail m ≠ Some e.
Proof.
  induction ms as [|m ms IH]; cbn [lastOccurrence].
  - split; [intros _ m H; inversion H | reflexivity].
  - destruct (lastOccurrence e ms) as [m'|].
    + split; [discriminate|]. intros H. exfalso.
      assert (Some m' = None) as Habs; [|discriminate].
      apply IH. intros m0 Hin. apply H. right. exact Hin.
    + case_bool_decide as Hm.
      * split; [discriminate|]. intros H. exfalso. exact (H m ltac:(left) Hm).
      * split; [|reflexivity]. intros _ m0 Hin.
        apply elem_of_cons in Hin as [->|Hin]; [exact Hm|].
        apply IH; [reflexivity | exact Hin].
Qed.

(** [lastOccurrence] spelled out with positions. *)
Lemma lastOccurrence_Some e ms m :
  lastOccurrence e ms = Some m →
  ∃ i, ms !! i = Some m
       ∧ normalizedEmail m = Some e
       ∧ ∀ j m', (i < j)%nat → ms !! j = Some m' → normalizedEmail m' ≠ Some e.
Proof.
  revert m. induction ms as [|m0 ms IH]; intros m; cbn [lastOccurrence].
  - discriminate.
  - destruct (lastOccurrence e ms) as [m'|] eqn:Hrest.
    + intros [= <-]. destruct (IH m' eq_refl) as (i & Hi & He & Hlast).
      exists (S i). split; [exact Hi|]. split; [exact He|].
      intros [|j] m'' Hlt Hj; [lia|]. apply (Hlast j m''); [lia | exact Hj].
    + case_bool_decide as Hm; [|discriminate].
      intros [= <-]. exists 0%nat. split; [reflexivity|]. split; [exact Hm|].
      intros [|j] m'' Hlt Hj; [lia|]. cbn in Hj.
      rewrite lastOccurrence_None in Hrest. apply Hrest.
      apply list_elem_of_lookup. exists j. exact Hj.
Qed.

Lemma dedup_cons m ms :
  fold_left dedupStep (rev (m :: ms)) []
  = dedupStep (fold_left dedupStep (rev ms) []) m.
Proof. cbn [rev]. rewrite fold_left_app. reflexivity. Qed.

Lemma prepare_cons existing epoch now m ms :
  fold_left (prepareStep existing epoch now) (rev (m :: ms)) ([], ∅)
  = prepareStep existing epoch now
      (fold_left (prepareStep existing epoch now) (rev ms) ([], ∅)) m.
Proof. cbn [rev]. rewrite fold_left_app. reflexivity. Qed.

Lemma mapHas_true {V} (m : list (string * V)) k :
  mapHas m k = true ↔ k ∈ m.*1.
Proof.
  unfold mapHas. pose proof (mapGet_None m k) as H.
  destruct (mapGet m k).
  - split; [intros _ | reflexivity].
    destruct (decide (k ∈ m.*1)) as [Hin|Hnin]; [exact Hin|].
    apply H in Hnin. discriminate.
  - split; [discriminate|]. intros Hin. exfalso. apply H; [reflexivity | exact Hin].
Qed.

Lemma lastOccurrence_later e m ms m0 :
  lastOccurrence e ms = Some m0 → lastOccurrence e (m :: ms) = Some m0.
Proof. intros H. cbn [lastOccurrence]. rewrite H. reflexivity. Qed.

(** What the two reverse loops have built after the messages [ms]: the
same emails in the same order, each once, exactly the truthy normalized
emails of [ms], and each prepared from the last occurrence of its email. *)
Lemma prepare_invariant existing epoch now ms :
  item_email <$> (fold_left (prepareStep existing epoch now) (rev ms) ([], ∅)).1
  = (fold_left dedupStep (rev ms) []).*1
  ∧ (∀ e, e ∈ (fold_left (prepareStep existing epoch now) (rev ms) ([], ∅)).2
          ↔ e ∈ (fold_left dedupStep (rev ms) []).*1)
  ∧ NoDup (fold_left dedupStep (rev ms) []).*1
  ∧ (∀ e, e ∈ (fold_left dedupStep (rev ms) []).*1
          ↔ truthy e = true ∧ ∃ m, m ∈ ms ∧ normalizedEmail m = Some e)
  ∧ (∀ item,
       item ∈ (fold_left (prepareStep existing epoch now) (rev ms) ([], ∅)).1 →
       ∃ m, lastOccurrence (item_email item) ms = Some m
            ∧ item_data item
              = {| email := item_email item;
                   statusInOrg := statusOrActive (msg_statusInOrg m);
                   presentInLatest := true;
                   lastSeenEpoch := epoch;
                   updatedAt := now;
                   source := "kafka:upsert";
                   lastEventId := lastEventIdOf (msg_eventId m) |}
            ∧ item_ref item = existing !! item_email item).
Proof.
  induction ms as [|m ms IH].
  - cbn. split; [reflexivity|]. split; [set_solver|]. split; [constructor|].
    split.
    + intros e. split; [intros H; inversion H|].
      intros (_ & m & Hin & _). inversion Hin.
    + intros item H. inversion H.
  - rewrite prepare_cons, dedup_cons.
    destruct (fold_left (prepareStep existing epoch now) (rev ms) ([], ∅))
      as [items seen].
    set (emap := fold_left dedupStep (rev ms) []) in *.
    cbn [fst snd] in IH.
    destruct IH as (IHeq & IHseen & IHnd & IHmem & IHitems).
    unfold prepareStep, dedupStep.
    destruct (normalizedEmail m) as [e|] eqn:He.
    2:{ (* no email: the message is skipped *)
      cbn [fst snd]. split; [exact IHeq|]. split; [exact IHseen|].
      split; [exact IHnd|]. split.
      - intros e. rewrite IHmem. split.
        + intros (Ht & m' & Hin & Hm'). split; [exact Ht|].
          exists m'. split; [right; exact Hin | exact Hm'].
        + intros (Ht & m' & Hin & Hm'). split; [exact Ht|].
          apply elem_of_cons in Hin as [->|Hin]; [congruence|].
          exists m'. split; assumption.
      - intros item Hin. destruct (IHitems item Hin) as (m0 & Hlast & Hrest).
        exists m0. split; [apply lastOccurrence_later, Hlast | exact Hrest]. }
    destruct (truthy e) eqn:Ht; cbn [negb orb andb].
    2:{ (* empty email: skipped *)
      cbn [fst snd]. split; [exact IHeq|]. split; [exact IHseen|].
      split; [exact IHnd|]. split.
      - intros e'. rewrite IHmem. split.
        + intros (Ht' & m' & Hin & Hm'). split; [exact Ht'|].
          exists m'. split; [right; exact Hin | exact Hm'].
        + intros (Ht' & m' & Hin & Hm'). split; [exact Ht'|].
          apply elem_of_cons in Hin as [->|Hin]; [congruence|].
          exists m'. split; assumption.
      - intros item Hin. destruct (IHitems item Hin) as (m0 & Hlast & Hrest).
        exists m0. split; [apply lastOccurrence_later, Hlast | exact Hrest]. }
    case_bool_decide as Hseen.
    + (* a later message has this email already: skipped *)
      assert (mapHas emap e = true) as -> by (apply mapHas_true, IHseen, Hseen).
      cbn [negb fst snd]. split; [exact IHeq|]. split; [exact IHseen|].
      split; [exact IHnd|]. split.
      * intros e'. rewrite IHmem. split.
        -- intros (Ht' & m' & Hin & Hm'). split; [exact Ht'|].
           exists m'. split; [right; exact Hin | exact Hm'].
        -- intros (Ht' & m' & Hin & Hm').
           apply elem_of_cons in Hin as [->|Hin].
           ++ assert (e' = e) as -> by congruence.
              apply IHmem, IHseen, Hseen.
           ++ split; [exact Ht'|]. exists m'. split; assumption.
      * intros item Hin. destruct (IHitems item Hin) as (m0 & Hlast & Hrest).
        exists m0. split; [apply lastOccurrence_later, Hlast | exact Hrest].
    + (* first time, seen from the end: prepared from this message *)
      assert (e ∉ emap.*1) as Hfresh by (rewrite <- IHseen; exact Hseen).
      assert (mapHas emap e = false) as ->.
      { destruct (mapHas emap e) eqn:Hh; [|reflexivity].
        apply mapHas_true in Hh. contradiction. }
      cbn [negb fst snd].
      rewrite mapSet_fresh by (apply mapGet_None, Hfresh).
      rewrite !fmap_app. cbn [fmap list_fmap fst item_email].
      split; [rewrite IHeq; reflexivity|]. split; [|split; [|split]].
      * intros e'. rewrite elem_of_union, elem_of_singleton, elem_of_app,
          list_elem_of_singleton, IHseen. tauto.
      * apply NoDup_app. split; [exact IHnd|]. split; [|apply NoDup_singleton].
        intros x Hx Hx'. apply list_elem_of_singleton in Hx'. congruence.
      * intros e'. rewrite elem_of_app, list_elem_of_singleton, IHmem. split.
        -- intros [(Ht' & m' & Hin & Hm')| ->].
           ++ split; [exact Ht'|]. exists m'. split; [right; exact Hin | exact Hm'].
           ++ split; [exact Ht|]. exists m. split; [left | exact He].
        -- intros (Ht' & m' & Hin & Hm').
           apply elem_of_cons in Hin as [->|Hin].
           ++ right. congruence.
           ++ left. split; [exact Ht'|]. exists m'. split; assumption.
      * intros item Hin. apply elem_of_app in Hin as [Hin|Hin].
        -- destruct (IHitems item Hin) as (m0 & Hlast & Hrest).
           exists m0. split; [apply lastOccurrence_later, Hlast | exact Hrest].
        -- apply list_elem_of_singleton in Hin as ->. cbn [item_email item_data item_ref].
           exists m. split; [|split; reflexivity].
           cbn [lastOccurrence].
           assert (lastOccurrence e ms = None) as ->.
           { apply lastOccurrence_None. intros m' Hin' Hm'.
             apply Hfresh, IHmem. split; [exact Ht|].
             exists m'. split; assumption. }
           rewrite bool_decide_eq_true_2 by exact He. reflexivity.
Qed.

End DedupFacts.


(** ** Batched writes *)

Section WriteFacts.
Import JsString Firestore Optimizer Notions.

Lemma concat_chunksOf {A} (size : nat) : ∀ fuel (l : list A),
  (0 < size)%nat → (length l <= fuel)%nat → concat (chunksOf fuel size l) = l.
Proof.
  induction fuel as [|fuel IH]; intros l Hsize Hlen.
  - destruct l; [reflexivity | cbn in Hlen; lia].
  - destruct l as [|x l]; [reflexivity|].
    cbn [chunksOf concat].
    rewrite IH; [apply take_drop | exact Hsize |].
    rewrite length_drop. cbn [length] in *. lia.
Qed.

Lemma concat_chunk {A} (size : nat) (l : list A) :
  (0 < size)%nat → concat (chunk size l) = l.
Proof. intros H. apply concat_chunksOf; [exact H | reflexivity]. Qed.

(** A wave writes the items of the batches whose commit went through, in
order, and nothing else. *)
Lemma runWave_written env : ∀ wave idx c p e,
  ∃ written,
    written `sublist_of` concat wave
    ∧ (runWave env idx wave (c, p, e)).1.1 = fold_left applyItem written c
    ∧ (runWave env idx wave (c, p, e)).1.2 = (p + N.of_nat (length written))%N
    ∧ ((∀ k, commitFails env k = false) → written = concat wave).
Proof.
  induction wave as [|batch wave IH]; intros idx c p e; cbn [runWave concat].
  - exists []. cbn. repeat split; [constructor | lia].
  - destruct (commitFails env idx) eqn:Hfail.
    + destruct (IH (S idx) c p (e + 1)%N) as (w & Hsub & Hc & Hp & Hall).
      exists w. split; [apply sublist_inserts_l, Hsub|].
      split; [exact Hc|]. split; [exact Hp|].
      intros Hok. rewrite Hok in Hfail. discriminate.
    + unfold commitBatch.
      destruct (IH (S idx) (fold_left applyItem batch c)
                  (p + N.of_nat (length batch))%N e)
        as (w & Hsub & Hc & Hp & Hall).
      exists (batch ++ w)%list.
      split; [apply sublist_app; [reflexivity | exact Hsub]|].
      split; [rewrite Hc, fold_left_app; reflexivity|].
      split; [rewrite Hp, length_app; lia|].
      intros Hok. rewrite (Hall Hok). reflexivity.
Qed.

Lemma runWaves_written env : ∀ waves idx c p e size,
  ∃ written,
    written `sublist_of` concat (concat waves)
    ∧ (runWaves env idx waves (c, p, e) size).1.1.1
      = fold_left applyItem written c
    ∧ (runWaves env idx waves (c, p, e) size).1.1.2
      = (p + N.of_nat (length written))%N
    ∧ ((∀ k, commitFails env k = false) → written = concat (concat waves)).
Proof.
  induction waves as [|wave waves IH]; intros idx c p e size;
    cbn [runWaves concat].
  - exists []. cbn. repeat split; [constructor | lia].
  - destruct (runWave_written env wave idx c p e) as (w1 & Hsub1 & Hc1 & Hp1 & Hall1).
    destruct (runWave env idx wave (c, p, e)) as [[c1 p1] e1].
    cbn [fst snd] in Hc1, Hp1. subst c1 p1.
    destruct (IH (idx + length wave)%nat (fold_left applyItem w1 c)
                (p + N.of_nat (length w1))%N e1
                (adaptBatchSize e1 (p + N.of_nat (length w1)) size))
      as (w2 & Hsub2 & Hc2 & Hp2 & Hall2).
    exists (w1 ++ w2)%list.
    split; [rewrite concat_app; apply sublist_app; assumption|].
    split; [rewrite Hc2, fold_left_app; reflexivity|].
    split; [rewrite Hp2, length_app; lia|].
    intros Hok. rewrite (Hall1 Hok), (Hall2 Hok), concat_app. reflexivity.
Qed.

Lemma writeBatches_written env c items o :
  (0 < currentBatchSize o)%Z →
  ∃ written,
    written `sublist_of` items
    ∧ (writeBatches env c items o).1.2 = fold_left applyItem written c
    ∧ processed (writeBatches env c items o).1.1 = N.of_nat (length written)
    ∧ ((∀ k, commitFails env k = false) → written = items).
Proof.
  intros Hsize. unfold writeBatches.
  destruct (runWaves_written env
              (chunk CONFIG.MAX_PARALLEL_BATCHES
                 (chunk (Z.to_nat (currentBatchSize o)) items))
              0%nat c 0%N 0%N (currentBatchSize o))
    as (w & Hsub & Hc & Hp & Hall).
  rewrite !concat_chunk in Hsub, Hall
    by (try (unfold CONFIG.MAX_PARALLEL_BATCHES); lia).
  destruct (runWaves _ _ _ _ _) as [[[c' p'] e'] size'].
  cbn [fst snd processed] in *.
  exists w. split; [exact Hsub|]. split; [exact Hc|]. split; [lia | exact Hall].
Qed.

End WriteFacts.


(** ** One reconciler invocation *)

Section ProcessUpsertsFacts.
Import JsString Firestore Optimizer Notions.

Lemma canProceed_batchSize now o :
  currentBatchSize (canProceed now o).2 = currentBatchSize o.
Proof.
  unfold canProceed. destruct (circuitState o); try reflexivity.
  destruct (_ >? _)%Z; reflexivity.
Qed.

(** Whatever the lookup returns and whichever commits fail: an invocation
that the circuit breaker lets through prepares, for
some lookup result [existing], one update per normalized (lowercased,
trimmed) non-empty email of the input: the prepared emails are those of
[deduplicateEmails], each exactly once; every prepared update is made from
the last message of the input with that email, and carries that message's
[statusInOrg] (['active'] when it has none). The store is changed by
applying prepared updates only, each at most once and in order: those of
the batches whose commit succeeded, which is all of them when no commit
fails. *)
Lemma processUpserts_last_occurrence_wins
  env orgId messages epochNumber o db :
  (canProceed (now env) o).1 = true →
  (0 < currentBatchSize o)%Z →
  ∃ existing written r o',
    processUpserts env orgId messages epochNumber o db
    = (Resolved r, o',
       withEmployees db orgId
         (fold_left applyItem written (employeesRef db orgId)))
    ∧ item_email <$> prepareEmployeeData messages existing epochNumber (now env)
      = deduplicateEmails messages
    ∧ NoDup (deduplicateEmails messages)
    ∧ (∀ e, e ∈ deduplicateEmails messages
            ↔ truthy e = true
              ∧ ∃ m, m ∈ messages ∧ normalizedEmail m = Some e)
    ∧ written `sublist_of`
        prepareEmployeeData messages existing epochNumber (now env)
    ∧ ((∀ k, commitFails env k = false) →
       written = prepareEmployeeData messages existing epochNumber (now env))
    ∧ (∀ item,
         item ∈ prepareEmployeeData messages existing epochNumber (now env) →
         ∃ i m,
           messages !! i = Some m
           ∧ normalizedEmail m = Some (item_email item)
           ∧ (∀ j m', (i < j)%nat → messages !! j = Some m' →
                      normalizedEmail m' ≠ Some (item_email item))
           ∧ email (item_data item) = item_email item
           ∧ statusInOrg (item_data item)
             = statusOrActive (msg_statusInOrg m)).
Proof.
  intros Hcan Hsize. unfold processUpserts.
  pose proof (canProceed_batchSize (now env) o) as Hsize0.
  destruct (canProceed (now env) o) as [ok o0]. cbn [fst snd] in Hcan, Hsize0.
  subst ok. cbn [negb].
  pose proof (loadExistingEmployees_circuit env orgId (employeesRef db orgId)
                (deduplicateEmails messages) o0) as (_ & _ & Hsize1).
  destruct (loadExistingEmployees _ _ _ _ _) as [existing o1].
  cbn [snd] in Hsize1.
  destruct (writeBatches_written env (employeesRef db orgId)
              (prepareEmployeeData messages existing epochNumber (now env)) o1)
    as (written & Hsub & Hstore & _ & Hall); [lia|].
  destruct (writeBatches _ _ _ _) as [[r c'] o2]. cbn [fst snd] in Hstore.
  subst c'.
  destruct (prepare_invariant existing epochNumber (now env) messages)
    as (Heq & _ & Hnd & Hmem & Hitems).
  exists existing, written, r, (updateMetrics (now env) r o2).
  split; [reflexivity|]. split; [exact Heq|]. split; [exact Hnd|].
  split; [exact Hmem|]. split; [exact Hsub|]. split; [exact Hall|].
  intros item Hin. destruct (Hitems item Hin) as (m & Hlast & Hdata & _).
  destruct (lastOccurrence_Some _ _ _ Hlast) as (i & Hi & He & Hafter).
  exists i, m. split; [exact Hi|]. split; [exact He|]. split; [exact Hafter|].
  rewrite Hdata. split; reflexivity.
Qed.

Lemma processUpserts_last_occurrence_wins_witness :
  ∃ existing written r o',
    processUpserts (healthyEnv 77) "acme" bobTwice 2 constructor emptyStore
    = (Resolved r, o',
       withEmployees emptyStore "acme"
         (fold_left applyItem written (employeesRef emptyStore "acme")))
    ∧ item_email <$> prepareEmployeeData bobTwice existing 2 77
      = deduplicateEmails bobTwice
    ∧ NoDup (deduplicateEmails bobTwice)
    ∧ (∀ e, e ∈ deduplicateEmails bobTwice
            ↔ truthy e = true
              ∧ ∃ m, m ∈ bobTwice ∧ normalizedEmail m = Some e)
    ∧ written `sublist_of` prepareEmployeeData bobTwice existing 2 77
    ∧ ((∀ k, commitFails (healthyEnv 77) k = false) →
       written = prepareEmployeeData bobTwice existing 2 77)
    ∧ (∀ item,
         item ∈ prepareEmployeeData bobTwice existing 2 77 →
         ∃ i m,
           bobTwice !! i = Some m
           ∧ normalizedEmail m = Some (item_email item)
           ∧ (∀ j m', (i < j)%nat → bobTwice !! j = Some m' →
                      normalizedEmail m' ≠ Some (item_email item))
           ∧ email (item_data item) = item_email item
           ∧ statusInOrg (item_data item)
             = statusOrActive (msg_statusInOrg m)).
Proof.
  apply (processUpserts_last_occurrence_wins (healthyEnv 77) "acme" bobTwice 2
           constructor emptyStore); [reflexivity | reflexivity].
Defined.

(** S4 of the spec, run: one bob document, with the status of the later
of the two rows. *)
Example processUpserts_bobTwice_store :
  docs
    (employees
       (processUpserts (healthyEnv 77) "acme" bobTwice 2 constructor
          emptyStore).2 "acme")
  = [ (1%positive,
       {| email := "bob@x.com"; statusInOrg := "inactive";
          presentInLatest := true; lastSeenEpoch := 2; updatedAt := 77;
          source := "kafka:upsert"; lastEventId := None |});
      (2%positive,
       {| email := "alice@x.com"; statusInOrg := "active";
          presentInLatest := true; lastSeenEpoch := 2; updatedAt := 77;
          source := "kafka:upsert"; lastEventId := None |}) ].
Proof. vm_compute. reflexivity. Qed.

(** Two invocations for the same organization. When the second comes after
the cache entry of the first has expired, it finds alice's document and
updates it. When it comes within [CACHE_TTL_MS], the lookup is answered from
the entry cached by the first invocation, made before alice existed, and a
second alice document is created. *)
Example second_invocation_after_ttl :
  docs
    (employees
       (processUpserts (healthyEnv 400000) "acme"
          [upsert "alice@x.com" "inactive"] 2
          (processUpserts (healthyEnv 1000) "acme"
             [upsert "alice@x.com" "active"] 1 constructor emptyStore).1.2
          (processUpserts (healthyEnv 1000) "acme"
             [upsert "alice@x.com" "active"] 1 constructor emptyStore).2).2
       "acme")
  = [ (1%positive,
       {| email := "alice@x.com"; statusInOrg := "inactive";
          presentInLatest := true; lastSeenEpoch := 2; updatedAt := 400000;
          source := "kafka:upsert"; lastEventId := None |}) ].
Proof. vm_compute. reflexivity. Qed.

Example second_invocation_within_ttl :
  docs
    (employees
       (processUpserts (healthyEnv 2000) "acme"
          [upsert "alice@x.com" "inactive"] 2
          (processUpserts (healthyEnv 1000) "acme"
             [upsert "alice@x.com" "active"] 1 constructor emptyStore).1.2
          (processUpserts (healthyEnv 1000) "acme"
             [upsert "alice@x.com" "active"] 1 constructor emptyStore).2).2
       "acme")
  = [ (1%positive,
       {| email := "alice@x.com"; statusInOrg := "active";
          presentInLatest := true; lastSeenEpoch := 1; updatedAt := 1000;
          source := "kafka:upsert"; lastEventId := None |});
      (2%positive,
       {| email := "alice@x.com"; statusInOrg := "inactive";
          presentInLatest := true; lastSeenEpoch := 2; updatedAt := 2000;
          source := "kafka:upsert"; lastEventId := None |}) ].
Proof. vm_compute. reflexivity. Qed.

End ProcessUpsertsFacts.


(** ** The finalizer *)

Section FinalizeFacts.
Import Firestore Finalize Notions.
Local Open Scope list_scope.

#[local] Instance byEpoch_total : Total byEpoch.
Proof. intros a b. unfold byEpoch. lia. Qed.

#[local] Instance byEpoch_transitive : Transitive byEpoch.
Proof. intros a b c. unfold byEpoch. lia. Qed.

Lemma elem_of_matching (c : gmap DocId Employee) E id d :
  (id, d) ∈ matching c E ↔ c !! id = Some d ∧ stale E d = true.
Proof.
  unfold matching. rewrite list_elem_of_filter, elem_of_map_to_list.
  cbn [snd]. tauto.
Qed.

Lemma NoDup_matching_fst (c : gmap DocId Employee) E :
  NoDup (matching c E).*1.
Proof.
  apply NoDup_fmap_fst.
  - intros id d1 d2 H1 H2.
    apply elem_of_matching in H1 as [H1 _], H2 as [H2 _]. congruence.
  - apply NoDup_filter, NoDup_map_to_list.
Qed.

(** In a page-ordered list without repeated ids, a later document is
strictly after an earlier one. *)
Lemma sorted_strictly_after (l1 l2 : list (DocId * Employee)) x y :
  StronglySorted byEpoch (l1 ++ l2) → NoDup (l1 ++ l2).*1 →
  x ∈ l1 → y ∈ l2 → ¬ byEpoch y x.
Proof.
  intros Hsorted Hnd Hx Hy Hyx.
  pose proof (StronglySorted_app_1_elem_of _ _ _ _ _ Hsorted Hx Hy) as Hxy.
  assert (x.1 = y.1) as Heq by (unfold byEpoch in *; lia).
  rewrite fmap_app in Hnd. apply NoDup_app in Hnd as (_ & Hdisj & _).
  apply (Hdisj x.1).
  - apply list_elem_of_fmap. exists x. split; [reflexivity | exact Hx].
  - apply list_elem_of_fmap. exists y. split; [exact Heq | exact Hy].
Qed.

Lemma markAbsent_idempotent now d :
  markAbsent now (markAbsent now d) = markAbsent now d.
Proof. reflexivity. Qed.

Lemma commitPage_lookup now : ∀ page (c : gmap DocId Employee) id,
  commitPage now page c !! id
  = if decide (id ∈ page.*1) then markAbsent now <$> c !! id else c !! id.
Proof.
  induction page as [|[i d] page IH]; intros c id;
    unfold commitPage in *; cbn [fold_left].
  - rewrite decide_False; [reflexivity | intros H; inversion H].
  - rewrite IH. cbn [fmap list_fmap fst snd].
    destruct (decide (id = i)) as [->|Hne].
    + rewrite lookup_alter_eq.
      rewrite (decide_True (P := i ∈ i :: page.*1)) by left.
      destruct (decide (i ∈ page.*1)); [|reflexivity].
      destruct (c !! i); reflexivity.
    + rewrite lookup_alter_ne by congruence.
      destruct (decide (id ∈ page.*1)) as [Hin|Hnin].
      * rewrite decide_True by (right; exact Hin). reflexivity.
      * rewrite decide_False; [reflexivity|].
        intros H. apply elem_of_cons in H as [?|?]; contradiction.
Qed.

Lemma swept_not_stale now E d : stale E (swept now E d) = false.
Proof.
  unfold swept. destruct (stale E d) eqn:H; [reflexivity | exact H].
Qed.

(** Committing a page of matching documents does to them what the sweep
is to do, and the result of sweeping is the same before and after. *)
Lemma commitPage_swept now E page (c : gmap DocId Employee) :
  (∀ x, x ∈ page → x ∈ matching c E) →
  swept now E <$> commitPage now page c = swept now E <$> c.
Proof.
  intros Hpage. apply map_eq. intros id.
  rewrite !lookup_fmap, commitPage_lookup.
  destruct (decide (id ∈ page.*1)) as [Hin|]; [|reflexivity].
  apply list_elem_of_fmap in Hin as ([i d] & -> & Hin). cbn [fst].
  apply Hpage, elem_of_matching in Hin as [Hlook Hstale].
  rewrite Hlook. cbn [fmap option_fmap option_map]. f_equal.
  unfold swept. rewrite Hstale. reflexivity.
Qed.

Lemma commitPage_all now E page (c : gmap DocId Employee) :
  (∀ x, x ∈ page ↔ x ∈ matching c E) →
  commitPage now page c = swept now E <$> c.
Proof.
  intros Hpage. apply map_eq. intros id.
  rewrite lookup_fmap, commitPage_lookup.
  destruct (c !! id) as [d|] eqn:Hlook.
  2:{ destruct (decide _); reflexivity. }
  cbn [fmap option_fmap option_map]. unfold swept.
  destruct (stale E d) eqn:Hstale.
  - rewrite decide_True; [reflexivity|].
    apply list_elem_of_fmap. exists (id, d). split; [reflexivity|].
    apply Hpage, elem_of_matching. split; assumption.
  - rewrite decide_False; [reflexivity|].
    intros Hin. apply list_elem_of_fmap in Hin as ([i d'] & -> & Hin).
    apply Hpage, elem_of_matching in Hin as [Hlook' Hstale'].
    cbn [fst] in Hlook. congruence.
Qed.

Lemma filter_all {A} (P : A → Prop) `{∀ x, Decision (P x)} (l : list A) :
  (∀ x, x ∈ l → P x) → filter P l = l.
Proof.
  induction l as [|x l IH]; intros Hall; [reflexivity|].
  rewrite filter_cons_True by (apply Hall; left).
  f_equal. apply IH. intros y Hy. apply Hall. right. exact Hy.
Qed.

Lemma no_matching_swept now E (c : gmap DocId Employee) :
  matching c E = [] → c = swept now E <$> c.
Proof.
  intros Hnone. apply map_eq. intros id. rewrite lookup_fmap.
  destruct (c !! id) as [d|] eqn:Hlook; [|reflexivity].
  cbn [fmap option_fmap option_map]. f_equal. unfold swept.
  destruct (stale E d) eqn:Hstale; [|reflexivity].
  assert ((id, d) ∈ matching c E) as Hin
      by (apply elem_of_matching; split; assumption).
  rewrite Hnone in Hin. inversion Hin.
Qed.

(** A document still matching after a page has been committed was
matching before and is not on the page. *)
Lemma matching_after_commit now E page (c : gmap DocId Employee) y :
  y ∈ matching (commitPage now page c) E → y ∈ matching c E ∧ y.1 ∉ page.*1.
Proof.
  destruct y as [id d]. rewrite !elem_of_matching, commitPage_lookup.
  cbn [fst]. intros [Hlook Hstale].
  destruct (decide (id ∈ page.*1)) as [Hin|Hnin]; [|tauto].
  exfalso. destruct (c !! id) as [d0|]; [|discriminate].
  injection Hlook as <-. unfold stale in Hstale. cbn in Hstale. discriminate.
Qed.

(** The loop, for any positive page size, under the invariant that every
matching document lies after the cursor: when it is left normally the
collection is the swept one; it ends when the fuel exceeds the number of
matching documents, and normally so when no commit fails. *)
Lemma sweep_spec commitFails pageSize now E :
  (0 < pageSize)%nat →
  ∀ fuel cursor (c : gmap DocId Employee) total page,
    (∀ x, x ∈ matching c E → afterCursor cursor x = true) →
    (∀ c' total',
       sweep commitFails fuel pageSize now E cursor c total page
       = Some (Swept c' total') →
       c' = swept now E <$> c)
    ∧ ((length (matching c E) < fuel)%nat →
       ∃ r, sweep commitFails fuel pageSize now E cursor c total page = Some r
            ∧ ((∀ k, commitFails k = false) → ∃ c' total', r = Swept c' total')).
Proof.
  intros Hsize. induction fuel as [|fuel IH]; intros cursor c total pg Hinv.
  { split; [discriminate | lia]. }
  cbn [sweep]. unfold sweepQuery.
  set (sorted := merge_sort byEpoch (matching c E)).
  assert (sorted ≡ₚ matching c E) as Hperm by apply merge_sort_Permutation.
  assert (StronglySorted byEpoch sorted) as Hsorted
      by (apply StronglySorted_merge_sort; apply _).
  assert (NoDup sorted.*1) as Hnd
      by (rewrite Hperm; apply NoDup_matching_fst).
  rewrite (filter_all _ sorted)
    by (intros x Hx; apply Hinv; rewrite <- Hperm; exact Hx).
  remember (take pageSize sorted) as page eqn:Hpage.
  destruct page as [|x page'].
  { (* an empty page: nothing matches *)
    assert (sorted = []) as Hnil.
    { destruct sorted as [|y l]; [reflexivity|].
      destruct pageSize; [lia | discriminate]. }
    assert (matching c E = []) as Hnone
        by (apply Permutation_nil; rewrite <- Hperm, Hnil; reflexivity).
    split.
    - intros c' total' [= <- <-]. apply no_matching_swept, Hnone.
    - intros _. eexists. split; [reflexivity|]. intros _. eauto. }
  rewrite Hpage.
  destruct (commitFails pg) eqn:Hfail.
  { (* the store rejects the batch *)
    split; [discriminate|].
    intros _. eexists. split; [reflexivity|].
    intros Hok. rewrite Hok in Hfail. discriminate. }
  assert (∀ y, y ∈ take pageSize sorted → y ∈ matching c E) as Hsub.
  { intros y Hy. rewrite <- Hperm.
    apply elem_of_take in Hy as (i & Hi & _).
    apply list_elem_of_lookup. exists i. exact Hi. }
  destruct (Nat.ltb_spec (length (take pageSize sorted)) pageSize) as [Hshort|Hfull].
  { (* a short page: it holds every matching document *)
    assert (take pageSize sorted = sorted) as Hall.
    { apply take_ge. rewrite length_take in Hshort. lia. }
    split.
    - intros c' total' [= <- <-]. rewrite Hall.
      apply commitPage_all. intros y. rewrite Hperm. reflexivity.
    - intros _. eexists. split; [reflexivity|]. intros _. eauto. }
  (* a full page: go on after its last document *)
  assert (∀ y, y ∈ matching (commitPage now (take pageSize sorted) c) E →
               y ∈ drop pageSize sorted) as Hrest.
  { intros y Hy. apply matching_after_commit in Hy as [Hy Hnot].
    rewrite <- Hperm, <- (take_drop pageSize sorted), elem_of_app in Hy.
    destruct Hy as [Hy|Hy]; [|exact Hy].
    exfalso. apply Hnot, list_elem_of_fmap. exists y. split; [reflexivity | exact Hy]. }
  destruct (IH (last (take pageSize sorted))
              (commitPage now (take pageSize sorted) c)
              (total + length (take pageSize sorted))%nat (S pg))
    as [IHres IHterm].
  { intros y Hy. apply Hrest in Hy.
    destruct (last (take pageSize sorted)) as [cur|] eqn:Hlast; [|reflexivity].
    cbn [afterCursor]. apply negb_true_iff, bool_decide_eq_false.
    apply (sorted_strictly_after (take pageSize sorted) (drop pageSize sorted));
      rewrite ?take_drop; try assumption.
    apply last_Some_elem_of, Hlast. }
  split.
  - intros c' total' Hres. rewrite (IHres c' total' Hres).
    apply commitPage_swept, Hsub.
  - intros Hfuel. apply IHterm.
    assert (matching (commitPage now (take pageSize sorted) c) E
            ⊆+ drop pageSize sorted) as Hle.
    { apply NoDup_submseteq; [|exact Hrest].
      apply NoDup_filter, NoDup_map_to_list. }
    apply submseteq_length in Hle. rewrite length_drop in Hle.
    rewrite length_take in Hfull.
    rewrite <- Hperm in Hfuel. lia.
Qed.

(** C2: whenever [finalizeRun(orgId, E)] returns, no employee document of
the organization has [presentInLatest = true] together with
[lastSeenEpoch < E], the organization's [lastFinalizedEpoch] is [E], and the
employees are exactly the former ones with the absent ones marked. And it
does return: when the organization document exists and the store accepts
the page commits, the paginated sweep ends within as many page reads as
there are employee documents plus one, whatever the number of rows on the
last page. *)
Theorem finalizeRun_postcondition commitFails now orgId E db :
  (∀ fuel db',
     finalizeRun commitFails fuel now orgId E db = Some (Returned db') →
     (∀ id d, employees db' orgId !! id = Some d →
              ¬ (presentInLatest d = true ∧ (lastSeenEpoch d < E)%Z))
     ∧ organizations db' !! orgId ≫= lastFinalizedEpoch = Some E
     ∧ employees db' orgId = swept now E <$> employees db orgId)
  ∧ (is_Some (organizations db !! orgId) →
     (∀ k, commitFails k = false) →
     ∀ fuel, (size (employees db orgId) < fuel)%nat →
             ∃ db', finalizeRun commitFails fuel now orgId E db
                    = Some (Returned db')).
Proof.
  assert (0 < pageSize)%nat as Hsize by (unfold pageSize; lia).
  split.
  - intros fuel db'. unfold finalizeRun, finalizeRunWith.
    destruct (sweep_spec commitFails pageSize now E Hsize fuel None
                (employeesRef db orgId) 0%nat 0%nat)
      as [Hres _]; [reflexivity|].
    destruct (sweep commitFails fuel pageSize now E None
                (employeesRef db orgId) 0 0)
      as [[c' total'|c']|]; [|discriminate|discriminate].
    specialize (Hres c' total' eq_refl). cbn [organizations withEmployees].
    destruct (organizations db !! orgId) as [org|]; [|discriminate].
    intros [= <-].
    assert (employees (withOrganization (withEmployees db orgId c') orgId
                         {| currentEpoch := Some E; lastFinalizedEpoch := Some E;
                            name := name org; org_updatedAt := now |}) orgId
            = c') as Hemp.
    { cbn [employees withOrganization withEmployees].
      rewrite decide_True by reflexivity. reflexivity. }
    split; [|split].
    + intros id d. rewrite Hemp, Hres, lookup_fmap.
      destruct (employeesRef db orgId !! id) as [d0|]; [|discriminate].
      intros [= <-] [Hpresent Hepoch].
      pose proof (swept_not_stale now E d0) as Hns.
      unfold stale in Hns. rewrite Hpresent in Hns.
      apply andb_false_iff in Hns as [?|Hns]; [discriminate|].
      apply Z.ltb_ge in Hns. lia.
    + cbn [organizations withOrganization]. rewrite lookup_insert_eq. reflexivity.
    + rewrite Hemp. exact Hres.
  - intros [org Horg] Hok fuel Hfuel. unfold finalizeRun, finalizeRunWith.
    destruct (sweep_spec commitFails pageSize now E Hsize fuel None
                (employeesRef db orgId) 0%nat 0%nat)
      as [_ Hterm]; [reflexivity|].
    destruct Hterm as (r & -> & Hr).
    { unfold matching, employeesRef.
      pose proof (length_filter (fun d => stale E d.2 = true)
                    (map_to_list (employees db orgId))) as Hle.
      rewrite length_map_to_list in Hle. lia. }
    destruct (Hr Hok) as (c' & total' & ->).
    cbn [organizations withEmployees]. rewrite Horg. eexists. reflexivity.
Qed.

Lemma finalizeRun_postcondition_witness :
  ∃ db',
    finalizeRun (fun _ => false) 5 50 "acme" 2 (acmeStore 4)
    = Some (Returned db')
    ∧ (∀ id d, employees db' "acme" !! id = Some d →
               ¬ (presentInLatest d = true ∧ (lastSeenEpoch d < 2)%Z))
    ∧ organizations db' !! "acme" ≫= lastFinalizedEpoch = Some 2%Z.
Proof.
  destruct (finalizeRun_postcondition (fun _ => false) 50 "acme" 2 (acmeStore 4))
    as [Hpost Hterm].
  destruct (Hterm ltac:(vm_compute; eexists; reflexivity)
              ltac:(reflexivity) 5%nat) as [db' Hrun].
  { vm_compute. lia. }
  exists db'. split; [exact Hrun|].
  destruct (Hpost 5%nat db' Hrun) as (Hnone & Horg & _).
  split; [exact Hnone | exact Horg].
Defined.

(** The boundary of the pagination, with pages of two rows and four stale
employees: the second page is full, so a third query is made; it is empty
and ends the loop. Two page reads are not enough, three are. *)
Example sweep_last_page_full_small :
  finalizeRunWith 2 (fun _ => false) 2 50 "acme" 2 (acmeStore 4) = None
  ∧ match finalizeRunWith 2 (fun _ => false) 3 50 "acme" 2 (acmeStore 4) with
    | Some (Returned db') =>
        (fun d => (d.1, presentInLatest d.2)) <$> docs (employees db' "acme")
        = [(1%positive, false); (2%positive, false);
           (3%positive, false); (4%positive, false)]
        ∧ organizations db' !! "acme" ≫= lastFinalizedEpoch = Some 2%Z
    | _ => False
    end.
Proof. vm_compute. repeat split; reflexivity. Qed.

(** The same with the page size of the source: 1000 stale employees fill
the first page exactly; the second query returns nothing and the run ends
with all of them marked. *)
Example sweep_last_page_full_1000 :
  finalizeRun (fun _ => false) 1 50 "acme" 2 (acmeStore 1000) = None
  ∧ match finalizeRun (fun _ => false) 2 50 "acme" 2 (acmeStore 1000) with
    | Some (Returned db') =>
        size (employees db' "acme") = 1000%nat
        ∧ filter (fun d => presentInLatest d.2 = true)
            (docs (employees db' "acme")) = []
        ∧ organizations db' !! "acme" ≫= lastFinalizedEpoch = Some 2%Z
    | _ => False
    end.
Proof. vm_compute. repeat split; reflexivity. Qed.

(** A rejected page commit makes [finalizeRun] throw; what was committed
before stays, the organization document is not touched. *)
Example finalizeRun_commit_rejected :
  match finalizeRunWith 2 (fun k => Nat.eqb k 1) 3 50 "acme" 2 (acmeStore 4) with
  | Some (Threw db') =>
      (fun d => (d.1, presentInLatest d.2)) <$> docs (employees db' "acme")
      = [(1%positive, false); (2%positive, false);
         (3%positive, true); (4%positive, true)]
      ∧ organizations db' !! "acme" ≫= lastFinalizedEpoch = Some 1%Z
  | _ => False
  end.
Proof. vm_compute. repeat split; reflexivity. Qed.

End FinalizeFacts.


(** * Further properties of the code *)

(** ** [Map] operations *)

Section MapFacts.
Import Optimizer.
Local Open Scope list_scope.
Context {V : Type}.
Implicit Types (m : list (string * V)) (k : string) (v : V).

Lemma mapGet_mapSet m k v : mapGet (mapSet m k v) k = Some v.
Proof.
  induction m as [|[k' v'] m IH]; cbn [mapSet mapGet].
  - rewrite String.eqb_refl. reflexivity.
  - destruct (String.eqb_spec k' k) as [->|Hne]; cbn [mapGet].
    + rewrite String.eqb_refl. reflexivity.
    + apply String.eqb_neq in Hne. rewrite Hne. exact IH.
Qed.

Lemma mapGet_mapSet_ne m k k' v :
  k' ≠ k → mapGet (mapSet m k v) k' = mapGet m k'.
Proof.
  intros Hne. induction m as [|[k0 v0] m IH]; cbn [mapSet mapGet].
  - destruct (String.eqb_spec k k'); [congruence | reflexivity].
  - destruct (String.eqb_spec k0 k) as [->|Hk]; cbn [mapGet].
    + destruct (String.eqb_spec k k'); [congruence | reflexivity].
    + destruct (String.eqb k0 k'); [reflexivity | exact IH].
Qed.

Lemma mapSet_keys m k v :
  (mapSet m k v).*1 = if mapHas m k then m.*1 else m.*1 ++ [k].
Proof.
  unfold mapHas. induction m as [|[k' v'] m IH]; cbn [mapSet mapGet]; [reflexivity|].
  destruct (String.eqb_spec k' k) as [->|Hne]; [reflexivity|].
  cbn [fmap list_fmap fst] in *. rewrite IH.
  destruct (mapGet m k); reflexivity.
Qed.

Lemma mapSet_NoDup m k v : NoDup m.*1 → NoDup (mapSet m k v).*1.
Proof.
  intros Hnd. rewrite mapSet_keys.
  destruct (mapHas m k) eqn:Hhas; [exact Hnd|].
  apply NoDup_app. split; [exact Hnd|]. split; [|apply NoDup_singleton].
  intros x Hx Hx'. apply list_elem_of_singleton in Hx' as ->.
  apply mapHas_true in Hx. congruence.
Qed.

Lemma mapDelete_filter m k :
  NoDup m.*1 → mapDelete m k = filter (fun kv => kv.1 ≠ k) m.
Proof.
  induction m as [|[k' v'] m IH]; intros Hnd; cbn [mapDelete]; [reflexivity|].
  cbn [fmap list_fmap fst] in Hnd. apply NoDup_cons in Hnd as [Hnotin Hnd].
  destruct (String.eqb_spec k' k) as [->|Hne].
  - rewrite filter_cons_False by (cbn; tauto).
    symmetry. apply filter_all. intros [k0 v0] Hin Heq. cbn in Heq. subst k0.
    apply Hnotin, list_elem_of_fmap. exists (k, v0). split; [reflexivity | exact Hin].
  - rewrite filter_cons_True by (cbn; exact Hne). rewrite IH by exact Hnd.
    reflexivity.
Qed.

Lemma mapDelete_NoDup m k : NoDup m.*1 → NoDup (mapDelete m k).*1.
Proof.
  intros Hnd. rewrite mapDelete_filter by exact Hnd.
  eapply sublist_NoDup; [exact Hnd|].
  apply fmap_sublist, sublist_filter.
Qed.

Lemma mapGet_mapDelete m k : NoDup m.*1 → mapGet (mapDelete m k) k = None.
Proof.
  intros Hnd. apply mapGet_None. rewrite mapDelete_filter by exact Hnd.
  intros Hin. apply list_elem_of_fmap in Hin as ([k' v'] & -> & Hin).
  apply list_elem_of_filter in Hin as [Hne _]. cbn in Hne. congruence.
Qed.

Lemma mapGet_mapDelete_ne m k k' :
  k' ≠ k → mapGet (mapDelete m k) k' = mapGet m k'.
Proof.
  intros Hne. induction m as [|[k0 v0] m IH]; cbn [mapDelete mapGet]; [reflexivity|].
  destruct (String.eqb_spec k0 k) as [->|Hk]; cbn [mapGet].
  - destruct (String.eqb_spec k k'); [congruence | reflexivity].
  - destruct (String.eqb k0 k'); [reflexivity | exact IH].
Qed.

Lemma mapGet_Some_elem_of m k v : mapGet m k = Some v → (k, v) ∈ m.
Proof.
  induction m as [|[k' v'] m IH]; cbn [mapGet]; [discriminate|].
  destruct (String.eqb_spec k' k) as [->|Hne].
  - intros [= ->]. left.
  - intros H. right. apply IH, H.
Qed.

Lemma elem_of_mapGet m k v : NoDup m.*1 → (k, v) ∈ m → mapGet m k = Some v.
Proof.
  induction m as [|[k' v'] m IH]; intros Hnd Hin; [inversion Hin|].
  cbn [fmap list_fmap fst] in Hnd. apply NoDup_cons in Hnd as [Hnotin Hnd].
  cbn [mapGet]. apply elem_of_cons in Hin as [[= <- <-]|Hin].
  - rewrite String.eqb_refl. reflexivity.
  - destruct (String.eqb_spec k' k) as [->|Hne]; [|apply IH; assumption].
    exfalso. apply Hnotin, list_elem_of_fmap. exists (k, v). split; [reflexivity | exact Hin].
Qed.

End MapFacts.

(** ** The batcher of the bridge *)

Section BatcherFacts.
Import Optimizer Batching Invariants.
Local Open Scope list_scope.

Lemma mapDelete_middle {V} (pre : list (string * V)) k v rest :
  k ∉ pre.*1 → mapDelete (pre ++ (k, v) :: rest) k = pre ++ rest.
Proof.
  induction pre as [|[k' v'] pre IH]; intros Hnotin; cbn [app mapDelete].
  - rewrite String.eqb_refl. reflexivity.
  - cbn [fmap list_fmap fst] in Hnotin. apply not_elem_of_cons in Hnotin as [Hne Hnotin].
    destruct (String.eqb_spec k' k) as [->|_]; [congruence|].
    rewrite IH by exact Hnotin. reflexivity.
Qed.

Lemma totalRows_shift (l : list (string * Batch)) (n : nat) :
  fold_left (fun total entry => (total + length (rows entry.2))%nat) l n
  = (n + totalRows l)%nat.
Proof.
  unfold totalRows. revert n. induction l as [|x l IH]; intros n; cbn [fold_left].
  - lia.
  - rewrite IH, (IH (0 + _)%nat). lia.
Qed.

Lemma totalRows_cons x (l : list (string * Batch)) :
  totalRows (x :: l) = (length (rows x.2) + totalRows l)%nat.
Proof. unfold totalRows at 1. cbn [fold_left]. rewrite totalRows_shift. lia. Qed.

Lemma totalRows_app (l1 l2 : list (string * Batch)) :
  totalRows (l1 ++ l2) = (totalRows l1 + totalRows l2)%nat.
Proof.
  induction l1 as [|x l1 IH]; [reflexivity|].
  cbn [app]. rewrite !totalRows_cons, IH. lia.
Qed.

Lemma totalRows_mapSet (b : list (string * Batch)) id v :
  (totalRows (mapSet b id v) + length (rowsUnder b id)
   = totalRows b + length (rows v))%nat.
Proof.
  unfold rowsUnder. induction b as [|[k x] b IH]; cbn [mapSet mapGet].
  - rewrite totalRows_cons. cbn. lia.
  - destruct (String.eqb_spec k id) as [->|Hne].
    + rewrite !totalRows_cons. cbn [snd]. lia.
    + rewrite !totalRows_cons. cbn [snd]. lia.
Qed.

Lemma totalRows_mapDelete (b : list (string * Batch)) id :
  (totalRows (mapDelete b id) + length (rowsUnder b id) = totalRows b)%nat.
Proof.
  unfold rowsUnder. induction b as [|[k x] b IH]; cbn [mapDelete mapGet].
  - cbn. lia.
  - destruct (String.eqb_spec k id) as [->|Hne].
    + rewrite totalRows_cons. cbn [snd]. lia.
    + rewrite !totalRows_cons. cbn [snd]. lia.
Qed.

(** [getBatchId] separates the two ids with two colons. *)
Lemma append_noColon_inj o1 o2 r1 r2 :
  noColon o1 → noColon o2 →
  (o1 ++ String ":" r1 = o2 ++ String ":" r2)%string → o1 = o2 ∧ r1 = r2.
Proof.
  unfold noColon. revert o2.
  induction o1 as [|c o1 IH]; intros [|c2 o2] H1 H2 Heq; cbn in *.
  - injection Heq as ->. auto.
  - injection Heq as <- _. apply Forall_cons in H2 as [H2 _]. congruence.
  - injection Heq as -> _. apply Forall_cons in H1 as [H1 _]. congruence.
  - injection Heq as -> Heq.
    apply Forall_cons in H1 as [_ H1]. apply Forall_cons in H2 as [_ H2].
    destruct (IH o2 H1 H2 Heq) as [-> ->]. auto.
Qed.

(** X1: batch ids of organizations whose ids have no colon identify the
pair: two calls of [getBatchId] give the same id only for the same
[orgId] and the same [eventId], whatever the event ids are. *)
Theorem getBatchId_injective o1 e1 o2 e2 :
  noColon o1 → noColon o2 →
  getBatchId o1 e1 = getBatchId o2 e2 → o1 = o2 ∧ e1 = e2.
Proof.
  intros H1 H2 Heq. unfold getBatchId in Heq.
  change ("::" ++ e1)%string with (String ":" (String ":" e1)) in Heq.
  change ("::" ++ e2)%string with (String ":" (String ":" e2)) in Heq.
  destruct (append_noColon_inj _ _ _ _ H1 H2 Heq) as [-> Hr].
  injection Hr as ->. auto.
Qed.

Lemma getBatchId_injective_witness : "acme" = "acme" ∧ "ev:1" = "ev:1".
Proof.
  apply (getBatchId_injective "acme" "ev:1" "acme" "ev:1").
  - unfold noColon. cbn. repeat constructor; discriminate.
  - unfold noColon. cbn. repeat constructor; discriminate.
  - reflexivity.
Defined.

(** With colons in organization ids two pairs can share a batch id, and a
row of one organization then joins the batch of the other. *)
Example getBatchId_collision :
  getBatchId "a" "::b" = getBatchId "a::" "b"
  ∧ (flush "a" "::b"
       (add 100 2 "a::" "b" {| email := "y@x.com"; statusInOrg := "" |}
          (add 100 1 "a" "::b" {| email := "x@x.com"; statusInOrg := "" |}
             []).2).2).1
    = Some {| payload_orgId := "a";
              messages := [ {| email := "x@x.com"; statusInOrg := "" |};
                            {| email := "y@x.com"; statusInOrg := "" |} ] |}.
Proof. split; reflexivity. Qed.

Lemma add_keys max now o e row b :
  NoDup b.*1 → NoDup (add max now o e row b).2.*1.
Proof. intros Hnd. unfold add. cbn [snd]. apply mapSet_NoDup, Hnd. Qed.

Lemma add_rowsUnder max now o e row b :
  rowsUnder (add max now o e row b).2 (getBatchId o e)
  = rowsUnder b (getBatchId o e) ++ [row].
Proof.
  unfold add, rowsUnder. cbn [snd]. rewrite mapGet_mapSet. cbn [rows].
  destruct (mapGet b (getBatchId o e)); reflexivity.
Qed.

Lemma add_ownerUnder max now o e row b :
  ownerUnder (add max now o e row b).2 (getBatchId o e) o
  = ownerUnder b (getBatchId o e) o.
Proof.
  unfold add, ownerUnder. cbn [snd]. rewrite mapGet_mapSet. cbn [key].
  destruct (mapGet b (getBatchId o e)); reflexivity.
Qed.

Lemma add_other max now o e row b id :
  id ≠ getBatchId o e → mapGet (add max now o e row b).2 id = mapGet b id.
Proof. intros Hne. unfold add. cbn [snd]. apply mapGet_mapSet_ne, Hne. Qed.

Lemma addAll_spec max o e rs b :
  NoDup b.*1 →
  NoDup (addAll max o e rs b).*1
  ∧ (rs ≠ [] → is_Some (mapGet (addAll max o e rs b) (getBatchId o e)))
  ∧ rowsUnder (addAll max o e rs b) (getBatchId o e)
    = rowsUnder b (getBatchId o e) ++ rs.*2
  ∧ ownerUnder (addAll max o e rs b) (getBatchId o e) o
    = ownerUnder b (getBatchId o e) o
  ∧ ∀ id, id ≠ getBatchId o e → mapGet (addAll max o e rs b) id = mapGet b id.
Proof.
  unfold addAll. revert b. induction rs as [|[t r] rs IH]; intros b Hnd.
  - cbn [fold_left fmap list_fmap]. rewrite app_nil_r. repeat split; auto.
    intros []; reflexivity.
  - cbn [fold_left fst snd].
    destruct (IH (add max t o e r b).2 (add_keys _ _ _ _ _ _ Hnd))
      as (Hnd' & Hsome & Hrows & Hown & Hother).
    split; [exact Hnd'|]. split; [|split; [|split]].
    + intros _. destruct rs as [|r' rs].
      * cbn [fold_left]. unfold add. cbn [snd]. rewrite mapGet_mapSet. eauto.
      * apply Hsome. discriminate.
    + rewrite Hrows, add_rowsUnder. cbn [fmap list_fmap snd].
      rewrite <- app_assoc. reflexivity.
    + rewrite Hown. apply add_ownerUnder.
    + intros id Hne. rewrite Hother by exact Hne. apply add_other, Hne.
Qed.

(** X2: rows added for one [(orgId, eventId)], then flushed. The payload
holds the rows the batcher already had under that batch id followed by the
added rows, in the order of the calls; its [orgId] is that of the call
that created the batch. The flush removes the batch (a second flush
returns [null]) and leaves every other batch as it was before the rows
were added. *)
Theorem add_then_flush max o e rs b :
  NoDup b.*1 → rs ≠ [] →
  ∃ b',
    flush o e (addAll max o e rs b)
    = (Some {| payload_orgId := ownerUnder b (getBatchId o e) o;
               messages := rowsUnder b (getBatchId o e) ++ rs.*2 |}, b')
    ∧ flush o e b' = (None, b')
    ∧ ∀ id, id ≠ getBatchId o e → mapGet b' id = mapGet b id.
Proof.
  intros Hnd Hne.
  destruct (addAll_spec max o e rs b Hnd) as (Hnd' & Hsome & Hrows & Hown & Hother).
  destruct (Hsome Hne) as [batch Hget].
  exists (mapDelete (addAll max o e rs b) (getBatchId o e)).
  unfold flush at 1. rewrite Hget.
  unfold rowsUnder in Hrows at 1. unfold ownerUnder in Hown at 1.
  rewrite Hget in Hrows, Hown. unfold payloadOf. rewrite Hrows, Hown.
  split; [reflexivity|]. split.
  - unfold flush. rewrite mapGet_mapDelete by exact Hnd'. reflexivity.
  - intros id Hid. rewrite mapGet_mapDelete_ne by exact Hid. apply Hother, Hid.
Qed.

Lemma add_then_flush_witness :
  ∃ b',
    flush "acme" "e1"
      (addAll 100 "acme" "e1"
         [ (1%Z, {| email := "a@x.com"; statusInOrg := "active" |});
           (2%Z, {| email := "b@x.com"; statusInOrg := "" |}) ] [])
    = (Some {| payload_orgId := ownerUnder [] (getBatchId "acme" "e1") "acme";
               messages :=
                 rowsUnder [] (getBatchId "acme" "e1")
                 ++ [ (1%Z, {| email := "a@x.com"; statusInOrg := "active" |});
                      (2%Z, {| email := "b@x.com"; statusInOrg := "" |}) ].*2 |},
       b')
    ∧ flush "acme" "e1" b' = (None, b')
    ∧ ∀ id, id ≠ getBatchId "acme" "e1" → mapGet b' id = mapGet [] id.
Proof.
  apply (add_then_flush 100 "acme" "e1"
           [ (1%Z, {| email := "a@x.com"; statusInOrg := "active" |});
             (2%Z, {| email := "b@x.com"; statusInOrg := "" |}) ] []).
  - constructor.
  - discriminate.
Defined.

Lemma getDueBatches_fold max ms now (l kept : list (string * Batch)) due :
  NoDup (kept ++ l).*1 →
  fold_left (dueStep max ms now) l (due, kept ++ l)
  = (due ++ (flushedOf ∘ snd <$> filter (fun x => isDue max ms now x.2 = true) l),
     kept ++ filter (fun x => isDue max ms now x.2 = false) l).
Proof.
  revert kept due. induction l as [|[k v] l IH]; intros kept due Hnd.
  - cbn. rewrite !app_nil_r. reflexivity.
  - cbn [fold_left]. unfold dueStep at 2. cbn [fst snd].
    rewrite !filter_cons. cbn [snd].
    destruct (isDue max ms now v) eqn:Hdue.
    + rewrite decide_True by reflexivity. rewrite decide_False by discriminate.
      assert (k ∉ kept.*1) as Hk.
      { rewrite fmap_app in Hnd. apply NoDup_app in Hnd as (_ & Hdisj & _).
        intros Hin. apply (Hdisj k Hin). left. }
      rewrite mapDelete_middle by exact Hk.
      rewrite IH.
      * cbn [fmap list_fmap compose snd]. rewrite <- app_assoc. reflexivity.
      * rewrite fmap_app in *. apply NoDup_app in Hnd as (H1 & H2 & H3).
        cbn [fmap list_fmap fst] in H2, H3. apply NoDup_cons in H3 as [_ H3].
        apply NoDup_app. split; [exact H1|]. split; [|exact H3].
        intros x Hx Hx'. apply (H2 x Hx). right. exact Hx'.
    + rewrite decide_False by discriminate. rewrite decide_True by reflexivity.
      replace (kept ++ (k, v) :: l) with ((kept ++ [(k, v)]) ++ l)
        by (rewrite <- app_assoc; reflexivity).
      rewrite IH.
      * rewrite <- app_assoc. reflexivity.
      * rewrite <- app_assoc. exact Hnd.
Qed.

Lemma getDueBatches_filter max ms now (b : list (string * Batch)) :
  NoDup b.*1 →
  getDueBatches max ms now b
  = (flushedOf ∘ snd <$> filter (fun x => isDue max ms now x.2 = true) b,
     filter (fun x => isDue max ms now x.2 = false) b).
Proof.
  intros Hnd. unfold getDueBatches.
  apply (getDueBatches_fold max ms now b [] []). exact Hnd.
Qed.

Lemma flushAll_fold (l : list (string * Batch)) all :
  NoDup l.*1 →
  fold_left flushAllStep l (all, l) = (all ++ (flushedOf ∘ snd <$> l), []).
Proof.
  revert all. induction l as [|[k v] l IH]; intros all Hnd.
  - cbn. rewrite app_nil_r. reflexivity.
  - cbn [fold_left]. unfold flushAllStep at 2. cbn [fst snd mapDelete].
    rewrite String.eqb_refl.
    cbn [fmap list_fmap fst] in Hnd. apply NoDup_cons in Hnd as [_ Hnd].
    rewrite IH by exact Hnd. cbn [fmap list_fmap compose snd].
    rewrite <- app_assoc. reflexivity.
Qed.

Lemma rowsPosted_app p q :
  rowsPosted (p ++ q) = (rowsPosted p + rowsPosted q)%nat.
Proof.
  unfold rowsPosted. induction p as [|x p IH]; [reflexivity|].
  cbn [app fmap list_fmap sum_list sum_list_with] in *. cbn in *. lia.
Qed.

Lemma totalRows_filter_split (P : string * Batch → bool) (b : list (string * Batch)) :
  (totalRows (filter (fun x => P x = true) b)
   + totalRows (filter (fun x => P x = false) b) = totalRows b)%nat.
Proof.
  induction b as [|x b IH]; [reflexivity|].
  rewrite !filter_cons. destruct (P x) eqn:HP.
  - rewrite decide_True by reflexivity. rewrite decide_False by discriminate.
    rewrite !totalRows_cons. lia.
  - rewrite decide_False by discriminate. rewrite decide_True by reflexivity.
    rewrite !totalRows_cons. lia.
Qed.

Lemma rowsPosted_postOf (l : list (string * Batch)) :
  rowsPosted (UpsertsConsumer.postOf <$> (flushedOf ∘ snd <$> l)) = totalRows l.
Proof.
  induction l as [|x l IH]; [reflexivity|].
  rewrite totalRows_cons, <- IH. reflexivity.
Qed.

End BatcherFacts.

(** ** The upserts consumer of the bridge *)

Section UpsertsConsumerFacts.
Import Optimizer UpsertsConsumer Batching Invariants.
Local Open Scope list_scope.

(** X3: a tick of the flush timer posts exactly the batches that are due
(full, or at least [batchMaxMs] old), in the order they were created, each
under the [orgId] and [eventId] of its key and with all of its rows; the
batcher keeps exactly the batches that are not due, unchanged and in
order; so no row is lost or duplicated between the batcher and the
requests, and every batch kept has fewer than [batchMaxRows] rows. *)
Theorem flushTick_posts_due max ms now b :
  NoDup b.*1 →
  flushTick max ms now b
  = (postOf ∘ flushedOf ∘ snd
       <$> filter (fun x => isDue max ms now x.2 = true) b,
     filter (fun x => isDue max ms now x.2 = false) b)
  ∧ (rowsPosted (flushTick max ms now b).1
     + totalRows (flushTick max ms now b).2 = totalRows b)%nat
  ∧ NoDup (flushTick max ms now b).2.*1
  ∧ belowLimit max (flushTick max ms now b).2.
Proof.
  intros Hnd. unfold flushTick. rewrite getDueBatches_filter by exact Hnd.
  split; [|split; [|split]].
  - rewrite <- list_fmap_compose. reflexivity.
  - cbn [fst snd]. rewrite rowsPosted_postOf.
    apply (totalRows_filter_split (fun x => isDue max ms now x.2)).
  - cbn [snd]. eapply sublist_NoDup; [exact Hnd|].
    apply fmap_sublist, sublist_filter.
  - cbn [snd]. intros id batch Hin.
    apply list_elem_of_filter in Hin as [Hdue _]. cbn [snd] in Hdue.
    unfold isDue in Hdue. apply orb_false_iff in Hdue as [Hfull _].
    apply Z.leb_gt in Hfull. exact Hfull.
Qed.

Lemma flushTick_posts_due_witness :
  flushTick 2 5000 6000
    (addAll 2 "acme" "e2" [(3000%Z, {| email := "c@x.com"; statusInOrg := "" |})]
       (addAll 2 "acme" "e1"
          [(500%Z, {| email := "a@x.com"; statusInOrg := "" |})] []))
  = ([ {| query_orgId := "acme"; query_eventId := "e1";
          body := {| payload_orgId := "acme";
                     messages := [ {| email := "a@x.com"; statusInOrg := "" |} ] |} |} ],
     [ ("acme::e2",
        {| key := {| orgId := "acme"; eventId := "e2" |};
           rows := [ {| email := "c@x.com"; statusInOrg := "" |} ];
           createdAt := 3000 |}) ]).
Proof.
  apply (flushTick_posts_due 2 5000 6000
           (addAll 2 "acme" "e2"
              [(3000%Z, {| email := "c@x.com"; statusInOrg := "" |})]
              (addAll 2 "acme" "e1"
                 [(500%Z, {| email := "a@x.com"; statusInOrg := "" |})] []))).
  apply (bool_decide_unpack _). vm_compute. reflexivity.
Defined.

(** X4: [stop] posts every pending batch, in creation order, each under
its key and with all of its rows, and leaves the batcher empty: the rows
posted are the rows that were pending. *)
Theorem stop_posts_all b :
  NoDup b.*1 →
  stop b = (postOf ∘ flushedOf ∘ snd <$> b, [])
  ∧ rowsPosted (stop b).1 = totalRows b.
Proof.
  intros Hnd. unfold stop, flushAll.
  rewrite (flushAll_fold b []) by exact Hnd. cbn [app fst].
  split.
  - rewrite <- list_fmap_compose. reflexivity.
  - apply rowsPosted_postOf.
Qed.

Lemma stop_posts_all_witness :
  rowsPosted
    (stop (addAll 2 "acme" "e2"
             [(3000%Z, {| email := "c@x.com"; statusInOrg := "" |})]
             (addAll 2 "acme" "e1"
                [(500%Z, {| email := "a@x.com"; statusInOrg := "" |})] []))).1
  = 2%nat.
Proof.
  apply (stop_posts_all
           (addAll 2 "acme" "e2"
              [(3000%Z, {| email := "c@x.com"; statusInOrg := "" |})]
              (addAll 2 "acme" "e1"
                 [(500%Z, {| email := "a@x.com"; statusInOrg := "" |})] []))).
  apply (bool_decide_unpack _). vm_compute. reflexivity.
Defined.


Lemma elem_of_mapSet_inv (b : list (string * Batch)) id v k x :
  NoDup b.*1 → (k, x) ∈ mapSet b id v →
  (k = id ∧ x = v) ∨ (k ≠ id ∧ (k, x) ∈ b).
Proof.
  intros Hnd Hin.
  apply (elem_of_mapGet _ _ _ (mapSet_NoDup _ id v Hnd)) in Hin.
  destruct (decide (k = id)) as [->|Hne].
  - rewrite mapGet_mapSet in Hin. left. split; congruence.
  - rewrite mapGet_mapSet_ne in Hin by exact Hne.
    right. split; [exact Hne | apply mapGet_Some_elem_of, Hin].
Qed.

Lemma rowsUnder_below max (b : list (string * Batch)) id :
  (1 <= max)%Z → belowLimit max b →
  (Z.of_nat (length (rowsUnder b id)) < max)%Z.
Proof.
  intros Hmax Hbelow. unfold rowsUnder.
  destruct (mapGet b id) as [x|] eqn:Hget.
  - apply (Hbelow id), mapGet_Some_elem_of, Hget.
  - cbn. lia.
Qed.

(** One [add], with the flush it may trigger. *)
Lemma addRow_invariant max now o e posts (b : list (string * Batch)) row :
  (1 <= max)%Z → NoDup b.*1 → belowLimit max b →
  ∃ new b',
    addRow max now o e (posts, b) row = (posts ++ new, b')
    ∧ NoDup b'.*1 ∧ belowLimit max b'
    ∧ (∀ p, p ∈ new →
            Z.of_nat (length (messages (body p))) = max
            ∧ query_orgId p = o ∧ query_eventId p = e)
    ∧ (rowsPosted new + totalRows b' = totalRows b + 1)%nat.
Proof.
  intros Hmax Hnd Hbelow.
  pose proof (rowsUnder_below max b (getBatchId o e) Hmax Hbelow) as Hold.
  pose proof (add_rowsUnder max now o e row b) as Hrows.
  pose proof (add_keys max now o e row b Hnd) as Hnd1.
  unfold addRow. cbn [fst snd].
  unfold add in *. cbn [fst snd] in *.
  set (batch := match mapGet b (getBatchId o e) with
                | Some b0 => b0
                | None => {| key := {| orgId := o; eventId := e |};
                             rows := []; createdAt := now |}
                end) in *.
  set (batch' := {| key := key batch; rows := rows batch ++ [row];
                    createdAt := createdAt batch |}) in *.
  assert (rows batch = rowsUnder b (getBatchId o e)) as Hbatch.
  { unfold batch, rowsUnder. destruct (mapGet b (getBatchId o e)); reflexivity. }
  pose proof (totalRows_mapSet b (getBatchId o e) batch') as Hset.
  cbn [rows batch'] in Hset. rewrite length_app, Hbatch in Hset.
  cbn [length] in Hset.
  destruct (max <=? Z.of_nat (length (rows batch')))%Z eqn:Hfull.
  - apply Z.leb_le in Hfull. cbn [rows batch'] in Hfull.
    rewrite length_app, Hbatch in Hfull. cbn [length] in Hfull.
    unfold flushBatch, flush. rewrite mapGet_mapSet.
    cbn [payloadOf messages rows batch'].
    assert (∃ r0 rest, rows batch ++ [row] = r0 :: rest) as (r0 & rest & Hne).
    { destruct (rows batch ++ [row]) as [|r0 rest] eqn:Hne; [|eauto].
      apply app_eq_nil in Hne as [_ ?]. discriminate. }
    rewrite Hne.
    eexists _, _. split; [reflexivity|].
    split; [apply mapDelete_NoDup, Hnd1|]. split; [|split].
    + intros k x Hin.
      rewrite mapDelete_filter in Hin by exact Hnd1.
      apply list_elem_of_filter in Hin as [Hk Hin]. cbn [fst] in Hk.
      apply elem_of_mapSet_inv in Hin as [[? _]|[_ Hin]]; [congruence| |exact Hnd].
      apply (Hbelow k x Hin).
    + intros p Hp. apply list_elem_of_singleton in Hp as ->.
      cbn [body query_orgId query_eventId].
      change (messages (payloadOf batch')) with (rows batch ++ [row]).
      rewrite length_app, Hbatch. cbn [length]. repeat split. lia.
    + pose proof (totalRows_mapDelete (mapSet b (getBatchId o e) batch')
                    (getBatchId o e)) as Hdel.
      unfold rowsUnder in Hdel at 1. rewrite mapGet_mapSet in Hdel.
      cbn [rows batch'] in Hdel. rewrite length_app, Hbatch in Hdel.
      cbn [length] in Hdel.
      unfold rowsPosted. cbn [fmap list_fmap body sum_list sum_list_with].
      change (messages (payloadOf batch')) with (rows batch ++ [row]).
      rewrite length_app, Hbatch. cbn [length]. unfold id. lia.
  - apply Z.leb_gt in Hfull. cbn [rows batch'] in Hfull.
    rewrite length_app, Hbatch in Hfull. cbn [length] in Hfull.
    exists [], (mapSet b (getBatchId o e) batch').
    rewrite app_nil_r. split; [reflexivity|].
    split; [exact Hnd1|]. split; [|split].
    + intros k x Hin.
      apply elem_of_mapSet_inv in Hin as [[_ ->]|[_ Hin]]; [| |exact Hnd].
      * cbn [rows batch']. rewrite length_app, Hbatch. cbn [length]. lia.
      * apply (Hbelow k x Hin).
    + intros p Hp. inversion Hp.
    + unfold rowsPosted. cbn. lia.
Qed.

Lemma addRows_invariant max clock o e rs :
  (1 <= max)%Z →
  ∀ i posts (b : list (string * Batch)),
    NoDup b.*1 → belowLimit max b →
    ∃ new b',
      addRows max clock o e i rs (posts, b) = (posts ++ new, b')
      ∧ NoDup b'.*1 ∧ belowLimit max b'
      ∧ (∀ p, p ∈ new →
              Z.of_nat (length (messages (body p))) = max
              ∧ query_orgId p = o ∧ query_eventId p = e)
      ∧ (rowsPosted new + totalRows b' = totalRows b + length rs)%nat.
Proof.
  intros Hmax. induction rs as [|row rs IH]; intros i posts b Hnd Hbelow.
  - exists [], b. rewrite app_nil_r. cbn [addRows length].
    split; [reflexivity|]. split; [exact Hnd|]. split; [exact Hbelow|].
    split; [intros p Hp; inversion Hp|].
    unfold rowsPosted. cbn [fmap list_fmap sum_list sum_list_with]. lia.
  - cbn [addRows].
    destruct (addRow_invariant max (clock i) o e posts b row Hmax Hnd Hbelow)
      as (new1 & b1 & -> & Hnd1 & Hbelow1 & Hposts1 & Hcount1).
    destruct (IH (S i) (posts ++ new1) b1 Hnd1 Hbelow1)
      as (new2 & b2 & -> & Hnd2 & Hbelow2 & Hposts2 & Hcount2).
    exists (new1 ++ new2), b2. rewrite app_assoc.
    split; [reflexivity|]. split; [exact Hnd2|]. split; [exact Hbelow2|].
    split.
    + intros p Hp. apply elem_of_app in Hp as [Hp|Hp]; auto.
    + rewrite rowsPosted_app. cbn [length]. lia.
Qed.

(** X5: a well-formed message (truthy [orgId] and [eventId], [rows] an
array) handled by a consumer whose batches are all below [batchMaxRows]
(at least 1). Every request made while the message is handled carries
exactly [batchMaxRows] rows and is addressed to the message's [orgId] and
[eventId]; afterwards every batch is again below [batchMaxRows]; and every
row of the message is either in such a request or pending in the batcher,
none lost and none duplicated. *)
Theorem handleMessage_flushes_full_batches max clock m o e rs b :
  (1 <= max)%Z → NoDup b.*1 → belowLimit max b →
  UpsertsConsumer.orgId m = Some o → JsString.truthy o = true →
  UpsertsConsumer.eventId m = Some e → JsString.truthy e = true →
  UpsertsConsumer.rows m = Some rs →
  NoDup (handleMessage max clock (Some m) b).2.*1
  ∧ belowLimit max (handleMessage max clock (Some m) b).2
  ∧ (∀ p, p ∈ (handleMessage max clock (Some m) b).1 →
          Z.of_nat (length (messages (body p))) = max
          ∧ query_orgId p = o ∧ query_eventId p = e)
  ∧ (rowsPosted (handleMessage max clock (Some m) b).1
     + totalRows (handleMessage max clock (Some m) b).2
     = totalRows b + length rs)%nat.
Proof.
  intros Hmax Hnd Hbelow Ho Hto He Hte Hrs.
  unfold handleMessage, truthyField. rewrite Ho, Hto, He, Hte, Hrs.
  destruct (addRows_invariant max clock o e (normalizeRowsOf rs) Hmax
              0%nat [] b Hnd Hbelow)
    as (new & b' & -> & Hnd' & Hbelow' & Hposts & Hcount).
  cbn [app fst snd]. unfold normalizeRowsOf in Hcount.
  rewrite length_map in Hcount. auto.
Qed.

Lemma handleMessage_flushes_full_batches_witness :
  (rowsPosted
     (handleMessage 2 (fun i => Z.of_nat i)
        (Some {| UpsertsConsumer.orgId := Some "acme";
                 UpsertsConsumer.eventId := Some "e1";
                 UpsertsConsumer.rows :=
                   Some [ {| raw_email := Some " A@x.com"; raw_statusInOrg := None |};
                          {| raw_email := Some "b@x.com"; raw_statusInOrg := Some "left" |};
                          {| raw_email := None; raw_statusInOrg := None |} ] |})
        []).1
   + totalRows
       (handleMessage 2 (fun i => Z.of_nat i)
          (Some {| UpsertsConsumer.orgId := Some "acme";
                   UpsertsConsumer.eventId := Some "e1";
                   UpsertsConsumer.rows :=
                     Some [ {| raw_email := Some " A@x.com"; raw_statusInOrg := None |};
                            {| raw_email := Some "b@x.com"; raw_statusInOrg := Some "left" |};
                            {| raw_email := None; raw_statusInOrg := None |} ] |})
          []).2
   = totalRows [] + 3)%nat.
Proof.
  apply (handleMessage_flushes_full_batches 2 (fun i => Z.of_nat i)
           {| UpsertsConsumer.orgId := Some "acme";
              UpsertsConsumer.eventId := Some "e1";
              UpsertsConsumer.rows :=
                Some [ {| raw_email := Some " A@x.com"; raw_statusInOrg := None |};
                       {| raw_email := Some "b@x.com"; raw_statusInOrg := Some "left" |};
                       {| raw_email := None; raw_statusInOrg := None |} ] |}
           "acme" "e1"
           [ {| raw_email := Some " A@x.com"; raw_statusInOrg := None |};
             {| raw_email := Some "b@x.com"; raw_statusInOrg := Some "left" |};
             {| raw_email := None; raw_statusInOrg := None |} ] []).
  - lia.
  - constructor.
  - intros id b Hin. inversion Hin.
  - reflexivity.
  - reflexivity.
  - reflexivity.
  - reflexivity.
  - reflexivity.
Defined.

(** What the consumer does with the three rows above: the first two fill
a batch, which is posted at once; the third, without email, is batched
with an empty email. *)
Example handleMessage_three_rows :
  handleMessage 2 (fun i => Z.of_nat i)
    (Some {| UpsertsConsumer.orgId := Some "acme";
             UpsertsConsumer.eventId := Some "e1";
             UpsertsConsumer.rows :=
               Some [ {| raw_email := Some " A@x.com"; raw_statusInOrg := None |};
                      {| raw_email := Some "b@x.com"; raw_statusInOrg := Some "left" |};
                      {| raw_email := None; raw_statusInOrg := None |} ] |})
    []
  = ([ {| query_orgId := "acme"; query_eventId := "e1";
          body := {| payload_orgId := "acme";
                     messages := [ {| email := "a@x.com"; statusInOrg := "" |};
                                   {| email := "b@x.com"; statusInOrg := "left" |} ] |} |} ],
     [ ("acme::e1",
        {| key := {| orgId := "acme"; eventId := "e1" |};
           rows := [ {| email := ""; statusInOrg := "" |} ];
           createdAt := 2 |}) ]).
Proof. reflexivity. Qed.

End UpsertsConsumerFacts.

(** ** The deltas consumer of the bridge, and the normalizer behind it *)

Section DeltasConsumerFacts.
Import JsString DeltasConsumer.
Local Open Scope list_scope.

(** X6: the bridge and the normalizer disagree on the body of a delta
request. For every well-formed delta message (all four fields truthy, a
valid delta type) the deltas consumer posts [{orgId, email, deltaType}]
with the email lowercased and trimmed; [handleIngestDeltas] reads
[messages] from that body, finds none, answers 400 and leaves the store
untouched; and [postJson], which does not retry a 400, returns it after
that single request. So no delta consumed from the topic reaches the
store. *)
Theorem forwarded_delta_is_rejected
  now db maxRetries server (m : DeltaMessage) o em t ev txt :
  orgId m = Some o → truthy o = true →
  email m = Some em → truthy em = true →
  deltaType m = Some t → t ∈ validTypes →
  eventId m = Some ev → truthy ev = true →
  (0 <= maxRetries)%Z →
  ∃ post,
    handleMessage (Some m) = Some post
    ∧ query_orgId post = o ∧ query_eventId post = ev
    ∧ body post = {| payload_orgId := o;
                     payload_email := trim (toLowerCase em);
                     payload_deltaType := t |}
    ∧ normalizerAnswer now post db = (400%Z, db)
    ∧ (server 0%nat = Http.Response (normalizerAnswer now post db).1 txt →
       Http.postJson maxRetries server
       = (Http.Return {| Http.status := 400; Http.text := txt |},
          [Http.Request 0])).
Proof.
  intros Ho Hto Hem Htem Ht Hvalid Hev Htev Hmax.
  assert (truthy t = true ∧ existsb (String.eqb t) validTypes = true) as [Htt Hex].
  { unfold validTypes in *.
    repeat (apply elem_of_cons in Hvalid as [->|Hvalid]); [auto..|].
    inversion Hvalid. }
  eexists. split.
  { unfold handleMessage, UpsertsConsumer.truthyField.
    rewrite Ho, Hto, Hem, Htem, Ht, Htt, Hev, Htev, Hex. reflexivity. }
  cbn [query_orgId query_eventId body].
  do 3 (split; [reflexivity|]).
  assert (∀ p, normalizerAnswer now
                 {| query_orgId := o; query_eventId := ev; body := p |} db
               = (400%Z, db)) as Hanswer.
  { intros p. unfold normalizerAnswer, IngestDeltas.handleIngestDeltas.
    cbn [body asRequestBody IngestDeltas.orgId IngestDeltas.messages].
    destruct (truthy (payload_orgId p)); reflexivity. }
  split; [apply Hanswer|].
  rewrite Hanswer. cbn [fst]. intros Hsrv. unfold Http.postJson.
  destruct (Z.to_nat (maxRetries + 1)) as [|n] eqn:Hn; [lia|].
  cbn [Http.retryLoop]. rewrite Hsrv. reflexivity.
Qed.

Lemma forwarded_delta_is_rejected_witness :
  ∃ post,
    handleMessage
      (Some {| orgId := Some "acme"; email := Some " Bob@X.com";
               deltaType := Some "left"; eventId := Some "e7" |})
    = Some post
    ∧ query_orgId post = "acme" ∧ query_eventId post = "e7"
    ∧ body post = {| payload_orgId := "acme";
                     payload_email := trim (toLowerCase " Bob@X.com");
                     payload_deltaType := "left" |}
    ∧ normalizerAnswer 50 post (Notions.acmeStore 2)
      = (400%Z, Notions.acmeStore 2)
    ∧ ((fun _ => Http.Response 400 "messages array is required") 0%nat
       = Http.Response (normalizerAnswer 50 post (Notions.acmeStore 2)).1
           "messages array is required" →
       Http.postJson 3 (fun _ => Http.Response 400 "messages array is required")
       = (Http.Return {| Http.status := 400;
                         Http.text := "messages array is required" |},
          [Http.Request 0])).
Proof.
  apply (forwarded_delta_is_rejected 50 (Notions.acmeStore 2) 3
           (fun _ => Http.Response 400 "messages array is required")
           {| orgId := Some "acme"; email := Some " Bob@X.com";
              deltaType := Some "left"; eventId := Some "e7" |}
           "acme" " Bob@X.com" "left" "e7" "messages array is required").
  - reflexivity.
  - reflexivity.
  - reflexivity.
  - reflexivity.
  - reflexivity.
  - unfold validTypes. left.
  - reflexivity.
  - reflexivity.
  - lia.
Defined.

(** A message that lacks a field, or whose delta type is outside
[left], [inactive], [reactivated], is dropped without a request. *)
Example handleMessage_unknown_type :
  handleMessage
    (Some {| orgId := Some "acme"; email := Some "bob@x.com";
             deltaType := Some "terminated"; eventId := Some "e7" |})
  = None.
Proof. reflexivity. Qed.

End DeltasConsumerFacts.

(** ** Strings: [trim] and [toLowerCase] *)

Section StringFacts.
Import JsString.

Lemma list_ascii_of_string_app (a b : string) :
  list_ascii_of_string (a ++ b)
  = (list_ascii_of_string a ++ list_ascii_of_string b)%list.
Proof. induction a as [|c a IH]; simpl; [reflexivity | rewrite IH; reflexivity]. Qed.

Lemma string_of_list_ascii_app (l1 l2 : list ascii) :
  string_of_list_ascii (l1 ++ l2)%list
  = string_of_list_ascii l1 ++ string_of_list_ascii l2.
Proof. induction l1 as [|c l1 IH]; simpl; [reflexivity | rewrite IH; reflexivity]. Qed.

Lemma reverse_involutive s : reverse (reverse s) = s.
Proof.
  unfold reverse. rewrite list_ascii_of_string_of_list_ascii, rev_involutive.
  apply string_of_list_ascii_of_string.
Qed.

Lemma reverse_app a b : reverse (a ++ b) = reverse b ++ reverse a.
Proof.
  unfold reverse.
  rewrite list_ascii_of_string_app, rev_app_distr.
  apply string_of_list_ascii_app.
Qed.

Lemma reverse_empty s : reverse s = "" → s = "".
Proof.
  intros H. rewrite <- (reverse_involutive s), H. reflexivity.
Qed.

(** A string that [trimStart] leaves alone: empty, or not starting with
white space. *)
Lemma trimStart_fixed s :
  (s = "" ∨ ∃ c s', s = String c s' ∧ isWhiteSpace c = false) →
  trimStart s = s.
Proof.
  intros [->|(c & s' & -> & Hc)]; [reflexivity|].
  cbn [trimStart]. rewrite Hc. reflexivity.
Qed.

Lemma trimStart_head s :
  trimStart s = "" ∨ ∃ c s', trimStart s = String c s' ∧ isWhiteSpace c = false.
Proof.
  induction s as [|c s IH]; [left; reflexivity|].
  cbn [trimStart]. destruct (isWhiteSpace c) eqn:Hc; [exact IH|].
  right. eauto.
Qed.

Lemma trimStart_suffix s : ∃ ws, s = ws ++ trimStart s.
Proof.
  induction s as [|c s [ws IH]]; [exists ""; reflexivity|].
  cbn [trimStart]. destruct (isWhiteSpace c).
  - exists (String c ws). change (String c s = String c (ws ++ trimStart s)).
    f_equal. exact IH.
  - exists "". reflexivity.
Qed.

Lemma trimStart_idempotent s : trimStart (trimStart s) = trimStart s.
Proof. apply trimStart_fixed, trimStart_head. Qed.

Lemma trim_head s :
  trim s = "" ∨ ∃ c s', trim s = String c s' ∧ isWhiteSpace c = false.
Proof.
  unfold trim, trimEnd.
  destruct (trimStart_suffix (reverse (trimStart s))) as [ws Hws].
  set (v := trimStart (reverse (trimStart s))) in *.
  apply (f_equal reverse) in Hws.
  rewrite reverse_involutive, reverse_app in Hws.
  destruct (reverse v) as [|c r] eqn:Hv; [left; reflexivity|].
  right. exists c, r. split; [reflexivity|].
  destruct (trimStart_head s) as [He|(c' & s' & He & Hc')].
  - rewrite He in Hws. discriminate.
  - rewrite He in Hws. cbn in Hws. injection Hws as -> _. exact Hc'.
Qed.

Lemma trim_idempotent s : trim (trim s) = trim s.
Proof.
  unfold trim at 1. rewrite (trimStart_fixed (trim s)) by apply trim_head.
  unfold trim, trimEnd. rewrite reverse_involutive, trimStart_idempotent.
  reflexivity.
Qed.

Lemma isWhiteSpace_lowerChar c : isWhiteSpace (lowerChar c) = isWhiteSpace c.
Proof. destruct c as [[] [] [] [] [] [] [] []]; reflexivity. Qed.

Lemma lowerChar_idempotent c : lowerChar (lowerChar c) = lowerChar c.
Proof. destruct c as [[] [] [] [] [] [] [] []]; reflexivity. Qed.

Lemma toLowerCase_idempotent s : toLowerCase (toLowerCase s) = toLowerCase s.
Proof.
  induction s as [|c s IH]; [reflexivity|].
  cbn [toLowerCase]. rewrite lowerChar_idempotent, IH. reflexivity.
Qed.

Lemma toLowerCase_map s :
  toLowerCase s = string_of_list_ascii (map lowerChar (list_ascii_of_string s)).
Proof. induction s as [|c s IH]; simpl; [reflexivity | rewrite <- IH; reflexivity]. Qed.

Lemma reverse_toLowerCase s : reverse (toLowerCase s) = toLowerCase (reverse s).
Proof.
  unfold reverse. rewrite !toLowerCase_map.
  rewrite !list_ascii_of_string_of_list_ascii, map_rev. reflexivity.
Qed.

Lemma trimStart_toLowerCase s : trimStart (toLowerCase s) = toLowerCase (trimStart s).
Proof.
  induction s as [|c s IH]; [reflexivity|].
  cbn [toLowerCase trimStart]. rewrite isWhiteSpace_lowerChar.
  destruct (isWhiteSpace c); [exact IH | reflexivity].
Qed.

Lemma trim_toLowerCase s : trim (toLowerCase s) = toLowerCase (trim s).
Proof.
  unfold trim, trimEnd.
  rewrite trimStart_toLowerCase, reverse_toLowerCase, trimStart_toLowerCase,
    reverse_toLowerCase.
  reflexivity.
Qed.

(** The normalization of emails, [toLowerCase().trim()], is idempotent. *)
Lemma normalization_idempotent s :
  trim (toLowerCase (trim (toLowerCase s))) = trim (toLowerCase s).
Proof.
  rewrite (trim_toLowerCase s), toLowerCase_idempotent.
  rewrite trim_toLowerCase, trim_idempotent. reflexivity.
Qed.

Lemma toLowerCase_empty s : toLowerCase s = "" → s = "".
Proof. destruct s; [reflexivity | discriminate]. Qed.

End StringFacts.

(** ** The email pattern *)

Section EmailFormatFacts.
Import JsString Status.

Lemma allAtom_app a b : allAtom (a ++ b) = allAtom a && allAtom b.
Proof.
  induction a as [|c a IH]; [reflexivity|].
  change (allAtom (String c (a ++ b)) = allAtom (String c a) && allAtom b).
  cbn [allAtom]. rewrite IH, andb_assoc. reflexivity.
Qed.

Lemma dot_is_atom : isAtomChar "." = true.
Proof. reflexivity. Qed.

(** After an atom character, a dot, one atom character and atoms to the
end of the string. *)
Lemma dot_tail_inv s :
  match s with
  | String "." (String d s'') => isAtomChar d && allAtom s''
  | _ => false
  end = true →
  ∃ d s'', s = String "." (String d s'') ∧ isAtomChar d = true
           ∧ allAtom s'' = true.
Proof.
  destruct s as [|a s]; [discriminate|].
  destruct s as [|d s''];
    destruct a as [[] [] [] [] [] [] [] []]; try discriminate.
  intros H. apply andb_true_iff in H as [Hd Hs]. eauto.
Qed.

Lemma matchDomain_sound s :
  matchDomain s = true →
  ∃ d t, s = d ++ String "." t ∧ d ≠ "" ∧ t ≠ ""
         ∧ allAtom d = true ∧ allAtom t = true.
Proof.
  induction s as [|c s IH]; [discriminate|].
  cbn [matchDomain]. intros H. apply andb_true_iff in H as [Hc H].
  apply orb_true_iff in H as [H|H].
  - destruct (IH H) as (d & t & -> & Hd & Ht & Had & Hat).
    exists (String c d), t. split; [reflexivity|].
    split; [discriminate|]. split; [exact Ht|]. split; [|exact Hat].
    cbn [allAtom]. rewrite Hc, Had. reflexivity.
  - apply dot_tail_inv in H as (d & s'' & -> & Hd & Hs).
    exists (String c ""), (String d s''). split; [reflexivity|].
    split; [discriminate|]. split; [discriminate|]. split.
    + cbn [allAtom]. rewrite Hc. reflexivity.
    + cbn [allAtom]. rewrite Hd, Hs. reflexivity.
Qed.

Lemma matchDomain_complete d t :
  d ≠ "" → t ≠ "" → allAtom d = true → allAtom t = true →
  matchDomain (d ++ String "." t) = true.
Proof.
  intros Hd Ht Had Hat. induction d as [|c d IH]; [contradiction|].
  change (matchDomain (String c (d ++ String "." t)) = true).
  cbn [allAtom] in Had. apply andb_true_iff in Had as [Hc Had].
  cbn [matchDomain]. rewrite Hc. cbn [andb].
  destruct d as [|c' d].
  - change ("" ++ String "." t) with (String "." t).
    destruct t as [|x t]; [contradiction|].
    cbn [allAtom] in Hat. rewrite Hat. apply orb_true_r.
  - rewrite IH by (discriminate || exact Had). reflexivity.
Qed.

Lemma matchLocal_sound seen s :
  matchLocal seen s = true →
  ∃ l dom, s = l ++ String "@" dom ∧ (seen = true ∨ l ≠ "")
           ∧ allAtom l = true ∧ matchDomain dom = true.
Proof.
  revert seen. induction s as [|c s IH]; intros seen; [discriminate|].
  cbn [matchLocal]. destruct (Ascii.eqb_spec c "@") as [->|Hne].
  - intros H. apply andb_true_iff in H as [-> Hdom].
    exists "", s. auto.
  - intros H. apply andb_true_iff in H as [Hc H].
    destruct (IH true H) as (l & dom & -> & _ & Hl & Hdom).
    exists (String c l), dom. split; [reflexivity|].
    split; [right; discriminate|]. split; [|exact Hdom].
    cbn [allAtom]. rewrite Hc, Hl. reflexivity.
Qed.

Lemma isAtomChar_not_at c : isAtomChar c = true → Ascii.eqb c "@" = false.
Proof.
  unfold isAtomChar. intros H. apply andb_true_iff in H as [_ H].
  apply negb_true_iff in H. exact H.
Qed.

Lemma matchLocal_complete seen l dom :
  (seen = true ∨ l ≠ "") → allAtom l = true → matchDomain dom = true →
  matchLocal seen (l ++ String "@" dom) = true.
Proof.
  revert seen. induction l as [|c l IH]; intros seen Hseen Hl Hdom.
  - destruct Hseen as [->|?]; [|contradiction].
    change (matchLocal true (String "@" dom) = true).
    cbn [matchLocal]. rewrite Ascii.eqb_refl. exact Hdom.
  - change (matchLocal seen (String c (l ++ String "@" dom)) = true).
    cbn [allAtom] in Hl. apply andb_true_iff in Hl as [Hc Hl].
    cbn [matchLocal]. rewrite (isAtomChar_not_at c Hc), Hc.
    apply IH; auto.
Qed.

(** X7: what the pattern of [isValidEmail] accepts. An email is valid
exactly when, trimmed, it reads [local@domain.tail] with the three parts
non-empty and free of white space and [@]; the domain and the tail may
themselves contain dots, the local part too. An empty email is never
valid. *)
Theorem isValidEmail_shape e :
  isValidEmail (Some e) = true
  ↔ ∃ l d t,
      trim e = l ++ String "@" (d ++ String "." t)
      ∧ l ≠ "" ∧ d ≠ "" ∧ t ≠ ""
      ∧ allAtom l = true ∧ allAtom d = true ∧ allAtom t = true.
Proof.
  unfold isValidEmail, emailRegex_test. split.
  - intros H. apply andb_true_iff in H as [_ H].
    apply matchLocal_sound in H as (l & dom & Hs & [?|Hl] & Hal & Hdom);
      [discriminate|].
    apply matchDomain_sound in Hdom as (d & t & -> & Hd & Ht & Had & Hat).
    exists l, d, t. auto 10.
  - intros (l & d & t & Hs & Hl & Hd & Ht & Hal & Had & Hat).
    apply andb_true_iff. split.
    + destruct e; [|reflexivity]. destruct l; [contradiction | discriminate].
    + rewrite Hs. apply matchLocal_complete; [right; exact Hl | exact Hal |].
      apply matchDomain_complete; assumption.
Qed.

Lemma isAtomChar_lowerChar c : isAtomChar (lowerChar c) = isAtomChar c.
Proof. destruct c as [[] [] [] [] [] [] [] []]; reflexivity. Qed.

Lemma allAtom_toLowerCase s : allAtom (toLowerCase s) = allAtom s.
Proof.
  induction s as [|c s IH]; [reflexivity|].
  cbn [toLowerCase allAtom]. rewrite isAtomChar_lowerChar, IH. reflexivity.
Qed.

Lemma toLowerCase_app a b : toLowerCase (a ++ b) = toLowerCase a ++ toLowerCase b.
Proof.
  induction a as [|c a IH]; [reflexivity|].
  change (toLowerCase (String c (a ++ b))
          = String (lowerChar c) (toLowerCase a ++ toLowerCase b)).
  cbn [toLowerCase]. rewrite IH. reflexivity.
Qed.

Lemma at_lowerChar c : Ascii.eqb (lowerChar c) "@" = Ascii.eqb c "@".
Proof. destruct c as [[] [] [] [] [] [] [] []]; reflexivity. Qed.

Lemma matchDomain_toLowerCase s : matchDomain (toLowerCase s) = matchDomain s.
Proof.
  induction s as [|c s IH]; [reflexivity|].
  cbn [toLowerCase matchDomain]. rewrite isAtomChar_lowerChar, IH.
  f_equal. f_equal.
  destruct s as [|a s]; [reflexivity|].
  destruct s as [|d s'']; cbn [toLowerCase].
  - destruct a as [[] [] [] [] [] [] [] []]; reflexivity.
  - destruct a as [[] [] [] [] [] [] [] []]; try reflexivity.
    change (lowerChar ".") with "."%char. cbn iota.
    rewrite isAtomChar_lowerChar, allAtom_toLowerCase. reflexivity.
Qed.

Lemma matchLocal_toLowerCase seen s :
  matchLocal seen (toLowerCase s) = matchLocal seen s.
Proof.
  revert seen. induction s as [|c s IH]; intros seen; [reflexivity|].
  cbn [toLowerCase matchLocal].
  rewrite at_lowerChar, isAtomChar_lowerChar, IH, matchDomain_toLowerCase.
  reflexivity.
Qed.

Lemma trim_truthy s : emailRegex_test (trim s) = true → truthy s = true.
Proof. destruct s; [discriminate | reflexivity]. Qed.

(** X8: validation commutes with normalization. [isValidEmail] gives the
same verdict on an email and on its lowercased, trimmed form; so the delta
handler, which validates the email as received and then normalizes it, and
[normalizeRow], which normalizes first and validates the result, accept the
same emails. *)
Theorem isValidEmail_normalization_invariant e :
  isValidEmail (Some (trim (toLowerCase e))) = isValidEmail (Some e).
Proof.
  unfold isValidEmail.
  rewrite trim_idempotent.
  assert (emailRegex_test (trim (toLowerCase e)) = emailRegex_test (trim e)) as Hr.
  { rewrite trim_toLowerCase. apply matchLocal_toLowerCase. }
  rewrite Hr.
  destruct (emailRegex_test (trim e)) eqn:Hv; [|rewrite !andb_false_r; reflexivity].
  rewrite (trim_truthy e Hv), andb_true_r.
  rewrite <- Hr in Hv.
  destruct (trim (toLowerCase e)); [discriminate | reflexivity].
Qed.

(** X9: [normalizeRow] is idempotent. A row it accepts with a string
status comes out with an email that is valid and is its own lowercased,
trimmed form, and with one of the three canonical statuses; normalizing
that output again gives it back unchanged. *)
Theorem normalizeRow_idempotent row n st :
  normalizeRow row = Some (Some n) →
  statusInOrg n = VString st →
  isValidEmail (Some (email n)) = true
  ∧ trim (toLowerCase (email n)) = email n
  ∧ canonicalStatus st
  ∧ normalizeRow {| raw_email := Some (email n);
                    raw_statusInOrg := VString st;
                    raw_eventId := raw_eventId row;
                    raw_deltaType := raw_deltaType row;
                    raw_orgName := raw_orgName row |}
    = Some (Some n).
Proof.
  unfold normalizeRow at 1.
  destruct (raw_email row) as [e|]; cbn [option_map]; [|discriminate].
  destruct (truthy (trim (toLowerCase e))) eqn:Htruthy; [|discriminate].
  destruct (isValidEmail (Some (trim (toLowerCase e)))) eqn:Hvalid;
    [|discriminate].
  cbn [negb orb].
  destruct (normalizeStatus (raw_statusInOrg row)) as [v|] eqn:Hst;
    [|discriminate].
  intros [= <-]. cbn [email statusInOrg]. intros ->.
  split; [exact Hvalid|].
  split; [apply normalization_idempotent|].
  split; [eapply normalizeStatus_string_canonical, Hst|].
  unfold normalizeRow. cbn [raw_email raw_statusInOrg option_map].
  rewrite normalization_idempotent, Htruthy, Hvalid. cbn [negb orb].
  rewrite (normalizeStatus_idempotent_on_strings _ _ Hst), Hst. reflexivity.
Qed.

Lemma normalizeRow_idempotent_witness :
  isValidEmail (Some "bob@x.com") = true
  ∧ trim (toLowerCase "bob@x.com") = "bob@x.com"
  ∧ canonicalStatus "left"
  ∧ normalizeRow {| raw_email := Some "bob@x.com";
                    raw_statusInOrg := VString "left";
                    raw_eventId := None; raw_deltaType := None;
                    raw_orgName := None |}
    = Some (Some {| email := "bob@x.com"; statusInOrg := VString "left" |}).
Proof.
  apply (normalizeRow_idempotent
           {| raw_email := Some "  Bob@X.com "; raw_statusInOrg := VString "Retired";
              raw_eventId := None; raw_deltaType := None; raw_orgName := None |}
           {| email := "bob@x.com"; statusInOrg := VString "left" |} "left").
  - reflexivity.
  - reflexivity.
Defined.

End EmailFormatFacts.

(** ** Partial matches of [normalizeStatus] *)

Section StatusPriorityFacts.
Import JsString Status.

Lemma ownProperty_key (m : list (string * string)) k v :
  ownProperty m k = Some v → k ∈ m.*1.
Proof.
  induction m as [|[k' v'] m IH]; cbn [ownProperty]; [discriminate|].
  destruct (String.eqb_spec k' k) as [->|_]; intros H.
  - left.
  - right. apply IH, H.
Qed.

Lemma existsb_eqb_elem_of k (l : list string) :
  existsb (String.eqb k) l = true → k ∈ l.
Proof.
  induction l as [|x l IH]; cbn [existsb]; [discriminate|].
  destruct (String.eqb_spec k x) as [->|_]; intros H.
  - left.
  - right. apply IH, H.
Qed.

(** X10: the partial match looks for the vocabulary words in the order of
[statusMap], whose first key is ['active']. So every status that contains
the word [active] (case ignored), other than exactly [inactive], is
classified ['active']: a status such as [Inactive since May] or
[not active] counts as active. *)
Theorem normalizeStatus_containing_active s :
  includes (trim (toLowerCase s)) "active" = true →
  trim (toLowerCase s) ≠ "inactive" →
  normalizeStatus (VString s) = Returns (VString "active").
Proof.
  intros Hinc Hne. unfold normalizeStatus.
  assert (isTruthy (VString s) = true) as ->.
  { destruct s; [discriminate Hinc | reflexivity]. }
  cbn [negb]. unfold getProperty.
  remember (trim (toLowerCase s)) as n eqn:Hn. clear Hn.
  destruct (ownProperty statusMap n) as [v|] eqn:Hown.
  - pose proof (ownProperty_key _ _ _ Hown) as Hkey.
    unfold statusMap in Hkey. cbn [fmap list_fmap fst] in Hkey.
    repeat (apply elem_of_cons in Hkey as [->|Hkey]);
      try discriminate Hinc; try contradiction; try (inversion Hkey; fail).
    vm_compute in Hown. injection Hown as <-. reflexivity.
  - destruct (existsb (String.eqb n) objectPrototypeKeys) eqn:Hproto.
    + exfalso. apply existsb_eqb_elem_of in Hproto.
      unfold objectPrototypeKeys in Hproto.
      repeat (apply elem_of_cons in Hproto as [->|Hproto]);
        try discriminate Hinc.
      inversion Hproto.
    + cbn [isTruthy]. unfold statusMap. cbn [partialMatch].
      rewrite Hinc. reflexivity.
Qed.

Lemma normalizeStatus_containing_active_witness :
  normalizeStatus (VString "Inactive since May") = Returns (VString "active").
Proof.
  apply (normalizeStatus_containing_active "Inactive since May").
  - reflexivity.
  - discriminate.
Defined.

End StatusPriorityFacts.

(** ** Deltas: the two handlers update in place *)

Section DeltaFrameFacts.
Import JsString Firestore Invariants.

Lemma updatedInPlace_refl src now c : updatedInPlace src now c c.
Proof. split; [reflexivity|]. intros id d H. exists d. auto. Qed.

Lemma updatedInPlace_trans src now c1 c2 c3 :
  updatedInPlace src now c1 c2 → updatedInPlace src now c2 c3 →
  updatedInPlace src now c1 c3.
Proof.
  intros [Hdom1 H1] [Hdom2 H2]. split; [congruence|].
  intros id d Hd.
  destruct (H1 id d Hd) as (d' & Hd' & He' & Hl' & Hc').
  destruct (H2 id d' Hd') as (d'' & Hd'' & He'' & Hl'' & Hc'').
  exists d''. split; [exact Hd''|]. split; [congruence|]. split; [congruence|].
  destruct Hc'' as [->|?]; [exact Hc' | right; assumption].
Qed.

Lemma updatedInPlace_alter src now (f : Employee → Employee) ref c :
  (∀ d, email (f d) = email d ∧ lastSeenEpoch (f d) = lastSeenEpoch d
        ∧ source (f d) = src ∧ updatedAt (f d) = now) →
  updatedInPlace src now c (alter f ref c).
Proof.
  intros Hf. split; [apply dom_alter_L|].
  intros id d Hd. destruct (decide (id = ref)) as [->|Hne].
  - exists (f d). rewrite lookup_alter_eq, Hd.
    destruct (Hf d) as (? & ? & ? & ?). auto 6.
  - exists d. rewrite lookup_alter_ne by congruence. auto.
Qed.

Lemma applyDelta_step now c p s message :
  ∃ c' p' s',
    IngestDeltas.applyDelta now (c, p, s) message = (c', p', s')
    ∧ (p' + s' = p + s + 1)%N
    ∧ updatedInPlace "kafka:delta" now c c'.
Proof.
  unfold IngestDeltas.applyDelta.
  destruct (IngestDeltas.msg_email message) as [rawEmail|].
  2:{ eexists _, _, _. split; [reflexivity|]. split; [lia|].
      apply updatedInPlace_refl. }
  destruct (negb (truthy rawEmail) || negb (Status.isValidEmail (Some rawEmail))).
  { eexists _, _, _. split; [reflexivity|]. split; [lia|].
    apply updatedInPlace_refl. }
  destruct (whereEmailEq c (trim (toLowerCase rawEmail))) as [[ref old]|].
  2:{ eexists _, _, _. split; [reflexivity|]. split; [lia|].
      apply updatedInPlace_refl. }
  destruct (IngestDeltas.statusOfDelta (IngestDeltas.msg_deltaType message)).
  2:{ eexists _, _, _. split; [reflexivity|]. split; [lia|].
      apply updatedInPlace_refl. }
  eexists _, _, _. split; [reflexivity|]. split; [lia|].
  apply updatedInPlace_alter. intros d. repeat split.
Qed.

Lemma applyDelta_fold now msgs c p s :
  ∃ c' p' s',
    fold_left (IngestDeltas.applyDelta now) msgs (c, p, s) = (c', p', s')
    ∧ (p' + s' = p + s + N.of_nat (length msgs))%N
    ∧ updatedInPlace "kafka:delta" now c c'.
Proof.
  revert c p s. induction msgs as [|m msgs IH]; intros c p s.
  - exists c, p, s. split; [reflexivity|]. split; [cbn; lia|].
    apply updatedInPlace_refl.
  - cbn [fold_left].
    destruct (applyDelta_step now c p s m) as (c1 & p1 & s1 & -> & Hc1 & Hu1).
    destruct (IH c1 p1 s1) as (c2 & p2 & s2 & -> & Hc2 & Hu2).
    exists c2, p2, s2. split; [reflexivity|].
    split; [cbn [length]; lia|].
    eapply updatedInPlace_trans; eassumption.
Qed.

(** X11: the whole of [handleIngestDeltas]. A request with an [orgId] and
a [messages] array is answered 200 with [processed + skipped] equal to the
number of messages, each message counted once. The handler only updates
employee documents of that organization in place: none is created or
deleted, every document keeps its [email] and [lastSeenEpoch], a changed
document is tagged [kafka:delta] with the time of the call; the employees
of other organizations and all organization documents (the epochs) are
untouched. *)
Theorem handleIngestDeltas_updates_in_place now org msgs db :
  truthy org = true →
  ∃ processed skipped c',
    IngestDeltas.handleIngestDeltas now
      {| IngestDeltas.orgId := Some org; IngestDeltas.messages := Some msgs |} db
    = (IngestDeltas.Json200 processed skipped, withEmployees db org c')
    ∧ (processed + skipped = N.of_nat (length msgs))%N
    ∧ updatedInPlace "kafka:delta" now (employees db org) c'
    ∧ organizations (withEmployees db org c') = organizations db
    ∧ ∀ other, other ≠ org →
               employees (withEmployees db org c') other = employees db other.
Proof.
  intros Horg. unfold IngestDeltas.handleIngestDeltas.
  cbn [IngestDeltas.orgId IngestDeltas.messages]. rewrite Horg. cbn [negb].
  destruct (applyDelta_fold now msgs (employeesRef db org) 0%N 0%N)
    as (c' & p' & s' & -> & Hcount & Hupd).
  exists p', s', c'. split; [reflexivity|]. split; [lia|].
  split; [exact Hupd|]. split; [reflexivity|].
  intros other Hne. cbn [employees withEmployees].
  rewrite decide_False by exact Hne. reflexivity.
Qed.

Lemma handleIngestDeltas_updates_in_place_witness :
  ∃ processed skipped c',
    IngestDeltas.handleIngestDeltas 99
      {| IngestDeltas.orgId := Some "acme";
         IngestDeltas.messages :=
           Some [Notions.reactivateCharlie; Notions.leftDave] |}
      (Notions.acmeStore 2)
    = (IngestDeltas.Json200 processed skipped,
       withEmployees (Notions.acmeStore 2) "acme" c')
    ∧ (processed + skipped
       = N.of_nat (length [Notions.reactivateCharlie; Notions.leftDave]))%N
    ∧ updatedInPlace "kafka:delta" 99 (employees (Notions.acmeStore 2) "acme") c'
    ∧ organizations (withEmployees (Notions.acmeStore 2) "acme" c')
      = organizations (Notions.acmeStore 2)
    ∧ ∀ other, other ≠ "acme" →
               employees (withEmployees (Notions.acmeStore 2) "acme" c') other
               = employees (Notions.acmeStore 2) other.
Proof.
  apply (handleIngestDeltas_updates_in_place 99 "acme"
           [Notions.reactivateCharlie; Notions.leftDave] (Notions.acmeStore 2)).
  reflexivity.
Defined.

Lemma deltaRow_step now st row :
  Email.threw st = false →
  let st' := Email.deltaRow now st row in
  updatedInPlace "email:delta" now (Email.coll st) (Email.coll st')
  ∧ (Email.threw st' = false →
     (Email.processed st' + Email.skipped st'
      = Email.processed st + Email.skipped st + 1)%nat).
Proof.
  intros Hok. unfold Email.deltaRow. rewrite Hok.
  assert (∀ st0 : Email.Loop,
            Email.coll st0 = Email.coll st →
            (Email.threw st0 = false →
             (Email.processed st0 + Email.skipped st0
              = Email.processed st + Email.skipped st + 1)%nat) →
            updatedInPlace "email:delta" now (Email.coll st) (Email.coll st0)
            ∧ (Email.threw st0 = false →
               (Email.processed st0 + Email.skipped st0
                = Email.processed st + Email.skipped st + 1)%nat)) as Hsame.
  { intros st0 -> H. split; [apply updatedInPlace_refl | exact H]. }
  destruct (Status.raw_deltaType row) as [deltaType|].
  2:{ apply Hsame; [reflexivity | cbn; lia]. }
  destruct (negb (truthy deltaType)).
  { apply Hsame; [reflexivity | cbn; lia]. }
  destruct (Status.normalizeRow row) as [[normalized|]|].
  3:{ apply Hsame; [reflexivity | cbn; discriminate]. }
  2:{ apply Hsame; [reflexivity | cbn; lia]. }
  destruct (whereEmailEq (Email.coll st) (Status.email normalized))
    as [[ref old]|].
  2:{ apply Hsame; [reflexivity | cbn; lia]. }
  destruct (Email.transitionOfDelta deltaType) as [t|].
  2:{ apply Hsame; [reflexivity | cbn; lia]. }
  cbn [Email.wrote Email.coll Email.processed Email.skipped Email.threw].
  split; [|lia].
  apply updatedInPlace_alter. intros d. repeat split.
Qed.

Lemma deltaRow_threw now rs st :
  Email.threw st = true → fold_left (Email.deltaRow now) rs st = st.
Proof.
  intros H. induction rs as [|r rs IH]; [reflexivity|].
  cbn [fold_left]. unfold Email.deltaRow at 2. rewrite H. exact IH.
Qed.

Lemma deltaRow_fold now rs st :
  Email.threw st = false →
  let st' := fold_left (Email.deltaRow now) rs st in
  updatedInPlace "email:delta" now (Email.coll st) (Email.coll st')
  ∧ (Email.threw st' = false →
     (Email.processed st' + Email.skipped st'
      = Email.processed st + Email.skipped st + length rs)%nat).
Proof.
  revert st. induction rs as [|r rs IH]; intros st Hok.
  - cbn. split; [apply updatedInPlace_refl | lia].
  - cbn [fold_left length].
    destruct (deltaRow_step now st r Hok) as [Hu1 Hc1].
    destruct (Email.threw (Email.deltaRow now st r)) eqn:Hthrew.
    + rewrite deltaRow_threw by exact Hthrew. cbn zeta.
      split; [exact Hu1|]. congruence.
    + destruct (IH _ Hthrew) as [Hu2 Hc2]. cbn zeta in *.
      split; [eapply updatedInPlace_trans; eassumption|].
      intros H. specialize (Hc1 eq_refl). specialize (Hc2 H). lia.
Qed.

(** X12: the delta path of the email channel ([handleDeltas]). Whatever the
rows, the handler only updates employee documents of the organization in
place: none is created or deleted, every document keeps its [email] and
[lastSeenEpoch], a changed document is tagged [email:delta] with the time
of the call; no epoch is begun or finalized (the organization documents
are untouched) and other organizations are untouched. When the handler
does not reject, every row is counted once, as processed or as skipped. *)
Theorem handleDeltas_updates_in_place now org rs db :
  updatedInPlace "email:delta" now (employees db org)
    (employees (Email.db_after (Email.handleDeltas now org rs db)) org)
  ∧ organizations (Email.db_after (Email.handleDeltas now org rs db))
    = organizations db
  ∧ (∀ other, other ≠ org →
       employees (Email.db_after (Email.handleDeltas now org rs db)) other
       = employees db other)
  ∧ (Email.rejected (Email.handleDeltas now org rs db) = false →
     (Email.processed (Email.counted (Email.handleDeltas now org rs db))
      + Email.skipped (Email.counted (Email.handleDeltas now org rs db))
      = length rs)%nat).
Proof.
  unfold Email.handleDeltas.
  cbn [Email.db_after Email.counted Email.rejected].
  destruct (deltaRow_fold now rs
              {| Email.coll := employeesRef db org; Email.processed := 0;
                 Email.skipped := 0; Email.threw := false |} eq_refl)
    as [Hupd Hcount].
  cbn zeta in *. cbn [Email.coll Email.processed Email.skipped] in *.
  split; [|split; [reflexivity|split]].
  - cbn [employees withEmployees]. rewrite decide_True by reflexivity.
    exact Hupd.
  - intros other Hne. cbn [employees withEmployees].
    rewrite decide_False by exact Hne. reflexivity.
  - intros H. specialize (Hcount H). lia.
Qed.

End DeltaFrameFacts.

(** ** Epochs: [beginRun], [finalizeRun] and the snapshot upload *)

Section SnapshotFacts.
Import JsString Firestore Finalize Email Invariants.
Local Open Scope list_scope.

Lemma finalizeRun_returned commitFails fuel now org E db db' :
  finalizeRun commitFails fuel now org E db = Some (Returned db') →
  employees db' org = Notions.swept now E <$> employees db org
  ∧ (∀ other, other ≠ org → employees db' other = employees db other)
  ∧ (∃ d, organizations db !! org = Some d
          ∧ organizations db'
            = <[org := {| currentEpoch := Some E;
                          lastFinalizedEpoch := Some E;
                          name := name d; org_updatedAt := now |}]>
                (organizations db)).
Proof.
  assert (0 < pageSize)%nat as Hsize by (unfold pageSize; lia).
  unfold finalizeRun, finalizeRunWith.
  destruct (sweep_spec commitFails pageSize now E Hsize fuel None
              (employeesRef db org) 0%nat 0%nat) as [Hres _]; [reflexivity|].
  destruct (sweep commitFails fuel pageSize now E None (employeesRef db org) 0 0)
    as [[c' total'|c']|]; [|discriminate|discriminate].
  specialize (Hres c' total' eq_refl). cbn [organizations withEmployees].
  destruct (organizations db !! org) as [d|] eqn:Horg; [|discriminate].
  intros [= <-]. cbn [employees organizations withOrganization withEmployees].
  split; [rewrite decide_True by reflexivity; exact Hres|].
  split; [intros other Hne; rewrite decide_False by exact Hne; reflexivity|].
  exists d. auto.
Qed.

Lemma finalizeRun_returns commitFails fuel now org E db :
  is_Some (organizations db !! org) →
  (∀ k, commitFails k = false) →
  (size (employees db org) < fuel)%nat →
  ∃ db', finalizeRun commitFails fuel now org E db = Some (Returned db').
Proof.
  assert (0 < pageSize)%nat as Hsize by (unfold pageSize; lia).
  intros [d Hd] Hok Hfuel. unfold finalizeRun, finalizeRunWith.
  destruct (sweep_spec commitFails pageSize now E Hsize fuel None
              (employeesRef db org) 0%nat 0%nat) as [_ Hterm]; [reflexivity|].
  destruct Hterm as (r & -> & Hr).
  { unfold matching, employeesRef.
    pose proof (length_filter (fun x => stale E x.2 = true)
                  (map_to_list (employees db org))) as Hle.
    rewrite length_map_to_list in Hle. lia. }
  destruct (Hr Hok) as (c' & total' & ->).
  cbn [organizations withEmployees]. rewrite Hd. eauto.
Qed.

Lemma beginRun_current now org orgName db :
  (beginRun now org orgName db).1
  = (orZero (organizations db !! org ≫= currentEpoch) + 1)%Z
  ∧ orZero (organizations (beginRun now org orgName db).2 !! org
            ≫= currentEpoch)
    = (orZero (organizations db !! org ≫= currentEpoch) + 1)%Z
  ∧ organizations (beginRun now org orgName db).2 !! org ≫= lastFinalizedEpoch
    = organizations db !! org ≫= lastFinalizedEpoch
  ∧ employees (beginRun now org orgName db).2 = employees db
  ∧ ∀ other, other ≠ org →
             organizations (beginRun now org orgName db).2 !! other
             = organizations db !! other.
Proof.
  unfold beginRun. cbn [fst snd organizations employees withOrganization].
  rewrite lookup_insert_eq.
  cbn [mbind option_bind currentEpoch lastFinalizedEpoch].
  assert (match organizations db !! org with
          | Some d => orZero (currentEpoch d)
          | None => 0%Z
          end = orZero (organizations db !! org ≫= currentEpoch)) as ->
      by (destruct (organizations db !! org); reflexivity).
  split; [reflexivity|]. split.
  - unfold orZero at 1.
    destruct (_ + 1 =? 0)%Z eqn:H0; [apply Z.eqb_eq in H0; lia | reflexivity].
  - split; [reflexivity|]. split; [reflexivity|].
    intros other Hne. apply lookup_insert_ne. congruence.
Qed.

(** X13: epochs are issued in sequence. When [beginRun] is called several
times for an organization with no [finalizeRun] in between (as by the
requests of the bridge, which never ask to close an epoch), the calls
return consecutive epochs, starting one above the current epoch (1 for a
new organization): no epoch number is issued twice. The calls leave the
[lastFinalizedEpoch], every employee document and every other organization
as they were, and the last epoch issued is the [currentEpoch] afterwards. *)
Theorem beginRun_consecutive_epochs calls org db :
  (beginRuns calls org db).1
  = (fun i => (orZero (organizations db !! org ≫= currentEpoch)
               + Z.of_nat i)%Z) <$> seq 1 (length calls)
  ∧ orZero (organizations (beginRuns calls org db).2 !! org ≫= currentEpoch)
    = (orZero (organizations db !! org ≫= currentEpoch)
       + Z.of_nat (length calls))%Z
  ∧ organizations (beginRuns calls org db).2 !! org ≫= lastFinalizedEpoch
    = organizations db !! org ≫= lastFinalizedEpoch
  ∧ employees (beginRuns calls org db).2 = employees db
  ∧ ∀ other, other ≠ org →
             organizations (beginRuns calls org db).2 !! other
             = organizations db !! other.
Proof.
  revert db. induction calls as [|[now orgName] calls IH]; intros db.
  - cbn [beginRuns length seq fmap list_fmap fst snd].
    rewrite Z.add_0_r. repeat split.
  - cbn [beginRuns fst snd].
    destruct (beginRun_current now org orgName db)
      as (Hepoch & Hcur & Hfin & Hemp & Hother).
    destruct (beginRun now org orgName db) as [epoch db1].
    cbn [fst snd] in *.
    destruct (IH db1) as (IH1 & IH2 & IH3 & IH4 & IH5).
    destruct (beginRuns calls org db1) as [epochs db2]. cbn [fst snd] in *.
    rewrite IH1, IH2, IH3, IH4, Hcur, Hfin, Hemp, Hepoch.
    cbn [length seq fmap list_fmap].
    split; [|split; [lia | split; [reflexivity | split; [reflexivity|]]]].
    + f_equal. rewrite <- (seq_shift (length calls) 1).
      change (map S (seq 1 (length calls))) with (S <$> seq 1 (length calls)).
      rewrite <- list_fmap_compose.
      apply list_fmap_ext. intros i x _. cbn [compose]. lia.
    + intros other Hne. rewrite IH5 by exact Hne. apply Hother, Hne.
Qed.

(** X14: [finalizeRun] is idempotent on the employees. After a
[finalizeRun(orgId, E)] that returned, another one for the same epoch or
an older one, whenever it returns, leaves every employee document of every
organization as it is. *)
Theorem finalizeRun_idempotent
  commitFails fuel now commitFails' fuel' now' org E E' db db1 db2 :
  (E' <= E)%Z →
  finalizeRun commitFails fuel now org E db = Some (Returned db1) →
  finalizeRun commitFails' fuel' now' org E' db1 = Some (Returned db2) →
  ∀ other, employees db2 other = employees db1 other.
Proof.
  intros Hle H1 H2 other.
  apply finalizeRun_returned in H1 as (Hemp1 & _ & _).
  apply finalizeRun_returned in H2 as (Hemp2 & Hother2 & _).
  destruct (decide (other = org)) as [->|Hne]; [|apply Hother2, Hne].
  rewrite Hemp2, Hemp1. apply map_eq. intros id. rewrite !lookup_fmap.
  destruct (employees db org !! id) as [d|]; [|reflexivity].
  cbn [fmap option_fmap option_map]. f_equal.
  unfold Notions.swept at 1.
  assert (stale E' (Notions.swept now E d) = false) as ->; [|reflexivity].
  pose proof (swept_not_stale now E d) as Hns. unfold stale in *.
  destruct (presentInLatest (Notions.swept now E d)); [|reflexivity].
  cbn [andb] in *. apply Z.ltb_ge in Hns. apply Z.ltb_ge. lia.
Qed.

Lemma finalizeRun_idempotent_witness :
  employees
    (returnedOr
       (finalizeRun (fun _ => false) 5 60 "acme" 2
          (returnedOr
             (finalizeRun (fun _ => false) 5 50 "acme" 2 (Notions.acmeStore 3))
             (Notions.acmeStore 3)))
       (Notions.acmeStore 3)) "acme"
  = employees
      (returnedOr
         (finalizeRun (fun _ => false) 5 50 "acme" 2 (Notions.acmeStore 3))
         (Notions.acmeStore 3)) "acme".
Proof.
  apply (finalizeRun_idempotent (fun _ => false) 5 50 (fun _ => false) 5 60
           "acme" 2 2 (Notions.acmeStore 3)).
  - lia.
  - vm_compute. reflexivity.
  - vm_compute. reflexivity.
Defined.


Lemma mergeData_fields old data :
  email (mergeData old data) = email data
  ∧ statusInOrg (mergeData old data) = statusInOrg data
  ∧ presentInLatest (mergeData old data) = presentInLatest data
  ∧ lastSeenEpoch (mergeData old data) = lastSeenEpoch data
  ∧ updatedAt (mergeData old data) = updatedAt data
  ∧ source (mergeData old data) = source data.
Proof.
  unfold mergeData. destruct old as [o|], (lastEventId data); repeat split.
Qed.

Lemma fresh_lookup (c : gmap DocId Employee) : c !! fresh (dom c) = None.
Proof. apply not_elem_of_dom, is_fresh. Qed.

Lemma acceptedEmails_cons r rs :
  acceptedEmails (r :: rs) = acceptedEmails [r] ++ acceptedEmails rs.
Proof.
  unfold acceptedEmails. cbn [omap list_omap].
  destruct (Status.normalizeRow r) as [[n|]|]; reflexivity.
Qed.

(** Writing a document for email [e] in epoch [E] keeps the invariant. *)
Lemma snapshotInv_write E (c : gmap DocId Employee) seen ref d e :
  snapshotInv E c seen →
  lastSeenEpoch d = E → presentInLatest d = true →
  source d = "email:upsert" → email d = e →
  (∀ old, c !! ref = Some old → email old = e) →
  snapshotInv E (<[ref := d]> c) (seen ++ [e]).
Proof.
  intros [Hdocs Hseen] HE Hp Hs He Hold. split.
  - intros id d' Hlook. destruct (decide (id = ref)) as [->|Hne].
    + rewrite lookup_insert_eq in Hlook. injection Hlook as <-.
      right. repeat split; try assumption.
      apply elem_of_app. right. rewrite He. left.
    + rewrite lookup_insert_ne in Hlook by congruence.
      destruct (Hdocs id d' Hlook) as [?|(? & ? & ? & Hin)]; [left; assumption|].
      right. repeat split; try assumption. apply elem_of_app. left. exact Hin.
  - intros e' Hin.
    assert (∃ d0, <[ref := d]> c !! ref = Some d0 ∧ email d0 = e
                  ∧ lastSeenEpoch d0 = E) as Hnew.
    { exists d. rewrite lookup_insert_eq. auto. }
    apply elem_of_app in Hin as [Hin|Hin].
    + destruct (Hseen e' Hin) as (id & d0 & Hlook & He' & HE').
      destruct (decide (id = ref)) as [->|Hne].
      * destruct Hnew as (d1 & H1 & H2 & H3). exists ref, d1.
        split; [exact H1|]. split; [|exact H3].
        rewrite H2, <- He'. symmetry. apply Hold, Hlook.
      * exists id, d0. rewrite lookup_insert_ne by congruence. auto.
    + apply list_elem_of_singleton in Hin as ->.
      destruct Hnew as (d1 & H1 & H2 & H3). eauto.
Qed.

Lemma upsertRow_snapshot now E st r seen :
  threw st = false → snapshotInv E (coll st) seen →
  threw (upsertRow now E st r) = false →
  snapshotInv E (coll (upsertRow now E st r)) (seen ++ acceptedEmails [r]).
Proof.
  intros Hok Hinv. unfold upsertRow, acceptedEmails. rewrite Hok.
  cbn [omap list_omap].
  destruct (Status.normalizeRow r) as [[n|]|]; cbn [raise threw];
    [| intros _; rewrite app_nil_r; exact Hinv | discriminate].
  destruct (Status.statusInOrg n) as [| |st'|]; cbn [raise threw];
    try discriminate.
  intros _.
  destruct (whereEmailEq (coll st) (Status.email n)) as [[ref old]|] eqn:Hq;
    cbn [wrote coll].
  - apply whereEmailEq_Some in Hq as [Hold Hmail].
    unfold setMerge.
    destruct (mergeData_fields (coll st !! ref)
                {| email := Status.email n; statusInOrg := st';
                   presentInLatest := true; lastSeenEpoch := E;
                   updatedAt := now; source := "email:upsert";
                   lastEventId := None |})
      as (H1 & _ & H3 & H4 & _ & H6).
    apply snapshotInv_write; try assumption.
    intros old' Hold'. congruence.
  - unfold addDoc. apply snapshotInv_write; try reflexivity; [exact Hinv|].
    intros old Hold. rewrite fresh_lookup in Hold. discriminate.
Qed.

Lemma upsertRows_snapshot now E rs : ∀ st seen,
  threw st = false → snapshotInv E (coll st) seen →
  threw (fold_left (upsertRow now E) rs st) = false →
  snapshotInv E (coll (fold_left (upsertRow now E) rs st))
    (seen ++ acceptedEmails rs).
Proof.
  induction rs as [|r rs IH]; intros st seen Hok Hinv Hend; cbn [fold_left] in *.
  - unfold acceptedEmails. cbn. rewrite app_nil_r. exact Hinv.
  - destruct (threw (upsertRow now E st r)) eqn:Hthrew.
    + rewrite (upsertRow_threw _ _ _ _ Hthrew) in Hend. congruence.
    + rewrite acceptedEmails_cons, app_assoc.
      apply IH; [exact Hthrew | | exact Hend].
      apply upsertRow_snapshot; assumption.
Qed.

Lemma upsertRow_plain now E st r :
  plainRow r → threw st = false → threw (upsertRow now E st r) = false.
Proof.
  unfold plainRow, upsertRow. intros Hplain ->.
  destruct (Status.normalizeRow r) as [[n|]|]; [|reflexivity|contradiction].
  destruct Hplain as [st' ->].
  destruct (whereEmailEq _ _) as [[ref old]|]; reflexivity.
Qed.

Lemma upsertRows_plain now E rs : ∀ st,
  (∀ r, r ∈ rs → plainRow r) → threw st = false →
  threw (fold_left (upsertRow now E) rs st) = false.
Proof.
  induction rs as [|r rs IH]; intros st Hplain Hok; cbn [fold_left];
    [exact Hok|].
  apply IH; [intros r' Hr'; apply Hplain; right; exact Hr'|].
  apply upsertRow_plain; [apply Hplain; left | exact Hok].
Qed.

Lemma upsertRow_size now E st r :
  (size (coll (upsertRow now E st r)) <= size (coll st) + 1)%nat.
Proof.
  unfold upsertRow. destruct (threw st); [lia|].
  destruct (Status.normalizeRow r) as [[n|]|]; cbn [raise skip coll]; try lia.
  destruct (Status.statusInOrg n); cbn [raise coll]; try lia.
  destruct (whereEmailEq _ _) as [[ref old]|]; cbn [wrote coll];
    unfold setMerge, addDoc; rewrite map_size_insert;
    destruct (_ !! _); unfold id; lia.
Qed.

Lemma upsertRows_size now E rs : ∀ st,
  (size (coll (fold_left (upsertRow now E) rs st))
   <= size (coll st) + length rs)%nat.
Proof.
  induction rs as [|r rs IH]; intros st; cbn [fold_left length]; [lia|].
  pose proof (IH (upsertRow now E st r)).
  pose proof (upsertRow_size now E st r). lia.
Qed.

(** X15: an upload of kind [upserts] is a snapshot of the organization.
Let [E] be the epoch [beginRun] starts, and let no employee of the
organization have been seen in epoch [E] or later. When [handleUpserts]
completes, the organization's [currentEpoch] and [lastFinalizedEpoch] are
[E]; an employee document has [presentInLatest = true] exactly when its
[lastSeenEpoch] is [E], and then it was written by this upload for the
email of a row that [normalizeRow] accepted; and every accepted email has
such a document. So the employees present after the upload are those of the
file, and everyone else has been marked absent. And the handler does
complete: when no row makes it throw and the store accepts the commits,
it returns once the sweep has as many page reads as there can be documents,
plus one. *)
Theorem handleUpserts_is_snapshot commitFails fuel now org rs orgName db :
  (∀ id d, employees db org !! id = Some d →
           (lastSeenEpoch d < (beginRun now org orgName db).1)%Z) →
  (∀ h,
     handleUpserts commitFails fuel now org rs orgName db = Some h →
     rejected h = false →
     organizations (db_after h) !! org ≫= currentEpoch
     = Some (beginRun now org orgName db).1
     ∧ organizations (db_after h) !! org ≫= lastFinalizedEpoch
       = Some (beginRun now org orgName db).1
     ∧ (∀ id d, employees (db_after h) org !! id = Some d →
          (presentInLatest d = true
           ↔ lastSeenEpoch d = (beginRun now org orgName db).1)
          ∧ (presentInLatest d = true →
             email d ∈ acceptedEmails rs ∧ source d = "email:upsert"))
     ∧ (∀ e, e ∈ acceptedEmails rs →
          ∃ id d, employees (db_after h) org !! id = Some d
                  ∧ email d = e ∧ presentInLatest d = true))
  ∧ ((∀ r, r ∈ rs → plainRow r) →
     (∀ k, commitFails k = false) →
     (size (employees db org) + length rs < fuel)%nat →
     ∃ h, handleUpserts commitFails fuel now org rs orgName db = Some h
          ∧ rejected h = false).
Proof.
  intros Hold. unfold handleUpserts.
  destruct (beginRun now org orgName db) as [E db1] eqn:Hbegin.
  cbn [fst] in *.
  assert (employees db1 = employees db
          ∧ is_Some (organizations db1 !! org)) as [Hemp Horg].
  { unfold beginRun in Hbegin. injection Hbegin as _ <-.
    split; [reflexivity|].
    cbn [organizations withOrganization]. rewrite lookup_insert_eq. eauto. }
  unfold employeesRef. rewrite Hemp.
  set (st0 := {| coll := employees db org; processed := 0; skipped := 0;
                 threw := false |}).
  set (st := fold_left (upsertRow now E) rs st0).
  assert (snapshotInv E (coll st0) []) as Hinv0.
  { split; [intros id d Hd; left; apply (Hold id d Hd)|].
    intros e He. inversion He. }
  split.
  - intros h. destruct (threw st) eqn:Hthrew.
    { intros [= <-]. discriminate. }
    pose proof (upsertRows_snapshot now E rs st0 [] eq_refl Hinv0 Hthrew)
      as [Hdocs Hseen].
    fold st in Hdocs, Hseen. cbn [app] in Hdocs, Hseen.
    destruct (finalizeRun commitFails fuel now org E
                (withEmployees db1 org (coll st)))
      as [[db3|db3]|] eqn:Hfin; intros [= <-]; try discriminate.
    intros _. cbn [db_after].
    apply finalizeRun_returned in Hfin as (Hemp3 & _ & d0 & _ & Horg3).
    cbn [employees withEmployees] in Hemp3.
    rewrite decide_True in Hemp3 by reflexivity.
    rewrite Horg3, lookup_insert_eq.
    split; [reflexivity|]. split; [reflexivity|]. split.
    + intros id d. rewrite Hemp3, lookup_fmap.
      destruct (coll st !! id) as [d1|] eqn:Hd1; [|discriminate].
      cbn [fmap option_fmap option_map]. intros [= <-].
      unfold Notions.swept, stale.
      destruct (Hdocs id d1 Hd1) as [Hlt|(HE & Hp & Hs & Hin)].
      * destruct (presentInLatest d1) eqn:Hp1; cbn [andb].
        -- assert ((lastSeenEpoch d1 <? E)%Z = true) as ->
               by (apply Z.ltb_lt; exact Hlt).
           cbn [markAbsent presentInLatest lastSeenEpoch].
           split; [split; [discriminate | lia] | discriminate].
        -- rewrite Hp1. split; [split; [discriminate | lia] | discriminate].
      * rewrite Hp. cbn [andb].
        assert ((lastSeenEpoch d1 <? E)%Z = false) as ->
            by (apply Z.ltb_ge; lia).
        rewrite Hp. split; [split; auto | auto].
    + intros e He. destruct (Hseen e He) as (id & d1 & Hd1 & He1 & HE1).
      exists id, d1. rewrite Hemp3, lookup_fmap, Hd1.
      destruct (Hdocs id d1 Hd1) as [Hlt|(_ & Hp & _)]; [lia|].
      cbn [fmap option_fmap option_map].
      unfold Notions.swept, stale. rewrite Hp. cbn [andb].
      assert ((lastSeenEpoch d1 <? E)%Z = false) as ->
          by (apply Z.ltb_ge; lia).
      auto.
  - intros Hplain Hcommit Hfuel.
    assert (threw st = false) as ->
        by (apply upsertRows_plain; [exact Hplain | reflexivity]).
    destruct (finalizeRun_returns commitFails fuel now org E
                (withEmployees db1 org (coll st))) as [db3 ->].
    + exact Horg.
    + exact Hcommit.
    + cbn [employees withEmployees]. rewrite decide_True by reflexivity.
      pose proof (upsertRows_size now E rs st0) as Hsz.
      fold st in Hsz. cbn [coll st0] in Hsz. lia.
    + eauto.
Qed.

Lemma handleUpserts_is_snapshot_witness :
  ∃ h, handleUpserts (fun _ => false) 5 50 "acme"
         [Notions.rawRow " Bob@X.com" "Retired"; Notions.rawRow "nobody" ""]
         None (Notions.acmeStore 2) = Some h
       ∧ rejected h = false.
Proof.
  apply (handleUpserts_is_snapshot (fun _ => false) 5 50 "acme"
           [Notions.rawRow " Bob@X.com" "Retired"; Notions.rawRow "nobody" ""]
           None (Notions.acmeStore 2)).
  - intros id d Hd.
    assert (map_Forall (fun _ d => (lastSeenEpoch d < 3)%Z)
              (employees (Notions.acmeStore 2) "acme")) as Hall
        by (apply (bool_decide_unpack _); vm_compute; reflexivity).
    exact (Hall id d Hd).
  - intros r Hr.
    repeat (apply elem_of_cons in Hr as [->|Hr]); [| |inversion Hr].
    + exists "left". reflexivity.
    + exact I.
  - reflexivity.
  - vm_compute. lia.
Defined.

(** The upload above on two employees last seen in epoch 1: both are
marked absent, Bob is added as present in epoch 3, and the row without a
valid email is skipped. *)
Example handleUpserts_marks_the_absent :
  (fun h => (docs (employees (db_after h) "acme"),
             organizations (db_after h) !! "acme"))
  <$> handleUpserts (fun _ => false) 5 50 "acme"
        [Notions.rawRow " Bob@X.com" "Retired"; Notions.rawRow "nobody" ""]
        None (Notions.acmeStore 2)
  = Some
      ([ (1%positive, markAbsent 50 (Notions.seenAt 1));
         (2%positive, markAbsent 50 (Notions.seenAt 1));
         (3%positive,
          {| email := "bob@x.com"; statusInOrg := "left";
             presentInLatest := true; lastSeenEpoch := 3; updatedAt := 50;
             source := "email:upsert"; lastEventId := None |}) ],
       Some {| currentEpoch := Some 3%Z; lastFinalizedEpoch := Some 3%Z;
               name := Some "Acme"; org_updatedAt := 50 |}).
Proof. vm_compute. reflexivity. Qed.

End SnapshotFacts.

(** ** The optimizer: what a run writes *)

Section UpsertRunFacts.
Import JsString Firestore Optimizer Invariants.
Local Open Scope list_scope.

Lemma upsertedInto_refl E now emails c : upsertedInto E now emails c c.
Proof. split; [reflexivity|]. intros id d H. left. exact H. Qed.

Lemma upsertedInto_trans E now emails c1 c2 c3 :
  upsertedInto E now emails c1 c2 → upsertedInto E now emails c2 c3 →
  upsertedInto E now emails c1 c3.
Proof.
  intros [Hdom1 H1] [Hdom2 H2]. split; [set_solver|].
  intros id d Hd. destruct (H2 id d Hd) as [Hd2|?]; [|right; assumption].
  apply H1, Hd2.
Qed.

Lemma upsertedInto_insert E now emails (c : gmap DocId Employee) ref d :
  lastSeenEpoch d = E → presentInLatest d = true →
  source d = "kafka:upsert" → updatedAt d = now → email d ∈ emails →
  upsertedInto E now emails c (<[ref := d]> c).
Proof.
  intros. split; [rewrite dom_insert_L; set_solver|].
  intros id d' Hd. destruct (decide (id = ref)) as [->|Hne].
  - rewrite lookup_insert_eq in Hd. injection Hd as <-. right. auto.
  - rewrite lookup_insert_ne in Hd by congruence. left. exact Hd.
Qed.

Lemma applyItem_upsertedInto E now emails c item :
  lastSeenEpoch (item_data item) = E →
  presentInLatest (item_data item) = true →
  source (item_data item) = "kafka:upsert" →
  updatedAt (item_data item) = now →
  email (item_data item) ∈ emails →
  upsertedInto E now emails c (applyItem c item).
Proof.
  intros H1 H2 H3 H4 H5. unfold applyItem, setMerge, addDoc.
  destruct (item_ref item) as [ref|].
  - destruct (mergeData_fields (c !! ref) (item_data item))
      as (He & _ & Hp & Hl & Hu & Hs).
    apply upsertedInto_insert; congruence.
  - apply upsertedInto_insert; assumption.
Qed.

Lemma applyItems_upsertedInto E now emails items : ∀ c,
  (∀ item, item ∈ items →
     lastSeenEpoch (item_data item) = E
     ∧ presentInLatest (item_data item) = true
     ∧ source (item_data item) = "kafka:upsert"
     ∧ updatedAt (item_data item) = now
     ∧ email (item_data item) ∈ emails) →
  upsertedInto E now emails c (fold_left applyItem items c).
Proof.
  induction items as [|item items IH]; intros c Hitems; cbn [fold_left].
  - apply upsertedInto_refl.
  - eapply upsertedInto_trans; [|apply IH; intros i Hi; apply Hitems; right; exact Hi].
    destruct (Hitems item) as (? & ? & ? & ? & ?); [left|].
    apply applyItem_upsertedInto; assumption.
Qed.

Lemma prepared_items messages existing E now item :
  item ∈ prepareEmployeeData messages existing E now →
  lastSeenEpoch (item_data item) = E
  ∧ presentInLatest (item_data item) = true
  ∧ source (item_data item) = "kafka:upsert"
  ∧ updatedAt (item_data item) = now
  ∧ email (item_data item) ∈ deduplicateEmails messages.
Proof.
  intros Hin.
  destruct (prepare_invariant existing E now messages)
    as (Heq & _ & _ & _ & Hitems).
  destruct (Hitems item Hin) as (m & _ & Hdata & _).
  rewrite Hdata. cbn [lastSeenEpoch presentInLatest source updatedAt email].
  repeat split.
  unfold deduplicateEmails.
  change (map fst (fold_left dedupStep (rev messages) []))
    with ((fold_left dedupStep (rev messages) []).*1).
  rewrite <- Heq. apply list_elem_of_fmap. exists item. auto.
Qed.

Lemma runWave_errors env : ∀ wave idx st,
  (∀ k, commitFails env k = false) →
  (runWave env idx wave st).2 = st.2.
Proof.
  induction wave as [|batch wave IH]; intros idx [[c p] e] Hok; cbn [runWave];
    [reflexivity|].
  rewrite Hok. unfold commitBatch. rewrite IH by exact Hok. reflexivity.
Qed.

Lemma runWaves_errors env : ∀ waves idx st size,
  (∀ k, commitFails env k = false) →
  (runWaves env idx waves st size).1.2 = st.2.
Proof.
  induction waves as [|wave waves IH]; intros idx st size Hok; cbn [runWaves];
    [reflexivity|].
  pose proof (runWave_errors env wave idx st Hok) as Hw.
  destruct (runWave env idx wave st) as [[c1 p1] e1]. cbn [snd] in Hw.
  rewrite IH by exact Hok. exact Hw.
Qed.

Lemma writeBatches_counts env c items o :
  skipped (writeBatches env c items o).1.1 = 0%N
  ∧ ((∀ k, commitFails env k = false) →
     errors (writeBatches env c items o).1.1 = 0%N).
Proof.
  unfold writeBatches.
  pose proof (runWaves_errors env
                (chunk CONFIG.MAX_PARALLEL_BATCHES
                   (chunk (Z.to_nat (currentBatchSize o)) items))
                0%nat (c, 0%N, 0%N) (currentBatchSize o)) as Herr.
  destruct (runWaves _ _ _ _ _) as [[[c' p'] e'] size'].
  cbn [fst snd skipped errors] in *. split; [reflexivity|].
  intros Hok. apply Herr, Hok.
Qed.

(** X16: what an invocation of [processUpserts] that the circuit breaker
lets through does to the store. It deletes no document; a document of the
organization that is new or changed afterwards was written by this run:
it has [lastSeenEpoch] equal to the epoch passed, [presentInLatest = true],
source [kafka:upsert], the time of the call, and the email of one of the
deduplicated messages; the employees of other organizations and all
organization documents are untouched. The result never reports skipped
messages, and reports at most one processed message per deduplicated
email; when no commit fails it reports exactly that many and no error. *)
Theorem processUpserts_writes_only_upserts
  env orgId messages epochNumber o db :
  (canProceed (now env) o).1 = true →
  (0 < currentBatchSize o)%Z →
  ∃ r o' c',
    processUpserts env orgId messages epochNumber o db
    = (Resolved r, o', withEmployees db orgId c')
    ∧ upsertedInto epochNumber (now env) (deduplicateEmails messages)
        (employees db orgId) c'
    ∧ organizations (withEmployees db orgId c') = organizations db
    ∧ (∀ other, other ≠ orgId →
         employees (withEmployees db orgId c') other = employees db other)
    ∧ skipped r = 0%N
    ∧ (processed r <= N.of_nat (length (deduplicateEmails messages)))%N
    ∧ ((∀ k, commitFails env k = false) →
       processed r = N.of_nat (length (deduplicateEmails messages))
       ∧ errors r = 0%N).
Proof.
  intros Hcan Hsize. unfold processUpserts.
  pose proof (canProceed_batchSize (now env) o) as Hsize0.
  destruct (canProceed (now env) o) as [ok o0]. cbn [fst snd] in Hcan, Hsize0.
  subst ok. cbn [negb].
  pose proof (loadExistingEmployees_circuit env orgId (employeesRef db orgId)
                (deduplicateEmails messages) o0) as (_ & _ & Hsize1).
  destruct (loadExistingEmployees _ _ _ _ _) as [existing o1].
  cbn [snd] in Hsize1.
  set (items := prepareEmployeeData messages existing epochNumber (now env)).
  destruct (writeBatches_written env (employeesRef db orgId) items o1)
    as (written & Hsub & Hstore & Hproc & Hall); [lia|].
  destruct (writeBatches_counts env (employeesRef db orgId) items o1)
    as [Hskip Herr].
  destruct (writeBatches _ _ _ _) as [[r c'] o2]. cbn [fst snd] in *.
  subst c'.
  assert (length items = length (deduplicateEmails messages)) as Hlen.
  { destruct (prepare_invariant existing epochNumber (now env) messages)
      as (Heq & _).
    unfold items, prepareEmployeeData, deduplicateEmails.
    change (map fst (fold_left dedupStep (rev messages) []))
      with ((fold_left dedupStep (rev messages) []).*1).
    rewrite <- Heq, length_fmap. reflexivity. }
  eexists r, _, _. split; [reflexivity|].
  split.
  { apply applyItems_upsertedInto. intros item Hin.
    apply (prepared_items messages existing).
    eapply elem_of_sublist; [exact Hin | exact Hsub]. }
  split; [reflexivity|]. split.
  { intros other Hne. cbn [employees withEmployees].
    rewrite decide_False by exact Hne. reflexivity. }
  split; [exact Hskip|]. split.
  - rewrite Hproc, <- Hlen. apply sublist_length in Hsub. lia.
  - intros Hok. rewrite Hproc, (Hall Hok), Hlen. split; [reflexivity|].
    apply Herr, Hok.
Qed.

Lemma processUpserts_writes_only_upserts_witness :
  ∃ r o' c',
    processUpserts (Notions.healthyEnv 100) "acme" Notions.bobTwice 3
      constructor (Notions.acmeStore 2)
    = (Resolved r, o', withEmployees (Notions.acmeStore 2) "acme" c')
    ∧ upsertedInto 3 (now (Notions.healthyEnv 100))
        (deduplicateEmails Notions.bobTwice)
        (employees (Notions.acmeStore 2) "acme") c'
    ∧ organizations (withEmployees (Notions.acmeStore 2) "acme" c')
      = organizations (Notions.acmeStore 2)
    ∧ (∀ other, other ≠ "acme" →
         employees (withEmployees (Notions.acmeStore 2) "acme" c') other
         = employees (Notions.acmeStore 2) other)
    ∧ skipped r = 0%N
    ∧ (processed r <= N.of_nat (length (deduplicateEmails Notions.bobTwice)))%N
    ∧ ((∀ k, commitFails (Notions.healthyEnv 100) k = false) →
       processed r = N.of_nat (length (deduplicateEmails Notions.bobTwice))
       ∧ errors r = 0%N).
Proof.
  apply (processUpserts_writes_only_upserts (Notions.healthyEnv 100) "acme"
           Notions.bobTwice 3 constructor (Notions.acmeStore 2)).
  - reflexivity.
  - reflexivity.
Defined.

End UpsertRunFacts.

(** ** The optimizer: looking up existing employees *)

Section LookupFacts.
Import JsString Firestore Optimizer Invariants.
Local Open Scope list_scope.

Lemma elem_of_whereEmailIn (c : gmap DocId Employee) ch id d :
  (id, d) ∈ whereEmailIn c ch ↔ email d ∈ ch ∧ c !! id = Some d.
Proof.
  unfold whereEmailIn. rewrite list_elem_of_filter, elem_of_docs. reflexivity.
Qed.

(** The loop that turns a query snapshot into a map from email to
reference. *)
Lemma snapshot_map_sound (l : list (DocId * Employee)) : ∀ acc e ref,
  fold_left
    (fun (m : gmap string DocId) d =>
       if truthy (email d.2) then <[email d.2 := d.1]> m else m) l acc
  !! e = Some ref →
  acc !! e = Some ref
  ∨ (truthy e = true ∧ ∃ d, (ref, d) ∈ l ∧ email d = e).
Proof.
  induction l as [|[id d] l IH]; intros acc e ref; cbn [fold_left fst snd].
  - auto.
  - intros H. apply IH in H as [H|(Ht & d' & Hin & He)].
    + destruct (truthy (email d)) eqn:Ht; [|left; exact H].
      destruct (decide (email d = e)) as [<-|Hne].
      * rewrite lookup_insert_eq in H. injection H as <-.
        right. split; [exact Ht|]. exists d. split; [left | reflexivity].
      * rewrite lookup_insert_ne in H by exact Hne. left. exact H.
    + right. split; [exact Ht|]. exists d'. split; [right; exact Hin | exact He].
Qed.

Lemma snapshot_map_complete (l : list (DocId * Employee)) : ∀ acc e,
  is_Some (acc !! e)
  ∨ (truthy e = true ∧ ∃ id d, (id, d) ∈ l ∧ email d = e) →
  is_Some (fold_left
             (fun (m : gmap string DocId) d =>
                if truthy (email d.2) then <[email d.2 := d.1]> m else m) l acc
           !! e).
Proof.
  induction l as [|[id d] l IH]; intros acc e; cbn [fold_left fst snd].
  - intros [H|(_ & id & d & Hin & _)]; [exact H | inversion Hin].
  - intros H. apply IH.
    destruct H as [H|(Ht & id' & d' & Hin & He)].
    + left. destruct (truthy (email d)); [|exact H].
      destruct (decide (email d = e)) as [<-|Hne].
      * rewrite lookup_insert_eq. eauto.
      * rewrite lookup_insert_ne by exact Hne. exact H.
    + apply elem_of_cons in Hin as [[= <- <-]|Hin].
      * left. rewrite He, Ht, <- He, lookup_insert_eq. eauto.
      * right. eauto.
Qed.

Lemma chunkMap_sound (c : gmap DocId Employee) ch e ref :
  chunkMap c ch !! e = Some ref →
  e ∈ ch ∧ truthy e = true ∧ ∃ d, c !! ref = Some d ∧ email d = e.
Proof.
  unfold chunkMap. intros H.
  apply snapshot_map_sound in H as [H|(Ht & d & Hin & He)].
  - rewrite lookup_empty in H. discriminate.
  - apply elem_of_whereEmailIn in Hin as [Hch Hd].
    split; [congruence|]. split; [exact Ht|]. eauto.
Qed.

Lemma chunkMap_complete (c : gmap DocId Employee) ch e id d :
  e ∈ ch → truthy e = true → c !! id = Some d → email d = e →
  is_Some (chunkMap c ch !! e).
Proof.
  intros Hch Ht Hd He. unfold chunkMap. apply snapshot_map_complete.
  right. split; [exact Ht|]. exists id, d. split; [|exact He].
  apply elem_of_whereEmailIn. split; [congruence | exact Hd].
Qed.

Lemma runQueries_sound env c : ∀ chunks idx acc m e ref,
  (runQueries env c idx chunks (acc, m)).1 !! e = Some ref →
  acc !! e = Some ref ∨ ∃ ch, ch ∈ chunks ∧ chunkMap c ch !! e = Some ref.
Proof.
  induction chunks as [|ch chunks IH]; intros idx acc m e ref;
    cbn [runQueries fst].
  - auto.
  - destruct (queryFails env idx); intros H; apply IH in H as [H|(ch' & Hin & H)].
    + auto.
    + right. exists ch'. split; [right; exact Hin | exact H].
    + apply lookup_union_Some_raw in H as [H|[_ H]].
      * right. exists ch. split; [left | exact H].
      * auto.
    + right. exists ch'. split; [right; exact Hin | exact H].
Qed.

Lemma runQueries_complete env c : ∀ chunks idx acc m e,
  (∀ k, queryFails env k = false) →
  is_Some (acc !! e) ∨ (∃ ch, ch ∈ chunks ∧ is_Some (chunkMap c ch !! e)) →
  is_Some ((runQueries env c idx chunks (acc, m)).1 !! e).
Proof.
  induction chunks as [|ch chunks IH]; intros idx acc m e Hok;
    cbn [runQueries fst].
  - intros [H|(ch & Hin & _)]; [exact H | inversion Hin].
  - rewrite Hok. intros H. apply IH; [exact Hok|].
    destruct H as [H|(ch' & Hin & H)].
    + left. apply lookup_union_is_Some. auto.
    + apply elem_of_cons in Hin as [->|Hin].
      * left. apply lookup_union_is_Some. auto.
      * right. eauto.
Qed.

Lemma elem_of_chunk {A} (size : nat) (l : list A) x :
  (0 < size)%nat → x ∈ l ↔ ∃ ch, ch ∈ chunk size l ∧ x ∈ ch.
Proof.
  intros Hsize. rewrite <- (concat_chunk size l Hsize) at 1.
  rewrite list_elem_of_In, in_concat. split.
  - intros (ch & H1 & H2). exists ch. rewrite !list_elem_of_In. auto.
  - intros (ch & H1 & H2). exists ch. rewrite <- !list_elem_of_In. auto.
Qed.

(** X17: looking up the existing employees with a cold cache. When the
cache has no live entry for the organization and no query fails, the map
[loadExistingEmployees] returns is exact for the emails asked: each entry
maps a non-empty email that was asked for to a document of the collection
with that email, and every non-empty email that was asked for and has a
document in the collection has an entry. (Splitting the emails into
queries of ten loses and invents nothing.) *)
Theorem loadExistingEmployees_cold_cache env orgId c emails o :
  (getFromCache (now env) ("org:" ++ orgId)%string (cache o)).1 = None →
  (∀ k, queryFails env k = false) →
  (∀ e ref,
     (loadExistingEmployees env orgId c emails o).1 !! e = Some ref →
     e ∈ emails ∧ truthy e = true ∧ ∃ d, c !! ref = Some d ∧ email d = e)
  ∧ (∀ e id d,
       e ∈ emails → truthy e = true → c !! id = Some d → email d = e →
       is_Some ((loadExistingEmployees env orgId c emails o).1 !! e)).
Proof.
  intros Hcold Hok. unfold loadExistingEmployees.
  destruct (getFromCache (now env) ("org:" ++ orgId)%string (cache o))
    as [cached c1]. cbn [fst] in Hcold. subst cached.
  unfold bulkQueryEmployees.
  assert (0 < CONFIG.QUERY_CHUNK_SIZE)%nat as Hsize
      by (unfold CONFIG.QUERY_CHUNK_SIZE; lia).
  split.
  - intros e ref H.
    destruct (runQueries env c 0 (chunk CONFIG.QUERY_CHUNK_SIZE emails)
                (∅, bumpCacheMisses (metrics o))) as [m1 m2] eqn:Hrun.
    cbn [fst] in H.
    assert ((runQueries env c 0 (chunk CONFIG.QUERY_CHUNK_SIZE emails)
               (∅, bumpCacheMisses (metrics o))).1 !! e = Some ref) as H'
        by (rewrite Hrun; exact H).
    apply runQueries_sound in H' as [H'|(ch & Hin & H')].
    { rewrite lookup_empty in H'. discriminate. }
    apply chunkMap_sound in H' as (Hch & Ht & Hd).
    split; [|auto]. apply (elem_of_chunk _ _ _ Hsize). eauto.
  - intros e id d Hin Ht Hd He.
    pose proof (runQueries_complete env c
                  (chunk CONFIG.QUERY_CHUNK_SIZE emails) 0
                  ∅ (bumpCacheMisses (metrics o)) e Hok) as Hc.
    destruct (runQueries env c 0 (chunk CONFIG.QUERY_CHUNK_SIZE emails)
                (∅, bumpCacheMisses (metrics o))) as [m1 m2].
    cbn [fst] in *. apply Hc. right.
    apply (elem_of_chunk _ _ _ Hsize) in Hin as (ch & Hch & Hin).
    exists ch. split; [exact Hch|].
    eapply chunkMap_complete; eassumption.
Qed.

Lemma loadExistingEmployees_cold_cache_witness :
  is_Some ((loadExistingEmployees (Notions.healthyEnv 100) "acme"
              Notions.roster ["charlie@x.com"; "dave@x.com"] constructor).1
           !! "charlie@x.com").
Proof.
  destruct (loadExistingEmployees_cold_cache (Notions.healthyEnv 100) "acme"
              Notions.roster ["charlie@x.com"; "dave@x.com"] constructor)
    as [_ H].
  - reflexivity.
  - reflexivity.
  - apply (H "charlie@x.com" 5%positive Notions.charlie).
    + left.
    + reflexivity.
    + reflexivity.
    + reflexivity.
Defined.

End LookupFacts.

(** ** The cache of the optimizer *)

Section CacheRoundTripFacts.
Import JsString Firestore Optimizer.
Local Open Scope list_scope.

(** X18: the cache round trip. What [addToCache] stores under a key,
[getFromCache] returns for that key as long as no more than
[CACHE_TTL_MS] have passed, leaving the cache as it is; once more time has
passed it returns nothing and removes the entry. *)
Theorem addToCache_getFromCache now now' key d c :
  ((now' - now <= CONFIG.CACHE_TTL_MS)%Z →
   getFromCache now' key (addToCache now key d c)
   = (Some d, addToCache now key d c))
  ∧ ((CONFIG.CACHE_TTL_MS < now' - now)%Z →
     getFromCache now' key (addToCache now key d c)
     = (None, mapDelete (addToCache now key d c) key)).
Proof.
  unfold getFromCache, addToCache. rewrite mapGet_mapSet. cbn [timestamp data].
  split; intros H.
  - destruct (now' - now >? CONFIG.CACHE_TTL_MS)%Z eqn:Hgt; [|reflexivity].
    apply Z.gtb_lt in Hgt. lia.
  - destruct (now' - now >? CONFIG.CACHE_TTL_MS)%Z eqn:Hgt; [reflexivity|].
    rewrite Z.gtb_ltb in Hgt. apply Z.ltb_ge in Hgt. lia.
Qed.

Lemma cached_filter (cachedMap : gmap string DocId) emails : ∀ acc e,
  fold_left
    (fun (acc : gmap string DocId) e =>
       match cachedMap !! e with
       | Some ref => <[e := ref]> acc
       | None => acc
       end) emails acc !! e
  = match (if decide (e ∈ emails) then cachedMap !! e else None) with
    | Some ref => Some ref
    | None => acc !! e
    end.
Proof.
  induction emails as [|x emails IH]; intros acc e; cbn [fold_left].
  - rewrite decide_False by (intros H; inversion H). reflexivity.
  - rewrite IH.
    assert (cachedMap !! e = None →
            match cachedMap !! x with
            | Some ref => <[x := ref]> acc
            | None => acc
            end !! e = acc !! e) as Hmiss.
    { intros Hnone. destruct (decide (e = x)) as [->|Hne].
      - rewrite Hnone. reflexivity.
      - destruct (cachedMap !! x); [rewrite lookup_insert_ne by congruence|];
          reflexivity. }
    destruct (decide (e ∈ emails)) as [Hin|Hnin].
    + rewrite decide_True by (right; exact Hin).
      destruct (cachedMap !! e) eqn:He; [reflexivity | apply Hmiss, eq_refl].
    + destruct (decide (e = x)) as [->|Hne].
      * rewrite decide_True by left.
        destruct (cachedMap !! x); [rewrite lookup_insert_eq|]; reflexivity.
      * rewrite decide_False by (intros H; apply elem_of_cons in H as [?|?]; tauto).
        destruct (cachedMap !! x); [rewrite lookup_insert_ne by congruence|];
          reflexivity.
Qed.

(** X19: looking up the existing employees with a warm cache. When the
cache holds a live entry for the organization, [loadExistingEmployees]
answers from it alone: an email has a reference exactly when it was asked
for and the cached map has one, whatever documents the collection holds
now; one cache hit is counted and no query is made. An employee created
since the entry was stored is therefore reported as not existing. *)
Theorem loadExistingEmployees_warm_cache env orgId c emails o cached :
  (getFromCache (now env) ("org:" ++ orgId)%string (cache o)).1 = Some cached →
  (∀ e, (loadExistingEmployees env orgId c emails o).1 !! e
        = if decide (e ∈ emails) then cached !! e else None)
  ∧ cacheHits (metrics (loadExistingEmployees env orgId c emails o).2)
    = (cacheHits (metrics o) + 1)%N
  ∧ totalQueries (metrics (loadExistingEmployees env orgId c emails o).2)
    = totalQueries (metrics o)
  ∧ cache (loadExistingEmployees env orgId c emails o).2 = cache o.
Proof.
  intros Hwarm. unfold loadExistingEmployees.
  assert ((getFromCache (now env) ("org:" ++ orgId)%string (cache o)).2
          = cache o) as Hcache.
  { revert Hwarm. unfold getFromCache.
    destruct (mapGet (cache o) ("org:" ++ orgId)%string); [|discriminate].
    destruct (_ >? _)%Z; [discriminate | reflexivity]. }
  destruct (getFromCache (now env) ("org:" ++ orgId)%string (cache o))
    as [r c1]. cbn [fst snd] in Hwarm, Hcache. subst r c1.
  cbn [fst snd]. split; [|repeat split].
  intros e. rewrite cached_filter, lookup_empty.
  destruct (decide (e ∈ emails)); [|reflexivity].
  destruct (cached !! e); reflexivity.
Qed.

Lemma loadExistingEmployees_warm_cache_witness :
  (loadExistingEmployees (Notions.healthyEnv 1100) "acme" Notions.roster
     ["alice@x.com"; "charlie@x.com"]
     (withCache constructor [("org:acme", Notions.sampleEntry)])).1
  !! "charlie@x.com"
  = if decide ("charlie@x.com" ∈ ["alice@x.com"; "charlie@x.com"])
    then ({[ "alice@x.com" := 7%positive ]} : gmap string DocId)
         !! "charlie@x.com"
    else None.
Proof.
  destruct (loadExistingEmployees_warm_cache (Notions.healthyEnv 1100) "acme"
              Notions.roster ["alice@x.com"; "charlie@x.com"]
              (withCache constructor [("org:acme", Notions.sampleEntry)])
              {[ "alice@x.com" := 7%positive ]}) as [H _].
  - reflexivity.
  - apply H.
Defined.

End CacheRoundTripFacts.

(** ** The outcome of [postJson] *)

Section PostJsonOutcomeFacts.
Import Http.
Local Open Scope list_scope.

Lemma retryLoop_outcome maxRetries server : ∀ remaining attempt lastError,
  (Z.of_nat attempt + Z.of_nat remaining = maxRetries + 1)%Z →
  (0 < remaining)%nat →
  match (retryLoop maxRetries server remaining attempt lastError).1 with
  | Return r =>
      ∃ k st, (attempt <= k)%nat ∧ (Z.of_nat k <= maxRetries)%Z
              ∧ server k = Response st (text r)
              ∧ status r = (if (st =? 409)%Z then 200%Z else st)
              ∧ (isRetryable st = true → Z.of_nat k = maxRetries)
  | Throw e => server (Z.to_nat maxRetries) = NetworkError e
  end.
Proof.
  induction remaining as [|remaining IH]; intros attempt lastError Hsum Hpos;
    [lia|].
  cbn [retryLoop].
  assert (Z.of_nat attempt <= maxRetries)%Z as Hle by lia.
  assert (∀ e,
            (Z.of_nat attempt <? maxRetries)%Z = true →
            match (let '(r, tr) :=
                     retryLoop maxRetries server remaining (S attempt) e in
                   (r, Request attempt :: Backoff attempt :: tr)).1 with
            | Return r =>
                ∃ k st, (attempt <= k)%nat ∧ (Z.of_nat k <= maxRetries)%Z
                        ∧ server k = Response st (text r)
                        ∧ status r = (if (st =? 409)%Z then 200%Z else st)
                        ∧ (isRetryable st = true → Z.of_nat k = maxRetries)
            | Throw e' => server (Z.to_nat maxRetries) = NetworkError e'
            end) as Hcont.
  { intros e Hlt. apply Z.ltb_lt in Hlt.
    specialize (IH (S attempt) e).
    destruct (retryLoop maxRetries server remaining (S attempt) e) as [r tr].
    cbn [fst] in *.
    assert (0 < remaining)%nat as Hrem by lia.
    specialize (IH ltac:(lia) Hrem).
    destruct r as [r|e']; [|exact IH].
    destruct IH as (k & st & Hk & Hk' & Hsrv & Hst & Hlast).
    exists k, st. split; [lia|]. auto. }
  destruct (server attempt) as [st txt|e] eqn:Hsrv.
  - destruct (st =? 409)%Z eqn:H409.
    { cbn [fst]. exists attempt, st. rewrite H409. cbn [status text].
      repeat split; try lia; try assumption.
      apply Z.eqb_eq in H409. subst st. discriminate. }
    destruct ((200 <=? st)%Z && (st <? 300)%Z) eqn:H2xx.
    { cbn [fst]. exists attempt, st. rewrite H409. cbn [status text].
      repeat split; try lia; try assumption.
      unfold isRetryable. intros Hretry. exfalso.
      apply andb_true_iff in H2xx as [_ H2]. apply Z.ltb_lt in H2.
      apply orb_true_iff in Hretry as [H5|H4];
        [apply Z.leb_le in H5 | apply Z.eqb_eq in H4]; lia. }
    destruct (isRetryable st) eqn:Hretry; cbn [negb].
    2:{ cbn [fst]. exists attempt, st. rewrite H409. cbn [status text].
        repeat split; try lia; try assumption. congruence. }
    destruct (Z.of_nat attempt <? maxRetries)%Z eqn:Hlt.
    + apply Hcont, eq_refl.
    + cbn [fst]. exists attempt, st. rewrite H409. cbn [status text].
      apply Z.ltb_ge in Hlt.
      repeat split; try lia; try assumption.
  - destruct (Z.of_nat attempt <? maxRetries)%Z eqn:Hlt.
    + apply Hcont, eq_refl.
    + cbn [fst]. apply Z.ltb_ge in Hlt.
      assert (Z.to_nat maxRetries = attempt) as -> by lia. exact Hsrv.
Qed.

(** X20: every outcome of [postJson] for a non-negative [MAX_RETRIES].
What it returns is the reply to one of the requests [0..MAX_RETRIES], with
a 409 turned into a 200 (so 409 is never returned), and a retryable status
(5xx or 429) is returned only as the reply to the last allowed request.
What it throws is the network error of the last allowed request. *)
Theorem postJson_outcome maxRetries server :
  (0 <= maxRetries)%Z →
  match (postJson maxRetries server).1 with
  | Return r =>
      status r ≠ 409%Z
      ∧ ∃ k st, (Z.of_nat k <= maxRetries)%Z
                ∧ server k = Response st (text r)
                ∧ status r = (if (st =? 409)%Z then 200%Z else st)
                ∧ (isRetryable (status r) = true → Z.of_nat k = maxRetries)
  | Throw e => server (Z.to_nat maxRetries) = NetworkError e
  end.
Proof.
  intros Hmax. unfold postJson.
  pose proof (retryLoop_outcome maxRetries server
                (Z.to_nat (maxRetries + 1)) 0 None) as H.
  destruct (retryLoop maxRetries server (Z.to_nat (maxRetries + 1)) 0 None).1
    as [r|e]; [|apply H; lia].
  destruct H as (k & st & _ & Hk & Hsrv & Hst & Hlast); [lia | lia |].
  split.
  - rewrite Hst. destruct (st =? 409)%Z eqn:H409; [discriminate|].
    apply Z.eqb_neq, H409.
  - exists k, st. repeat split; try assumption.
    rewrite Hst. destruct (st =? 409)%Z; [discriminate | exact Hlast].
Qed.

Lemma postJson_outcome_witness :
  match (postJson 8 (Notions.flakyServer 409)).1 with
  | Return r =>
      status r ≠ 409%Z
      ∧ ∃ k st, (Z.of_nat k <= 8)%Z
                ∧ Notions.flakyServer 409 k = Response st (text r)
                ∧ status r = (if (st =? 409)%Z then 200%Z else st)
                ∧ (isRetryable (status r) = true → Z.of_nat k = 8%Z)
  | Throw e => Notions.flakyServer 409 (Z.to_nat 8) = NetworkError e
  end.
Proof.
  apply (postJson_outcome 8 (Notions.flakyServer 409)). lia.
Defined.

(** Without any allowed attempt ([MAX_RETRIES < 0]) no request is sent. *)
Example postJson_negative_retries :
  postJson (-1) (Notions.flakyServer 200)
  = (Throw "Unexpected retry loop exit", []).
Proof. reflexivity. Qed.

End PostJsonOutcomeFacts.

(** ** The sizes of queries and write batches *)

Section ChunkFacts.
Import Firestore Optimizer.
Local Open Scope list_scope.

Lemma chunksOf_bounds {A} (size : nat) : ∀ fuel (l : list A),
  (0 < size)%nat →
  Forall (fun ch => (0 < length ch <= size)%nat) (chunksOf fuel size l).
Proof.
  induction fuel as [|fuel IH]; intros l Hsize; [constructor|].
  destruct l as [|x l]; [constructor|].
  cbn [chunksOf]. constructor; [|apply IH, Hsize].
  rewrite length_take. cbn [length]. lia.
Qed.

(** X21: the store's limits are respected. [bulkQueryEmployees] puts
between 1 and [FIRESTORE_IN_LIMIT] (10) emails in every [in] query, and
[writeBatches], for a batch size between 100 and 500, puts between 1 and
500 operations in every write batch and commits at most
[MAX_PARALLEL_BATCHES] (5) batches at a time; nothing is lost in the
splitting. *)
Theorem queries_and_batches_within_limits
  (emails : list string) (items : list PreparedItem) (o : Instance) :
  (100 <= currentBatchSize o <= 500)%Z →
  Forall (fun ch => (1 <= length ch <= CONFIG.FIRESTORE_IN_LIMIT)%nat)
    (chunk CONFIG.QUERY_CHUNK_SIZE emails)
  ∧ concat (chunk CONFIG.QUERY_CHUNK_SIZE emails) = emails
  ∧ Forall (fun batch => (1 <= Z.of_nat (length batch)
                          <= CONFIG.FIRESTORE_BATCH_SIZE)%Z)
      (chunk (Z.to_nat (currentBatchSize o)) items)
  ∧ Forall (fun wave => (1 <= length wave <= CONFIG.MAX_PARALLEL_BATCHES)%nat)
      (chunk CONFIG.MAX_PARALLEL_BATCHES
         (chunk (Z.to_nat (currentBatchSize o)) items))
  ∧ concat (concat (chunk CONFIG.MAX_PARALLEL_BATCHES
                      (chunk (Z.to_nat (currentBatchSize o)) items)))
    = items.
Proof.
  intros Hsize. unfold CONFIG.FIRESTORE_IN_LIMIT, CONFIG.QUERY_CHUNK_SIZE,
    CONFIG.FIRESTORE_BATCH_SIZE, CONFIG.MAX_PARALLEL_BATCHES.
  split; [|split; [|split; [|split]]].
  - eapply Forall_impl; [apply chunksOf_bounds; lia|]. cbn. intros; lia.
  - apply concat_chunk. lia.
  - eapply Forall_impl; [apply chunksOf_bounds; lia|]. cbn. intros; lia.
  - eapply Forall_impl; [apply chunksOf_bounds; lia|]. cbn. intros; lia.
  - rewrite !concat_chunk by lia. reflexivity.
Qed.

Lemma queries_and_batches_within_limits_witness :
  Forall (fun ch => (1 <= length ch <= CONFIG.FIRESTORE_IN_LIMIT)%nat)
    (chunk CONFIG.QUERY_CHUNK_SIZE (replicate 25 "e@x.com")).
Proof.
  apply (queries_and_batches_within_limits (replicate 25 "e@x.com") []
           constructor).
  split; apply Z.leb_le; reflexivity.
Defined.

End ChunkFacts.

(** ** A finalization that fails *)

Section FinalizeFailureFacts.
Import JsString Firestore Finalize Invariants.
Local Open Scope list_scope.

Lemma partiallySwept_refl now E c : partiallySwept now E c c.
Proof. intros id. left. reflexivity. Qed.

Lemma partiallySwept_trans now E c0 c1 c2 :
  partiallySwept now E c0 c1 → partiallySwept now E c1 c2 →
  partiallySwept now E c0 c2.
Proof.
  intros H01 H12 id.
  destruct (H12 id) as [H|(d & Hd & Hstale & H)].
  - rewrite H. apply H01.
  - destruct (H01 id) as [H'|(d0 & Hd0 & _ & H')].
    + right. exists d. rewrite <- H'. auto.
    + exfalso. rewrite Hd in H'. injection H' as ->.
      unfold stale in Hstale. cbn in Hstale. discriminate.
Qed.

Lemma commitPage_partiallySwept now E page (c : gmap DocId Employee) :
  (∀ x, x ∈ page → x ∈ matching c E) →
  partiallySwept now E c (commitPage now page c).
Proof.
  intros Hpage id. rewrite commitPage_lookup.
  destruct (decide (id ∈ page.*1)) as [Hin|]; [|left; reflexivity].
  apply list_elem_of_fmap in Hin as ([i d] & -> & Hin). cbn [fst].
  apply Hpage, elem_of_matching in Hin as [Hlook Hstale].
  right. exists d. rewrite Hlook. auto.
Qed.

Lemma sweepQuery_matching (c : gmap DocId Employee) E cursor n x :
  x ∈ sweepQuery c E cursor n → x ∈ matching c E.
Proof.
  unfold sweepQuery. intros H.
  apply elem_of_take in H as (i & H & _).
  apply list_elem_of_lookup_2 in H.
  apply list_elem_of_filter in H as [_ H].
  rewrite merge_sort_Permutation in H. exact H.
Qed.

(** However the loop ends, the collection it leaves is a partial sweep of
the one it started from; and it throws only when a commit is rejected. *)
Lemma sweep_partial commitFails pageSize now E : ∀ fuel cursor c total page r,
  sweep commitFails fuel pageSize now E cursor c total page = Some r →
  match r with
  | Swept c' _ => partiallySwept now E c c'
  | CommitThrew c' =>
      partiallySwept now E c c' ∧ ∃ k, commitFails k = true
  end.
Proof.
  induction fuel as [|fuel IH]; intros cursor c total page r; [discriminate|].
  cbn [sweep].
  destruct (sweepQuery c E cursor pageSize) as [|x snapshot] eqn:Hq.
  { intros [= <-]. apply partiallySwept_refl. }
  destruct (commitFails page) eqn:Hfail.
  { intros [= <-]. split; [apply partiallySwept_refl | eauto]. }
  assert (partiallySwept now E c (commitPage now (x :: snapshot) c)) as Hstep.
  { apply commitPage_partiallySwept. intros y Hy.
    apply (sweepQuery_matching c E cursor pageSize). rewrite Hq. exact Hy. }
  destruct (length (x :: snapshot) <? pageSize)%nat.
  { intros [= <-]. exact Hstep. }
  intros H. apply IH in H. destruct r as [c' n|c'].
  - eapply partiallySwept_trans; eassumption.
  - destruct H as [H Hk]. split; [|exact Hk].
    eapply partiallySwept_trans; eassumption.
Qed.

(** X22: a [finalizeRun] that throws. It throws only because the store
rejected a page commit or because the organization document does not
exist. It then leaves the organization documents as they were (the epoch
is not marked finalized), the employees of other organizations untouched,
and the employees of the organization partially swept: each document is
either as it was, or was stale and has been marked absent. *)
Theorem finalizeRun_failure commitFails fuel now org E db db' :
  finalizeRun commitFails fuel now org E db = Some (Threw db') →
  organizations db' = organizations db
  ∧ partiallySwept now E (employees db org) (employees db' org)
  ∧ (∀ other, other ≠ org → employees db' other = employees db other)
  ∧ ((∃ k, commitFails k = true) ∨ organizations db !! org = None).
Proof.
  unfold finalizeRun, finalizeRunWith.
  pose proof (sweep_partial commitFails pageSize now E fuel None
                (employeesRef db org) 0%nat 0%nat) as Hpartial.
  destruct (sweep commitFails fuel pageSize now E None (employeesRef db org) 0 0)
    as [[c' total'|c']|]; [| |discriminate].
  - specialize (Hpartial _ eq_refl). cbn [organizations withEmployees].
    destruct (organizations db !! org) eqn:Horg; [discriminate|].
    intros [= <-]. cbn [organizations employees withEmployees].
    split; [reflexivity|]. split; [rewrite decide_True by reflexivity; exact Hpartial|].
    split; [|right; reflexivity].
    intros other Hne. rewrite decide_False by exact Hne. reflexivity.
  - destruct (Hpartial _ eq_refl) as [Hp Hk].
    intros [= <-]. cbn [organizations employees withEmployees].
    split; [reflexivity|]. split; [rewrite decide_True by reflexivity; exact Hp|].
    split; [|left; exact Hk].
    intros other Hne. rewrite decide_False by exact Hne. reflexivity.
Qed.

Lemma finalizeRun_failure_witness :
  organizations
    (thrownOr (finalizeRun (fun k => (0 <? k)%nat) 5 50 "acme" 2
                 (Notions.acmeStore 1500)) (Notions.acmeStore 1500))
  = organizations (Notions.acmeStore 1500).
Proof.
  apply (finalizeRun_failure (fun k => (0 <? k)%nat) 5 50 "acme" 2
           (Notions.acmeStore 1500)).
  vm_compute. reflexivity.
Defined.

End FinalizeFailureFacts.

(** ** The email channel: dispatch on [kind] *)

Section EmailDispatchFacts.
Import JsString Firestore Email Invariants.
Local Open Scope list_scope.

(** X23: the delta path of [handleEmail]. A request with an [orgId], at
least one row and a [kind] other than ['upserts'] (any other value,
['deltas'] or not) is handled as deltas: whatever the fuel, the handler
answers, either 200 reporting the number of rows together with the kind
as sent, or 500 when a row made it throw; it begins and finalizes no epoch
(the organization documents are untouched), leaves other organizations
untouched, and only updates employees in place, under the tag
[email:delta]. *)
Theorem handleEmail_other_kinds_are_deltas commitFails fuel now payload db org :
  orElse (orgId payload) None = Some org →
  rows payload ≠ [] →
  requestedKind payload ≠ "upserts" →
  ∃ resp db',
    handleEmail commitFails fuel now payload db = Some (resp, db')
    ∧ (resp = Json200 (length (rows payload)) (requestedKind payload)
       ∨ resp = Json500)
    ∧ organizations db' = organizations db
    ∧ (∀ other, other ≠ org → employees db' other = employees db other)
    ∧ updatedInPlace "email:delta" now (employees db org) (employees db' org).
Proof.
  intros Horg Hrows Hkind. unfold handleEmail. rewrite Horg.
  destruct (rows payload) as [|r rs] eqn:Hrs; [contradiction|].
  apply String.eqb_neq in Hkind. rewrite Hkind.
  destruct (deltaRow_fold now (r :: rs)
              {| coll := employeesRef db org; processed := 0;
                 skipped := 0; threw := false |} eq_refl) as [Hupd _].
  cbn zeta in Hupd. cbn [coll] in Hupd.
  unfold handleDeltas. cbn [rejected db_after].
  assert (∀ resp,
            (resp = Json200 (length (r :: rs)) (requestedKind payload)
             ∨ resp = Json500) →
            ∃ resp0 db',
              Some (resp,
                    withEmployees db org
                      (coll (fold_left (deltaRow now) (r :: rs)
                               {| coll := employeesRef db org; processed := 0;
                                  skipped := 0; threw := false |})))
              = Some (resp0, db')
              ∧ (resp0 = Json200 (length (r :: rs)) (requestedKind payload)
                 ∨ resp0 = Json500)
              ∧ organizations db' = organizations db
              ∧ (∀ other, other ≠ org → employees db' other = employees db other)
              ∧ updatedInPlace "email:delta" now (employees db org)
                  (employees db' org)) as Hboth.
  { intros resp Hresp. eexists _, _. split; [reflexivity|].
    split; [exact Hresp|].
    cbn [organizations employees withEmployees].
    split; [reflexivity|]. split.
    - intros other Hne. rewrite decide_False by exact Hne. reflexivity.
    - rewrite decide_True by reflexivity. exact Hupd. }
  destruct (threw _); apply Hboth; auto.
Qed.

Lemma handleEmail_other_kinds_are_deltas_witness :
  ∃ resp db',
    handleEmail (fun _ => false) 0 50
      {| orgId := Some "acme"; orgName := None; kind := Some "upsert";
         rows := [Notions.rawRow "e@x.com" "left"] |} (Notions.acmeStore 2)
    = Some (resp, db')
    ∧ (resp = Json200 1 "upsert" ∨ resp = Json500)
    ∧ organizations db' = organizations (Notions.acmeStore 2)
    ∧ (∀ other, other ≠ "acme" →
         employees db' other = employees (Notions.acmeStore 2) other)
    ∧ updatedInPlace "email:delta" 50
        (employees (Notions.acmeStore 2) "acme") (employees db' "acme").
Proof.
  apply (handleEmail_other_kinds_are_deltas (fun _ => false) 0 50
           {| orgId := Some "acme"; orgName := None; kind := Some "upsert";
              rows := [Notions.rawRow "e@x.com" "left"] |}
           (Notions.acmeStore 2) "acme").
  - reflexivity.
  - discriminate.
  - discriminate.
Defined.

End EmailDispatchFacts.

(** ** The upserts endpoint of the normalizer *)

Section IngestUpsertsFacts.
Import JsString Firestore Optimizer IngestUpserts Invariants.
Local Open Scope list_scope.

Lemma normalizeRow_email r n :
  Status.normalizeRow r = Some (Some n) →
  trim (toLowerCase (Status.email n)) = Status.email n.
Proof.
  unfold Status.normalizeRow.
  destruct (Status.raw_email r) as [e|]; cbn [option_map]; [|discriminate].
  destruct (_ || _); [discriminate|].
  destruct (Status.normalizeStatus _); [|discriminate].
  intros [= <-]. cbn [Status.email]. apply normalization_idempotent.
Qed.

Lemma acceptedEmails_length rs : (length (acceptedEmails rs) <= length rs)%nat.
Proof.
  unfold acceptedEmails. induction rs as [|r rs IH]; [reflexivity|].
  cbn [omap list_omap length].
  destruct (Status.normalizeRow r) as [[n|]|]; cbn [length]; lia.
Qed.

Lemma rejectedCount_cons r rs :
  rejectedCount (r :: rs)
  = ((match Status.normalizeRow r with Some (Some _) => 0 | _ => 1 end)
     + rejectedCount rs)%nat.
Proof.
  unfold rejectedCount. rewrite (acceptedEmails_cons r rs), length_app.
  pose proof (acceptedEmails_length rs).
  unfold acceptedEmails at 1. cbn [omap list_omap length].
  destruct (Status.normalizeRow r) as [[n|]|]; cbn [length]; lia.
Qed.

(** The normalization loop on rows that are plain: one message per
accepted row, with the row's normalized email, and one skip per rejected
row. *)
Lemma normalizeMessages_plain msgs : ∀ acc sk,
  (∀ r, r ∈ msgs → plainRow r) →
  ∃ ms,
    normalizeMessages msgs acc sk
    = Messages (acc ++ ms) (sk + N.of_nat (rejectedCount msgs))
    ∧ length ms = length (acceptedEmails msgs)
    ∧ ∀ m, m ∈ ms →
        ∃ e, msg_email m = Some e ∧ e ∈ acceptedEmails msgs
             ∧ trim (toLowerCase e) = e.
Proof.
  induction msgs as [|r msgs IH]; intros acc sk Hplain.
  - exists []. cbn [normalizeMessages]. rewrite app_nil_r.
    unfold rejectedCount. cbn. rewrite N.add_0_r.
    split; [reflexivity|]. split; [reflexivity|].
    intros m Hm. inversion Hm.
  - assert (∀ r', r' ∈ msgs → plainRow r') as Hrest
        by (intros r' Hr'; apply Hplain; right; exact Hr').
    pose proof (Hplain r ltac:(left)) as Hr. unfold plainRow in Hr.
    cbn [normalizeMessages].
    rewrite rejectedCount_cons, (acceptedEmails_cons r msgs).
    unfold acceptedEmails at 1 3. cbn [omap list_omap].
    destruct (Status.normalizeRow r) as [[n|]|] eqn:Hn; [| |contradiction].
    + destruct Hr as [st ->].
      destruct (IH (acc ++ [ {| msg_email := Some (Status.email n);
                                msg_statusInOrg := Some st;
                                msg_eventId := Status.raw_eventId r |} ])
                  sk Hrest) as (ms & -> & Hlen & Hms).
      eexists (_ :: ms). rewrite <- app_assoc. cbn [app Nat.add].
      split; [reflexivity|]. split; [cbn [length]; rewrite Hlen; reflexivity|].
      intros m Hm. apply elem_of_cons in Hm as [->|Hm].
      * exists (Status.email n). cbn [msg_email].
        split; [reflexivity|]. split; [left|].
        eapply normalizeRow_email, Hn.
      * destruct (Hms m Hm) as (e & He & Hin & Hfix).
        exists e. split; [exact He|]. split; [right; exact Hin | exact Hfix].
    + destruct (IH acc (sk + 1)%N Hrest) as (ms & -> & Hlen & Hms).
      exists ms. cbn [app].
      split; [f_equal; lia|]. split; [exact Hlen | exact Hms].
Qed.

Lemma dedupStep_length emailMap m :
  (length (dedupStep emailMap m) <= length emailMap + 1)%nat.
Proof.
  unfold dedupStep. destruct (normalizedEmail m) as [e|]; [|lia].
  destruct (truthy e && negb (mapHas emailMap e)); [|lia].
  pose proof (f_equal (@length _) (mapSet_keys emailMap e true)) as H.
  rewrite length_fmap in H. rewrite H.
  destruct (mapHas emailMap e);
    rewrite ?length_app, length_fmap; cbn [length]; lia.
Qed.

Lemma deduplicateEmails_length messages :
  (length (deduplicateEmails messages) <= length messages)%nat.
Proof.
  unfold deduplicateEmails. rewrite length_map, <- (length_rev messages).
  assert (∀ l acc, (length (fold_left dedupStep l acc)
                    <= length acc + length l)%nat) as H.
  { induction l as [|m l IH]; intros acc; cbn [fold_left length]; [lia|].
    pose proof (IH (dedupStep acc m)). pose proof (dedupStep_length acc m).
    lia. }
  apply (H (rev messages) []).
Qed.

Lemma upsertedInto_mono E now emails emails' c c' :
  (∀ e, e ∈ emails → e ∈ emails') →
  upsertedInto E now emails c c' → upsertedInto E now emails' c c'.
Proof.
  intros Hsub [Hdom H]. split; [exact Hdom|].
  intros id d Hd. destruct (H id d Hd) as [?|(? & ? & ? & ? & ?)]; [left; assumption|].
  right. auto 6.
Qed.

Lemma applyItems_size items : ∀ c : gmap DocId Employee,
  (size (fold_left applyItem items c) <= size c + length items)%nat.
Proof.
  induction items as [|item items IH]; intros c; cbn [fold_left length]; [lia|].
  pose proof (IH (applyItem c item)) as H.
  assert (size (applyItem c item) <= size c + 1)%nat; [|lia].
  unfold applyItem, setMerge, addDoc.
  destruct (item_ref item); rewrite map_size_insert;
    destruct (_ !! _); unfold id; lia.
Qed.

(** What a run that is let through writes, for any messages. *)
Lemma processUpserts_resolved env orgId messages epochNumber o db :
  (canProceed (now env) o).1 = true →
  (0 < currentBatchSize o)%Z →
  ∃ r o' c',
    processUpserts env orgId messages epochNumber o db
    = (Resolved r, o', withEmployees db orgId c')
    ∧ upsertedInto epochNumber (now env) (deduplicateEmails messages)
        (employees db orgId) c'
    ∧ skipped r = 0%N
    ∧ (processed r <= N.of_nat (length (deduplicateEmails messages)))%N
    ∧ (size c' <= size (employees db orgId)
                  + length (deduplicateEmails messages))%nat.
Proof.
  intros Hcan Hsize. unfold processUpserts.
  pose proof (canProceed_batchSize (now env) o) as Hsize0.
  destruct (canProceed (now env) o) as [ok o0]. cbn [fst snd] in Hcan, Hsize0.
  subst ok. cbn [negb].
  pose proof (loadExistingEmployees_circuit env orgId (employeesRef db orgId)
                (deduplicateEmails messages) o0) as (_ & _ & Hsize1).
  destruct (loadExistingEmployees _ _ _ _ _) as [existing o1].
  cbn [snd] in Hsize1.
  set (items := prepareEmployeeData messages existing epochNumber (now env)).
  destruct (writeBatches_written env (employeesRef db orgId) items o1)
    as (written & Hsub & Hstore & Hproc & _); [lia|].
  destruct (writeBatches_counts env (employeesRef db orgId) items o1)
    as [Hskip _].
  destruct (writeBatches _ _ _ _) as [[r c'] o2]. cbn [fst snd] in *.
  subst c'.
  assert (length written <= length (deduplicateEmails messages))%nat as Hlen.
  { apply sublist_length in Hsub.
    destruct (prepare_invariant existing epochNumber (now env) messages)
      as (Heq & _).
    assert (length items = length (deduplicateEmails messages)) as Hitems.
    { unfold items, prepareEmployeeData, deduplicateEmails.
      change (map fst (fold_left dedupStep (rev messages) []))
        with ((fold_left dedupStep (rev messages) []).*1).
      rewrite <- Heq, length_fmap. reflexivity. }
    lia. }
  eexists r, _, _. split; [reflexivity|].
  split; [|split; [exact Hskip|split]].
  - apply applyItems_upsertedInto. intros item Hin.
    apply (prepared_items messages existing).
    eapply elem_of_sublist; [exact Hin | exact Hsub].
  - rewrite Hproc. lia.
  - pose proof (applyItems_size written (employeesRef db orgId)) as Hsz.
    unfold employeesRef in *. lia.
Qed.

Lemma deduplicateEmails_accepted ms (emails : list string) e :
  (∀ m, m ∈ ms → ∃ e', msg_email m = Some e' ∧ e' ∈ emails
                       ∧ trim (toLowerCase e') = e') →
  e ∈ deduplicateEmails ms → e ∈ emails.
Proof.
  intros Hms He.
  destruct (prepare_invariant ∅ 0%Z 0%Z ms) as (_ & _ & _ & Hmem & _).
  unfold deduplicateEmails in He.
  change (map fst (fold_left dedupStep (rev ms) []))
    with ((fold_left dedupStep (rev ms) []).*1) in He.
  apply Hmem in He as (_ & m & Hm & Hnorm).
  destruct (Hms m Hm) as (e' & He' & Hin & Hfix).
  unfold normalizedEmail in Hnorm. rewrite He' in Hnorm.
  cbn [option_map] in Hnorm. congruence.
Qed.

(** An upserts request that does not ask to close the epoch. *)
Lemma handleIngestUpserts_run
  env sweepFails fuel org msgs o db :
  truthy org = true →
  (∀ r, r ∈ msgs → plainRow r) →
  (canProceed (now env) o).1 = true →
  (0 < currentBatchSize o)%Z →
  ∃ nProcessed nErrors o' db',
    handleIngestUpserts env sweepFails fuel
      {| orgId := Some org; messages := Some msgs; closeAfter := false |} o db
    = Answered
        (Json200 nProcessed (N.of_nat (rejectedCount msgs)) nErrors
           (Finalize.orZero (organizations db !! org ≫= currentEpoch) + 1)
           false) o' db'
    ∧ (nProcessed <= N.of_nat (length (acceptedEmails msgs)))%N
    ∧ organizations db' !! org ≫= currentEpoch
      = Some (Finalize.orZero (organizations db !! org ≫= currentEpoch) + 1)%Z
    ∧ organizations db' !! org ≫= lastFinalizedEpoch
      = organizations db !! org ≫= lastFinalizedEpoch
    ∧ upsertedInto
        (Finalize.orZero (organizations db !! org ≫= currentEpoch) + 1)
        (now env) (acceptedEmails msgs)
        (employees db org) (employees db' org)
    ∧ ∀ other, other ≠ org → employees db' other = employees db other.
Proof.
  intros Horg Hplain Hcan Hsize. unfold handleIngestUpserts.
  cbn [orgId messages closeAfter]. rewrite Horg. cbn [negb].
  destruct (Finalize.beginRun (now env) org None db) as [E db1] eqn:Hbegin.
  assert (E = (Finalize.orZero (organizations db !! org ≫= currentEpoch) + 1)%Z
          ∧ employees db1 = employees db
          ∧ organizations db1 !! org ≫= currentEpoch = Some E
          ∧ organizations db1 !! org ≫= lastFinalizedEpoch
            = organizations db !! org ≫= lastFinalizedEpoch)
    as (HE & Hemp & Hcur & Hfin).
  { unfold Finalize.beginRun in Hbegin. injection Hbegin as <- <-.
    cbn [organizations employees withOrganization].
    rewrite lookup_insert_eq. cbn [mbind option_bind currentEpoch lastFinalizedEpoch].
    repeat split. destruct (organizations db !! org); reflexivity. }
  destruct (normalizeMessages_plain msgs [] 0%N Hplain)
    as (ms & -> & Hlen & Hms). cbn [app].
  destruct (processUpserts_resolved env org ms E o db1 Hcan Hsize)
    as (r & o' & c' & -> & Hupd & Hskip & Hproc & _).
  rewrite Hskip, N.add_0_l, N.add_0_r, <- HE.
  eexists _, _, _, _. split; [reflexivity|].
  split.
  { pose proof (deduplicateEmails_length ms). lia. }
  cbn [organizations employees withEmployees].
  split; [exact Hcur|]. split; [exact Hfin|]. split.
  - rewrite decide_True by reflexivity. rewrite <- Hemp.
    eapply upsertedInto_mono; [|exact Hupd].
    intros e He. eapply deduplicateEmails_accepted; eassumption.
  - intros other Hne. rewrite decide_False by exact Hne.
    rewrite Hemp. reflexivity.
Qed.


Lemma normalizeStatus_string_plain s :
  existsb (String.eqb (trim (toLowerCase s))) Status.objectPrototypeKeys = false →
  ∃ st, Status.normalizeStatus (Status.VString s) = Status.Returns (Status.VString st).
Proof.
  intros Hord. unfold Status.normalizeStatus.
  destruct (negb (Status.isTruthy (Status.VString s))); [eauto|].
  unfold Status.getProperty. rewrite Hord.
  destruct (Status.ownProperty Status.statusMap (trim (toLowerCase s))) as [v|].
  - destruct (Status.isTruthy (Status.VString v)); [eauto|].
    destruct (Status.partialMatch _ _); eauto.
  - cbn [Status.isTruthy]. destruct (Status.partialMatch _ _); eauto.
Qed.

Lemma requestRows_plain p r :
  ordinaryStatuses p → r ∈ requestRows p → plainRow r.
Proof.
  intros Hord Hr. unfold requestRows, asRequestBody in Hr. cbn [messages] in Hr.
  apply list_elem_of_In, in_map_iff in Hr as (row & <- & Hrow).
  apply list_elem_of_In in Hrow.
  unfold plainRow, Status.normalizeRow.
  cbn [Status.raw_email Status.raw_statusInOrg option_map].
  destruct (_ || _); [exact I|].
  destruct (normalizeStatus_string_plain _ (Hord row Hrow)) as [st ->].
  exists st. reflexivity.
Qed.

(** X24: an upserts request that does not ask to close the epoch, from any
client and from the bridge. (1) For a request with an [orgId] and messages
whose rows are plain, handled while the circuit breaker lets work through:
the response is 200 and carries the epoch [beginRun] started (the current
one plus one), [finalized = false], [skipped] equal to the number of rows
[normalizeRow] rejected, and [processed] at most the number it accepted.
The store then has that epoch as [currentEpoch] and its
[lastFinalizedEpoch] unchanged; no employee is deleted or marked absent:
every new or changed document was written by this request with
[presentInLatest = true], that epoch, source [kafka:upsert] and the email
of an accepted row; other organizations are untouched. (2) The body the
upserts consumer posts is such a request whenever its [orgId] is not empty
and no status is the name of an inherited property: each batch the bridge
posts opens a new epoch and closes none. *)
Theorem handleIngestUpserts_opens_an_epoch env sweepFails fuel o db :
  (canProceed (now env) o).1 = true →
  (0 < currentBatchSize o)%Z →
  (∀ org msgs,
     truthy org = true →
     (∀ r, r ∈ msgs → plainRow r) →
     ∃ nProcessed nErrors o' db',
       handleIngestUpserts env sweepFails fuel
         {| orgId := Some org; messages := Some msgs; closeAfter := false |}
         o db
       = Answered
           (Json200 nProcessed (N.of_nat (rejectedCount msgs)) nErrors
              (Finalize.orZero (organizations db !! org ≫= currentEpoch) + 1)
              false) o' db'
       ∧ (nProcessed <= N.of_nat (length (acceptedEmails msgs)))%N
       ∧ organizations db' !! org ≫= currentEpoch
         = Some (Finalize.orZero (organizations db !! org ≫= currentEpoch) + 1)%Z
       ∧ organizations db' !! org ≫= lastFinalizedEpoch
         = organizations db !! org ≫= lastFinalizedEpoch
       ∧ upsertedInto
           (Finalize.orZero (organizations db !! org ≫= currentEpoch) + 1)
           (now env) (acceptedEmails msgs)
           (employees db org) (employees db' org)
       ∧ ∀ other, other ≠ org → employees db' other = employees db other)
  ∧ (∀ p,
       truthy (Batching.payload_orgId p) = true →
       ordinaryStatuses p →
       ∃ nProcessed nErrors o' db',
         handleIngestUpserts env sweepFails fuel (asRequestBody p) o db
         = Answered
             (Json200 nProcessed (N.of_nat (rejectedCount (requestRows p)))
                nErrors
                (Finalize.orZero
                   (organizations db !! Batching.payload_orgId p
                    ≫= currentEpoch) + 1)
                false) o' db'
         ∧ organizations db' !! Batching.payload_orgId p ≫= lastFinalizedEpoch
           = organizations db !! Batching.payload_orgId p ≫= lastFinalizedEpoch
         ∧ upsertedInto
             (Finalize.orZero
                (organizations db !! Batching.payload_orgId p
                 ≫= currentEpoch) + 1)
             (now env) (acceptedEmails (requestRows p))
             (employees db (Batching.payload_orgId p))
             (employees db' (Batching.payload_orgId p))).
Proof.
  intros Hcan Hsize. split.
  - intros org msgs Horg Hplain.
    apply handleIngestUpserts_run; assumption.
  - intros p Horg Hord.
    destruct (handleIngestUpserts_run env sweepFails fuel
                (Batching.payload_orgId p) (requestRows p) o db Horg)
      as (nP & nE & o' & db' & Hrun & _ & _ & Hfin & Hupd & _);
      [intros r Hr; eapply requestRows_plain; eassumption | assumption..|].
    exists nP, nE, o', db'. split; [exact Hrun|]. split; assumption.
Qed.

Lemma handleIngestUpserts_opens_an_epoch_witness :
  ∃ nProcessed nErrors o' db',
    handleIngestUpserts (Notions.healthyEnv 100) (fun _ => false) 0
      (asRequestBody
         {| Batching.payload_orgId := "acme";
            Batching.messages :=
              [ {| Batching.email := "a@x.com"; Batching.statusInOrg := "" |};
                {| Batching.email := "b@x.com"; Batching.statusInOrg := "left" |};
                {| Batching.email := ""; Batching.statusInOrg := "" |} ] |})
      constructor (Notions.acmeStore 2)
    = Answered
        (Json200 nProcessed
           (N.of_nat
              (rejectedCount
                 (requestRows
                    {| Batching.payload_orgId := "acme";
                       Batching.messages :=
                         [ {| Batching.email := "a@x.com";
                              Batching.statusInOrg := "" |};
                           {| Batching.email := "b@x.com";
                              Batching.statusInOrg := "left" |};
                           {| Batching.email := "";
                              Batching.statusInOrg := "" |} ] |})))
           nErrors
           (Finalize.orZero
              (organizations (Notions.acmeStore 2) !! "acme" ≫= currentEpoch)
            + 1)
           false) o' db'
    ∧ organizations db' !! "acme" ≫= lastFinalizedEpoch
      = organizations (Notions.acmeStore 2) !! "acme" ≫= lastFinalizedEpoch
    ∧ upsertedInto
        (Finalize.orZero
           (organizations (Notions.acmeStore 2) !! "acme" ≫= currentEpoch) + 1)
        (now (Notions.healthyEnv 100))
        (acceptedEmails
           (requestRows
              {| Batching.payload_orgId := "acme";
                 Batching.messages :=
                   [ {| Batching.email := "a@x.com";
                        Batching.statusInOrg := "" |};
                     {| Batching.email := "b@x.com";
                        Batching.statusInOrg := "left" |};
                     {| Batching.email := ""; Batching.statusInOrg := "" |} ] |}))
        (employees (Notions.acmeStore 2) "acme") (employees db' "acme").
Proof.
  destruct (handleIngestUpserts_opens_an_epoch (Notions.healthyEnv 100)
              (fun _ => false) 0 constructor (Notions.acmeStore 2))
    as [_ H].
  - reflexivity.
  - reflexivity.
  - apply (H {| Batching.payload_orgId := "acme";
                Batching.messages :=
                  [ {| Batching.email := "a@x.com"; Batching.statusInOrg := "" |};
                    {| Batching.email := "b@x.com"; Batching.statusInOrg := "left" |};
                    {| Batching.email := ""; Batching.statusInOrg := "" |} ] |}).
    + reflexivity.
    + intros row Hrow.
      repeat (apply elem_of_cons in Hrow as [->|Hrow]); try reflexivity.
      inversion Hrow.
Defined.

(** The request above, on two employees last seen in epoch 1: epoch 3 is
opened, two employees are added, one row is skipped, and the two former
employees stay present. *)
Example handleIngestUpserts_bridge_batch :
  match
    handleIngestUpserts (Notions.healthyEnv 100) (fun _ => false) 0
      (asRequestBody
         {| Batching.payload_orgId := "acme";
            Batching.messages :=
              [ {| Batching.email := "a@x.com"; Batching.statusInOrg := "" |};
                {| Batching.email := "b@x.com"; Batching.statusInOrg := "left" |};
                {| Batching.email := ""; Batching.statusInOrg := "" |} ] |})
      constructor (Notions.acmeStore 2)
  with
  | Answered resp _ db' =>
      resp = Json200 2 1 0 3 false
      ∧ (λ d, (email d.2, statusInOrg d.2, presentInLatest d.2, lastSeenEpoch d.2))
          <$> docs (employees db' "acme")
        = [ ("e@x.com", "active", true, 1%Z); ("e@x.com", "active", true, 1%Z);
            ("b@x.com", "left", true, 3%Z); ("a@x.com", "active", true, 3%Z) ]
  | _ => False
  end.
Proof. vm_compute. split; reflexivity. Qed.


(** X25: an upserts request that asks to close the epoch ([closeAfter]).
Let [E] be the epoch the request starts, and let no employee of the
organization have been seen in epoch [E] or later. For plain rows, with
the circuit breaker letting work through, the store accepting the page
commits of the sweep and fuel above the number of employees plus the number
of messages: the response is 200 with [finalized = true]; the
organization's [currentEpoch] and [lastFinalizedEpoch] are [E]; and an
employee document has [presentInLatest = true] exactly when its
[lastSeenEpoch] is [E], in which case it was written by this request for
the email of an accepted row. Every employee the request did not write is
marked absent. *)
Theorem handleIngestUpserts_closes_the_epoch
  env sweepFails fuel org msgs o db :
  truthy org = true →
  (∀ r, r ∈ msgs → plainRow r) →
  (canProceed (now env) o).1 = true →
  (0 < currentBatchSize o)%Z →
  (∀ id d, employees db org !! id = Some d →
     (lastSeenEpoch d
      < Finalize.orZero (organizations db !! org ≫= currentEpoch) + 1)%Z) →
  (∀ k, sweepFails k = false) →
  (size (employees db org) + length msgs < fuel)%nat →
  ∃ nProcessed nErrors o' db',
    handleIngestUpserts env sweepFails fuel
      {| orgId := Some org; messages := Some msgs; closeAfter := true |} o db
    = Answered
        (Json200 nProcessed (N.of_nat (rejectedCount msgs)) nErrors
           (Finalize.orZero (organizations db !! org ≫= currentEpoch) + 1)
           true) o' db'
    ∧ organizations db' !! org ≫= currentEpoch
      = Some (Finalize.orZero (organizations db !! org ≫= currentEpoch) + 1)%Z
    ∧ organizations db' !! org ≫= lastFinalizedEpoch
      = Some (Finalize.orZero (organizations db !! org ≫= currentEpoch) + 1)%Z
    ∧ ∀ id d, employees db' org !! id = Some d →
        (presentInLatest d = true
         ↔ lastSeenEpoch d
           = (Finalize.orZero (organizations db !! org ≫= currentEpoch) + 1)%Z)
        ∧ (presentInLatest d = true →
           email d ∈ acceptedEmails msgs ∧ source d = "kafka:upsert").
Proof.
  intros Horg Hplain Hcan Hsize Hold Hsweep Hfuel. unfold handleIngestUpserts.
  cbn [orgId messages closeAfter]. rewrite Horg. cbn [negb].
  destruct (Finalize.beginRun (now env) org None db) as [E db1] eqn:Hbegin.
  assert (E = (Finalize.orZero (organizations db !! org ≫= currentEpoch) + 1)%Z
          ∧ employees db1 = employees db
          ∧ is_Some (organizations db1 !! org)) as (HE & Hemp & Hdoc).
  { unfold Finalize.beginRun in Hbegin. injection Hbegin as <- <-.
    cbn [organizations employees withOrganization].
    rewrite lookup_insert_eq. split; [|split; [reflexivity | eauto]].
    destruct (organizations db !! org); reflexivity. }
  rewrite <- HE in *.
  destruct (normalizeMessages_plain msgs [] 0%N Hplain)
    as (ms & -> & Hlen & Hms). cbn [app].
  destruct (processUpserts_resolved env org ms E o db1 Hcan Hsize)
    as (r & o' & c' & -> & [Hdom Hupd] & Hskip & _ & Hsz).
  rewrite Hskip, N.add_0_l, N.add_0_r.
  destruct (finalizeRun_returns sweepFails fuel (now env) org E
              (withEmployees db1 org c')) as [db3 Hfin].
  { exact Hdoc. }
  { exact Hsweep. }
  { cbn [employees withEmployees]. rewrite decide_True by reflexivity.
    pose proof (deduplicateEmails_length ms).
    pose proof (acceptedEmails_length msgs).
    rewrite Hemp in Hsz. lia. }
  rewrite Hfin.
  apply finalizeRun_returned in Hfin as (Hemp3 & _ & d0 & _ & Horg3).
  cbn [employees withEmployees] in Hemp3.
  rewrite decide_True in Hemp3 by reflexivity.
  eexists _, _, _, _. split; [reflexivity|].
  rewrite Horg3, lookup_insert_eq.
  split; [reflexivity|]. split; [reflexivity|].
  intros id d. rewrite Hemp3, lookup_fmap.
  destruct (c' !! id) as [d1|] eqn:Hd1; [|discriminate].
  cbn [fmap option_fmap option_map]. intros [= <-].
  unfold Notions.swept, Finalize.stale.
  destruct (Hupd id d1 Hd1) as [Hwas|(Hl & Hp & Hs & _ & Hin)].
  - rewrite Hemp in Hwas. pose proof (Hold id d1 Hwas) as Hlt.
    assert ((lastSeenEpoch d1 <? E)%Z = true) as ->
        by (apply Z.ltb_lt; exact Hlt).
    destruct (presentInLatest d1) eqn:Hp1; cbn [andb].
    + cbn [Finalize.markAbsent presentInLatest lastSeenEpoch].
      split; [split; [discriminate | lia] | discriminate].
    + rewrite Hp1. split; [split; [discriminate | lia] | discriminate].
  - rewrite Hp. cbn [andb].
    assert ((lastSeenEpoch d1 <? E)%Z = false) as ->
        by (apply Z.ltb_ge; lia).
    rewrite Hp. split; [split; auto|]. intros _. split; [|exact Hs].
    eapply deduplicateEmails_accepted; eassumption.
Qed.

Lemma handleIngestUpserts_closes_the_epoch_witness :
  ∃ nProcessed nErrors o' db',
    handleIngestUpserts (Notions.healthyEnv 100) (fun _ => false) 6
      {| orgId := Some "acme";
         messages := Some [ Notions.rawRow " Bob@X.com" "Retired";
                            Notions.rawRow "nobody" "" ];
         closeAfter := true |} constructor (Notions.acmeStore 2)
    = Answered
        (Json200 nProcessed
           (N.of_nat (rejectedCount [ Notions.rawRow " Bob@X.com" "Retired";
                                      Notions.rawRow "nobody" "" ]))
           nErrors
           (Finalize.orZero
              (organizations (Notions.acmeStore 2) !! "acme" ≫= currentEpoch)
            + 1)
           true) o' db'
    ∧ organizations db' !! "acme" ≫= currentEpoch
      = Some (Finalize.orZero
                (organizations (Notions.acmeStore 2) !! "acme" ≫= currentEpoch)
              + 1)%Z
    ∧ organizations db' !! "acme" ≫= lastFinalizedEpoch
      = Some (Finalize.orZero
                (organizations (Notions.acmeStore 2) !! "acme" ≫= currentEpoch)
              + 1)%Z
    ∧ ∀ id d, employees db' "acme" !! id = Some d →
        (presentInLatest d = true
         ↔ lastSeenEpoch d
           = (Finalize.orZero
                (organizations (Notions.acmeStore 2) !! "acme" ≫= currentEpoch)
              + 1)%Z)
        ∧ (presentInLatest d = true →
           email d ∈ acceptedEmails [ Notions.rawRow " Bob@X.com" "Retired";
                                      Notions.rawRow "nobody" "" ]
           ∧ source d = "kafka:upsert").
Proof.
  apply (handleIngestUpserts_closes_the_epoch (Notions.healthyEnv 100)
           (fun _ => false) 6 "acme"
           [ Notions.rawRow " Bob@X.com" "Retired"; Notions.rawRow "nobody" "" ]
           constructor (Notions.acmeStore 2)).
  - reflexivity.
  - intros r Hr.
    repeat (apply elem_of_cons in Hr as [->|Hr]); [| |inversion Hr].
    + exists "left". reflexivity.
    + exact I.
  - reflexivity.
  - reflexivity.
  - intros id d Hd.
    assert (map_Forall (fun _ d => (lastSeenEpoch d < 3)%Z)
              (employees (Notions.acmeStore 2) "acme")) as Hall
        by (apply (bool_decide_unpack _); vm_compute; reflexivity).
    exact (Hall id d Hd).
  - reflexivity.
  - vm_compute. lia.
Defined.


(** X26: a request refused by the circuit breaker still starts an epoch.
[handleIngestUpserts] calls [beginRun] before it reaches the optimizer, so
when the circuit is open (and no row makes the normalization throw or
leave the model) the request is answered 500 with no employee document
written, yet the organization's [currentEpoch] has moved to the next
epoch; [lastFinalizedEpoch] and the optimizer's circuit are as before. *)
Theorem handleIngestUpserts_refused_after_beginRun
  env sweepFails fuel org msgs close o db :
  truthy org = true →
  (∀ r, r ∈ msgs → plainRow r) →
  (canProceed (now env) o).1 = false →
  ∃ db',
    handleIngestUpserts env sweepFails fuel
      {| orgId := Some org; messages := Some msgs; closeAfter := close |} o db
    = Answered Json500 o db'
    ∧ employees db' = employees db
    ∧ organizations db' !! org ≫= currentEpoch
      = Some (Finalize.orZero (organizations db !! org ≫= currentEpoch) + 1)%Z
    ∧ organizations db' !! org ≫= lastFinalizedEpoch
      = organizations db !! org ≫= lastFinalizedEpoch.
Proof.
  intros Horg Hplain Hcan. unfold handleIngestUpserts.
  cbn [orgId messages closeAfter]. rewrite Horg. cbn [negb].
  unfold Finalize.beginRun.
  destruct (normalizeMessages_plain msgs [] 0%N Hplain) as (ms & -> & _).
  unfold processUpserts.
  assert ((canProceed (now env) o).2 = o) as Hsame.
  { revert Hcan. unfold canProceed. destruct (circuitState o); try discriminate.
    destruct (_ >? _)%Z; [discriminate | reflexivity]. }
  destruct (canProceed (now env) o) as [ok o0]. cbn [fst snd] in Hcan, Hsame.
  subst ok o0. cbn [negb].
  eexists. split; [reflexivity|].
  cbn [organizations employees withOrganization].
  rewrite lookup_insert_eq. cbn [mbind option_bind currentEpoch lastFinalizedEpoch].
  repeat split. destruct (organizations db !! org); reflexivity.
Qed.

Lemma handleIngestUpserts_refused_after_beginRun_witness :
  ∃ db',
    handleIngestUpserts (Notions.healthyEnv 100) (fun _ => false) 0
      {| orgId := Some "acme";
         messages := Some [Notions.rawRow "bob@x.com" "left"];
         closeAfter := false |}
      (withCircuit constructor OPEN 90) (Notions.acmeStore 2)
    = Answered Json500 (withCircuit constructor OPEN 90) db'
    ∧ employees db' = employees (Notions.acmeStore 2)
    ∧ organizations db' !! "acme" ≫= currentEpoch
      = Some (Finalize.orZero
                (organizations (Notions.acmeStore 2) !! "acme" ≫= currentEpoch)
              + 1)%Z
    ∧ organizations db' !! "acme" ≫= lastFinalizedEpoch
      = organizations (Notions.acmeStore 2) !! "acme" ≫= lastFinalizedEpoch.
Proof.
  apply (handleIngestUpserts_refused_after_beginRun (Notions.healthyEnv 100)
           (fun _ => false) 0 "acme" [Notions.rawRow "bob@x.com" "left"] false
           (withCircuit constructor OPEN 90) (Notions.acmeStore 2)).
  - reflexivity.
  - intros r Hr. apply list_elem_of_singleton in Hr as ->.
    exists "left". reflexivity.
  - reflexivity.
Defined.

End IngestUpsertsFacts.

(** ** Cache eviction *)

Section EvictionFacts.
Import JsString Firestore Optimizer.
Local Open Scope list_scope.

(** The scan with a candidate in hand returns the candidate, when no entry
is strictly older, or else an entry that is strictly older than the
candidate and no younger than any entry. *)
Lemma scanOldest_candidate (c : list (string * CacheEntry)) : ∀ k0 t0,
  ∃ k, scanOldest c (Some k0) (Some t0) = Some k
       ∧ ((k = k0 ∧ ∀ k' e', (k', e') ∈ c → (t0 <= timestamp e')%Z)
          ∨ (∃ e, (k, e) ∈ c ∧ (timestamp e < t0)%Z
                  ∧ ∀ k' e', (k', e') ∈ c → (timestamp e <= timestamp e')%Z)).
Proof.
  induction c as [|[k1 e1] c IH]; intros k0 t0; cbn [scanOldest olderThan].
  - exists k0. split; [reflexivity|]. left. split; [reflexivity|].
    intros k' e' H. inversion H.
  - destruct (timestamp e1 <? t0)%Z eqn:Hlt.
    + apply Z.ltb_lt in Hlt.
      destruct (IH k1 (timestamp e1)) as (k & -> & [[-> Hall]|(e & Hin & He & Hall)]).
      * exists k1. split; [reflexivity|]. right. exists e1.
        split; [left|]. split; [exact Hlt|].
        intros k' e' H. apply elem_of_cons in H as [[= -> ->]|H]; [lia|].
        apply (Hall k' e' H).
      * exists k. split; [reflexivity|]. right. exists e.
        split; [right; exact Hin|]. split; [lia|].
        intros k' e' H. apply elem_of_cons in H as [[= -> ->]|H]; [lia|].
        apply (Hall k' e' H).
    + apply Z.ltb_ge in Hlt.
      destruct (IH k0 t0) as (k & -> & [[-> Hall]|(e & Hin & He & Hall)]).
      * exists k0. split; [reflexivity|]. left. split; [reflexivity|].
        intros k' e' H. apply elem_of_cons in H as [[= -> ->]|H]; [lia|].
        apply (Hall k' e' H).
      * exists k. split; [reflexivity|]. right. exists e.
        split; [right; exact Hin|]. split; [exact He|].
        intros k' e' H. apply elem_of_cons in H as [[= -> ->]|H]; [lia|].
        apply (Hall k' e' H).
Qed.

(** X27: [evictOldestCache] on a cache that is not empty and whose keys are
non-empty strings (as the keys [org:...] are): it removes exactly one
entry, one whose timestamp no other entry undercuts, and keeps every other
entry, in order. *)
Theorem evictOldestCache_removes_the_oldest (c : list (string * CacheEntry)) :
  c ≠ [] → NoDup c.*1 → (∀ k, k ∈ c.*1 → truthy k = true) →
  ∃ k entry,
    (k, entry) ∈ c
    ∧ (∀ k' e', (k', e') ∈ c → (timestamp entry <= timestamp e')%Z)
    ∧ evictOldestCache c = filter (fun kv => kv.1 ≠ k) c
    ∧ length (evictOldestCache c) = (length c - 1)%nat.
Proof.
  intros Hne Hnd Hkeys. destruct c as [|[k1 e1] c]; [contradiction|].
  unfold evictOldestCache. cbn [scanOldest olderThan].
  destruct (scanOldest_candidate c k1 (timestamp e1))
    as (k & -> & Hk).
  assert (∃ entry, (k, entry) ∈ (k1, e1) :: c
                   ∧ ∀ k' e', (k', e') ∈ (k1, e1) :: c →
                              (timestamp entry <= timestamp e')%Z)
    as (entry & Hin & Hmin).
  { destruct Hk as [[-> Hall]|(e & Hin & He & Hall)].
    - exists e1. split; [left|].
      intros k' e' H. apply elem_of_cons in H as [[= -> ->]|H]; [lia|].
      apply (Hall k' e' H).
    - exists e. split; [right; exact Hin|].
      intros k' e' H. apply elem_of_cons in H as [[= -> ->]|H]; [lia|].
      apply (Hall k' e' H). }
  assert (truthy k = true) as ->.
  { apply Hkeys, list_elem_of_fmap. exists (k, entry). auto. }
  exists k, entry. split; [exact Hin|]. split; [exact Hmin|].
  rewrite mapDelete_filter by exact Hnd. split; [reflexivity|].
  rewrite <- mapDelete_filter by exact Hnd.
  pose proof (mapGet_mapDelete ((k1, e1) :: c) k Hnd) as Hgone.
  apply (elem_of_mapGet _ _ _ Hnd) in Hin.
  clear - Hin. revert Hin. generalize ((k1, e1) :: c). intros l.
  induction l as [|[k' e'] l IH]; cbn [mapGet mapDelete length]; [discriminate|].
  destruct (String.eqb k' k); [intros _; lia|].
  intros H. specialize (IH H). cbn [length].
  destruct l; [discriminate H | cbn [length] in *; lia].
Qed.

Lemma evictOldestCache_removes_the_oldest_witness :
  ∃ k entry,
    (k, entry) ∈ [ ("org:a", {| data := ∅; timestamp := 30; sizeBytes := 0 |});
                   ("org:b", {| data := ∅; timestamp := 10; sizeBytes := 0 |});
                   ("org:c", {| data := ∅; timestamp := 20; sizeBytes := 0 |}) ]
    ∧ (∀ k' e',
         (k', e') ∈ [ ("org:a", {| data := ∅; timestamp := 30; sizeBytes := 0 |});
                      ("org:b", {| data := ∅; timestamp := 10; sizeBytes := 0 |});
                      ("org:c", {| data := ∅; timestamp := 20; sizeBytes := 0 |}) ] →
         (timestamp entry <= timestamp e')%Z)
    ∧ evictOldestCache
        [ ("org:a", {| data := ∅; timestamp := 30; sizeBytes := 0 |});
          ("org:b", {| data := ∅; timestamp := 10; sizeBytes := 0 |});
          ("org:c", {| data := ∅; timestamp := 20; sizeBytes := 0 |}) ]
      = filter (fun kv => kv.1 ≠ k)
          [ ("org:a", {| data := ∅; timestamp := 30; sizeBytes := 0 |});
            ("org:b", {| data := ∅; timestamp := 10; sizeBytes := 0 |});
            ("org:c", {| data := ∅; timestamp := 20; sizeBytes := 0 |}) ]
    ∧ length
        (evictOldestCache
           [ ("org:a", {| data := ∅; timestamp := 30; sizeBytes := 0 |});
             ("org:b", {| data := ∅; timestamp := 10; sizeBytes := 0 |});
             ("org:c", {| data := ∅; timestamp := 20; sizeBytes := 0 |}) ])
      = (length
           [ ("org:a", {| data := ∅; timestamp := 30; sizeBytes := 0 |});
             ("org:b", {| data := (∅ : gmap string DocId); timestamp := 10;
                          sizeBytes := 0 |});
             ("org:c", {| data := ∅; timestamp := 20; sizeBytes := 0 |}) ]
         - 1)%nat.
Proof.
  apply (evictOldestCache_removes_the_oldest
           [ ("org:a", {| data := ∅; timestamp := 30; sizeBytes := 0 |});
             ("org:b", {| data := ∅; timestamp := 10; sizeBytes := 0 |});
             ("org:c", {| data := ∅; timestamp := 20; sizeBytes := 0 |}) ]).
  - discriminate.
  - apply (bool_decide_unpack _). vm_compute. reflexivity.
  - intros k Hk. cbn [fmap list_fmap fst] in Hk.
    repeat (apply elem_of_cons in Hk as [->|Hk]); try reflexivity.
    inversion Hk.
Defined.

End EvictionFacts.

(** ** An upload that fails *)

Section FailedUploadFacts.
Import JsString Firestore Finalize Email Invariants.
Local Open Scope list_scope.

Lemma upsertRow_dom now E st r :
  dom (coll st) ⊆ dom (coll (upsertRow now E st r)).
Proof.
  unfold upsertRow. destruct (threw st); [reflexivity|].
  destruct (Status.normalizeRow r) as [[n|]|]; cbn [raise skip coll];
    try reflexivity.
  destruct (Status.statusInOrg n); cbn [raise coll]; try reflexivity.
  destruct (whereEmailEq _ _) as [[ref old]|]; cbn [wrote coll];
    unfold setMerge, addDoc; rewrite dom_insert_L; set_solver.
Qed.

Lemma upsertRows_dom now E rs : ∀ st,
  dom (coll st) ⊆ dom (coll (fold_left (upsertRow now E) rs st)).
Proof.
  induction rs as [|r rs IH]; intros st; cbn [fold_left]; [reflexivity|].
  etransitivity; [apply (upsertRow_dom now E st r) | apply IH].
Qed.

Lemma partiallySwept_dom now E (c c' : gmap DocId Employee) :
  partiallySwept now E c c' → dom c ⊆ dom c'.
Proof.
  intros H id Hin. apply elem_of_dom in Hin as [d Hd]. apply elem_of_dom.
  destruct (H id) as [->|(d0 & _ & _ & ->)]; eauto.
Qed.

(** X28: an [upserts] upload that is answered 500 (a row made the handler
throw, or a page commit of the sweep was rejected). The epoch it began
stays begun: the
organization's [currentEpoch] is the new epoch while its
[lastFinalizedEpoch] is what it was; no employee document has been
deleted, so the rows written before the failure stay written; other
organizations are untouched. *)
Theorem handleEmail_failed_upload commitFails fuel now payload db org db' :
  orElse (orgId payload) None = Some org →
  requestedKind payload = "upserts" →
  handleEmail commitFails fuel now payload db = Some (Json500, db') →
  organizations db' !! org ≫= currentEpoch
  = Some (orZero (organizations db !! org ≫= currentEpoch) + 1)%Z
  ∧ organizations db' !! org ≫= lastFinalizedEpoch
    = organizations db !! org ≫= lastFinalizedEpoch
  ∧ dom (employees db org) ⊆ dom (employees db' org)
  ∧ ∀ other, other ≠ org → employees db' other = employees db other.
Proof.
  intros Horg Hkind. unfold handleEmail. rewrite Horg, Hkind.
  destruct (rows payload) as [|r rs] eqn:Hrows; [discriminate|].
  change ("upserts" =? "upserts")%string with true. cbn iota.
  unfold handleUpserts.
  set (oName := orElse (orgName payload) (Status.raw_orgName r)).
  destruct (beginRun now org oName db) as [E db1] eqn:Hbegin.
  assert (E = (orZero (organizations db !! org ≫= currentEpoch) + 1)%Z
          ∧ employees db1 = employees db
          ∧ organizations db1 !! org ≫= currentEpoch = Some E
          ∧ organizations db1 !! org ≫= lastFinalizedEpoch
            = organizations db !! org ≫= lastFinalizedEpoch)
    as (HE & Hemp & Hcur & Hfin).
  { unfold beginRun in Hbegin. injection Hbegin as <- <-.
    cbn [organizations employees withOrganization].
    rewrite lookup_insert_eq.
    cbn [mbind option_bind currentEpoch lastFinalizedEpoch].
    repeat split. destruct (organizations db !! org); reflexivity. }
  rewrite <- HE.
  pose proof (upsertRows_dom now E (r :: rs)
                {| coll := employeesRef db1 org; processed := 0;
                   skipped := 0; threw := false |}) as Hdom.
  cbn [coll] in Hdom. unfold employeesRef in *. rewrite Hemp in *.
  set (st := fold_left (upsertRow now E) (r :: rs) _) in *.
  destruct (threw st).
  { cbn [rejected db_after]. intros [= <-].
    cbn [organizations employees withEmployees].
    split; [exact Hcur|]. split; [exact Hfin|].
    split; [rewrite decide_True by reflexivity; exact Hdom|].
    intros other Hne. rewrite decide_False by exact Hne.
    rewrite Hemp. reflexivity. }
  unfold finalizeRun, finalizeRunWith.
  pose proof (sweep_partial commitFails pageSize now E fuel None
                (employeesRef (withEmployees db1 org (coll st)) org)
                0%nat 0%nat) as Hpartial.
  unfold employeesRef in *. cbn [employees withEmployees] in *.
  rewrite decide_True in * by reflexivity.
  destruct (sweep commitFails fuel pageSize now E None (coll st) 0 0)
    as [[c' total'|c']|]; [| |discriminate].
  - specialize (Hpartial _ eq_refl). cbn [organizations withEmployees].
    destruct (organizations db1 !! org) eqn:Hdoc.
    { cbn [rejected]. discriminate. }
    cbn [rejected db_after]. intros [= <-].
    cbn [organizations employees withEmployees]. rewrite Hdoc in *.
    discriminate Hcur.
  - destruct (Hpartial _ eq_refl) as [Hp _].
    cbn [rejected db_after]. intros [= <-].
    cbn [organizations employees withEmployees].
    split; [exact Hcur|]. split; [exact Hfin|]. split.
    + rewrite decide_True by reflexivity.
      etransitivity; [exact Hdom | eapply partiallySwept_dom, Hp].
    + intros other Hne. rewrite !decide_False by exact Hne.
      rewrite Hemp. reflexivity.
Qed.

Lemma handleEmail_failed_upload_witness :
  organizations
    (match handleEmail (fun _ => true) 5 50
             {| orgId := Some "acme"; orgName := None; kind := None;
                rows := [Notions.rawRow "bob@x.com" "left"] |}
             (Notions.acmeStore 2) with
     | Some (_, db') => db'
     | None => Notions.acmeStore 2
     end) !! "acme" ≫= currentEpoch
  = Some (orZero (organizations (Notions.acmeStore 2) !! "acme"
                  ≫= currentEpoch) + 1)%Z.
Proof.
  apply (handleEmail_failed_upload (fun _ => true) 5 50
           {| orgId := Some "acme"; orgName := None; kind := None;
              rows := [Notions.rawRow "bob@x.com" "left"] |}
           (Notions.acmeStore 2) "acme").
  - reflexivity.
  - reflexivity.
  - vm_compute. reflexivity.
Defined.

End FailedUploadFacts.


(** * The handlers, request by request *)

(** ** /ingest/kafka/deltas *)

Section DeltaRequestFacts.
Import JsString Firestore IngestDeltas Notions Invariants.
Local Open Scope list_scope.

(** Documents that are only updated in place keep their emails: an email
has a document after the updates exactly when it had one before. *)
Lemma updatedInPlace_emails src now (c c' : gmap DocId Employee) e :
  updatedInPlace src now c c' →
  (∃ id d, c' !! id = Some d ∧ email d = e)
  ↔ (∃ id d, c !! id = Some d ∧ email d = e).
Proof.
  intros [Hdom Hdocs]. split.
  - intros (id & d' & Hd' & He).
    assert (is_Some (c !! id)) as [d Hd].
    { apply elem_of_dom. rewrite <- Hdom. apply elem_of_dom. eauto. }
    destruct (Hdocs id d Hd) as (d'' & Hd'' & Hmail & _).
    exists id, d. split; [exact Hd|]. congruence.
  - intros (id & d & Hd & He).
    destruct (Hdocs id d Hd) as (d' & Hd' & Hmail & _).
    exists id, d'. split; [exact Hd'|]. congruence.
Qed.

(** C3: a request to the delta handler for the organization [org] whose
last message has a valid email and a delta type of the table, after any
[earlier] messages. The handler answers 200 with the counts of the
messages processed and skipped, and changes the employees of [org] only.
The earlier messages have created and deleted no document and left every
[email] and [lastSeenEpoch] as it was. For the last message:
(1) if [org] had no employee with that (lowercased, trimmed) email before
the request, the message changes nothing, no document is created, and it
is counted in [skipped];
(2) if [org] had one, the message is counted in [processed] and exactly one
existing document [ref], one with that email, is updated: [statusInOrg] and
[presentInLatest] are set from the transition table, [updatedAt] to the time
of the call, [source] to ["kafka:delta"], [lastEventId] only when the
message carries a truthy [eventId]; [email] and [lastSeenEpoch] keep their
values, every other document is untouched and no document is added. *)
Theorem handleIngestDeltas_updates_existing_only
  now org earlier message rawEmail db :
  truthy org = true →
  msg_email message = Some rawEmail →
  Status.isValidEmail (Some rawEmail) = true →
  msg_deltaType message ∈ ["left"; "inactive"; "reactivated"] →
  ∃ nProcessed nSkipped c,
    handleIngestDeltas now
      {| orgId := Some org; messages := Some earlier |} db
    = (Json200 nProcessed nSkipped, withEmployees db org c)
    ∧ (nProcessed + nSkipped = N.of_nat (length earlier))%N
    ∧ updatedInPlace "kafka:delta" now (employees db org) c
    ∧ ((∀ id d, employees db org !! id = Some d →
                email d ≠ trim (toLowerCase rawEmail)) →
       handleIngestDeltas now
         {| orgId := Some org; messages := Some (earlier ++ [message]) |} db
       = (Json200 nProcessed (nSkipped + 1)%N, withEmployees db org c))
    ∧ ((∃ id d, employees db org !! id = Some d
                ∧ email d = trim (toLowerCase rawEmail)) →
       ∃ ref old st present c',
         handleIngestDeltas now
           {| orgId := Some org; messages := Some (earlier ++ [message]) |} db
         = (Json200 (nProcessed + 1)%N nSkipped, withEmployees db org c')
         ∧ c !! ref = Some old
         ∧ email old = trim (toLowerCase rawEmail)
         ∧ (msg_deltaType message, st, present) ∈ transitionTable
         ∧ c' !! ref
           = Some {| email := email old;
                     statusInOrg := st;
                     presentInLatest := present;
                     lastSeenEpoch := lastSeenEpoch old;
                     updatedAt := now;
                     source := "kafka:delta";
                     lastEventId :=
                       match lastEventIdOf (msg_eventId message) with
                       | Some ev => Some ev
                       | None => lastEventId old
                       end |}
         ∧ (∀ id, id ≠ ref → c' !! id = c !! id)
         ∧ dom c' = dom (employees db org)).
Proof.
  intros Horg Hemail Hvalid Htype.
  unfold handleIngestDeltas. cbn [orgId messages]. rewrite Horg. cbn [negb].
  unfold employeesRef.
  destruct (applyDelta_fold now earlier (employees db org) 0%N 0%N)
    as (c & p & s & Hfold & Hcount & Hupd).
  exists p, s, c. rewrite fold_left_app, Hfold. cbn [fold_left].
  split; [reflexivity|]. split; [lia|]. split; [exact Hupd|].
  pose proof (updatedInPlace_emails _ _ _ _ (trim (toLowerCase rawEmail)) Hupd)
    as Hsame.
  destruct (applyDelta_updates_existing_only now c p s message rawEmail
              Hemail Hvalid Htype) as [Habsent Hpresent].
  split.
  - intros Hnone. rewrite Habsent; [reflexivity|].
    intros id d Hd He.
    destruct (proj1 Hsame (ex_intro _ id (ex_intro _ d (conj Hd He))))
      as (id0 & d0 & Hd0 & He0).
    exact (Hnone id0 d0 Hd0 He0).
  - intros Hsome. apply Hsame in Hsome.
    destruct (Hpresent Hsome)
      as (ref & old & st & present & c' & Happly & Hold & Hmail & Htab
          & Hnew & Hothers & Hdom).
    rewrite Happly. exists ref, old, st, present, c'.
    split; [reflexivity|]. split; [exact Hold|]. split; [exact Hmail|].
    split; [exact Htab|]. split; [exact Hnew|]. split; [exact Hothers|].
    rewrite Hdom. apply Hupd.
Qed.

Lemma handleIngestDeltas_updates_existing_only_witness :
  (∃ nProcessed nSkipped c,
     handleIngestDeltas 99
       {| orgId := Some "acme"; messages := Some [reactivateCharlie] |}
       (withEmployees emptyStore "acme" roster)
     = (Json200 nProcessed nSkipped,
        withEmployees (withEmployees emptyStore "acme" roster) "acme" c)
     ∧ handleIngestDeltas 99
         {| orgId := Some "acme";
            messages := Some ([reactivateCharlie] ++ [leftDave]) |}
         (withEmployees emptyStore "acme" roster)
       = (Json200 nProcessed (nSkipped + 1)%N,
          withEmployees (withEmployees emptyStore "acme" roster) "acme" c))
  ∧ (∃ nProcessed nSkipped c ref old st present c',
       handleIngestDeltas 99
         {| orgId := Some "acme"; messages := Some [leftDave] |}
         (withEmployees emptyStore "acme" roster)
       = (Json200 nProcessed nSkipped,
          withEmployees (withEmployees emptyStore "acme" roster) "acme" c)
       ∧ handleIngestDeltas 99
           {| orgId := Some "acme";
              messages := Some ([leftDave] ++ [reactivateCharlie]) |}
           (withEmployees emptyStore "acme" roster)
         = (Json200 (nProcessed + 1)%N nSkipped,
            withEmployees (withEmployees emptyStore "acme" roster) "acme" c')
       ∧ c !! ref = Some old
       ∧ email old = trim (toLowerCase " Charlie@X.com ")
       ∧ (msg_deltaType reactivateCharlie, st, present) ∈ transitionTable
       ∧ c' !! ref
         = Some {| email := email old;
                   statusInOrg := st;
                   presentInLatest := present;
                   lastSeenEpoch := lastSeenEpoch old;
                   updatedAt := 99;
                   source := "kafka:delta";
                   lastEventId :=
                     match lastEventIdOf (msg_eventId reactivateCharlie) with
                     | Some ev => Some ev
                     | None => lastEventId old
                     end |}
       ∧ dom c' = dom roster).
Proof.
  split.
  - destruct (handleIngestDeltas_updates_existing_only 99 "acme"
                [reactivateCharlie] leftDave "dave@x.com"
                (withEmployees emptyStore "acme" roster))
      as (p & s & c & Hrun & _ & _ & Habsent & _).
    + reflexivity.
    + reflexivity.
    + reflexivity.
    + cbn. left.
    + exists p, s, c. split; [exact Hrun|]. apply Habsent.
      intros id d Hlook. cbn in Hlook. unfold roster in Hlook.
      apply lookup_insert_Some in Hlook as [[_ <-]|[_ Hlook]];
        [vm_compute; discriminate|].
      apply lookup_singleton_Some in Hlook as [_ <-].
      vm_compute; discriminate.
  - destruct (handleIngestDeltas_updates_existing_only 99 "acme"
                [leftDave] reactivateCharlie " Charlie@X.com "
                (withEmployees emptyStore "acme" roster))
      as (p & s & c & Hrun & _ & _ & _ & Hpresent).
    + reflexivity.
    + reflexivity.
    + reflexivity.
    + cbn. right. right. left.
    + destruct Hpresent
        as (ref & old & st & present & c' & Hrun' & Hold & Hmail & Htab
            & Hnew & _ & Hdom).
      { exists 5%positive, charlie. split; vm_compute; reflexivity. }
      exists p, s, c, ref, old, st, present, c'.
      split; [exact Hrun|]. split; [exact Hrun'|]. split; [exact Hold|].
      split; [exact Hmail|]. split; [exact Htab|]. split; [exact Hnew|].
      exact Hdom.
Defined.

End DeltaRequestFacts.


(** ** One reconciler invocation, seen in the store *)

Section ReconciledStoreFacts.
Import JsString Firestore Optimizer Notions Invariants.
Local Open Scope list_scope.










(** The invocation above, run: charlie's document, under the id it had,
carries the status of the last of his two rows; dave is new; alice, not in
the input, is as she was. *)
Example processUpserts_charlieTwice_store :
  docs
    (employees
       (processUpserts (healthyEnv 77) "acme" charlieTwice 2 constructor
          (withEmployees emptyStore "acme" roster)).2 "acme")
  = [ (3%positive, alice);
      (5%positive,
       {| email := "charlie@x.com"; statusInOrg := "left";
          presentInLatest := true; lastSeenEpoch := 2; updatedAt := 77;
          source := "kafka:upsert"; lastEventId := None |});
      (6%positive,
       {| email := "dave@x.com"; statusInOrg := "active";
          presentInLatest := true; lastSeenEpoch := 2; updatedAt := 77;
          source := "kafka:upsert"; lastEventId := None |}) ].
Proof. vm_compute. reflexivity. Qed.


(** What the other hypotheses are for. A batch whose commit fails is counted
in [errors] and leaves alice's document as it was; a lookup whose query fails
finds nobody, and alice's row is written as a new document. *)
Example processUpserts_failed_commit :
  processUpserts (failingEnv 2000) "acme" [upsert "alice@x.com" "inactive"] 2
    constructor aliceActive.2
  = (Resolved {| processed := 0; skipped := 0; errors := 1 |},
     (processUpserts (failingEnv 2000) "acme"
        [upsert "alice@x.com" "inactive"] 2 constructor aliceActive.2).1.2,
     withEmployees aliceActive.2 "acme" (employees aliceActive.2 "acme")).
Proof. vm_compute. reflexivity. Qed.

Example processUpserts_failed_query :
  statusInOrg ∘ snd
  <$> docs
        (employees
           (processUpserts (blindEnv 2000) "acme"
              [upsert "alice@x.com" "inactive"] 2 constructor
              aliceActive.2).2 "acme")
  = ["active"; "inactive"].
Proof. vm_compute. reflexivity. Qed.


(** And a collection that already has two documents for alice keeps one of
them as it is: the lookup names one document per email, the one with the
greater id here, and only that one is updated. *)
Example processUpserts_two_documents :
  statusInOrg ∘ snd
  <$> docs
        (employees
           (processUpserts (healthyEnv 400000) "acme"
              [upsert "alice@x.com" "left"] 3 constructor
              aliceInactiveWithinTtl.2).2 "acme")
  = ["active"; "left"].
Proof. vm_compute. reflexivity. Qed.

End ReconciledStoreFacts.
